(** * sjtu::deque (deque.hpp): a block-decomposed sequence

    A shallow embedding of [sjtu::double_list] and [sjtu::deque] of
    [deque.hpp], and the properties of the block decomposition, of indexed
    access, of the two ends, of rebalancing and of the iterators.

    Representation.
    - A [double_list<A>] is the list of the values of its nodes, from [head]
      to [tail].  Every member function keeps the cached counter [size_]
      equal to the number of nodes, so [size()] is [length].
    - A [Node*] is the position of the node in its list ([Some i], the
      [i]-th node from [head]); [nullptr] is [None].  A position that is not
      below the length of the list is a dangling pointer: using it is
      undefined behaviour, which the model records as [Undefined].
    - [size_t] counters ([total_size], [block_size], list sizes) are natural
      numbers: every decrement in the source is guarded and every element
      is a heap node, so they do not wrap.  A [size_t] that the source
      obtains by negation (the iterator difference) is a [Z] taken modulo
      2^64, and the narrowing of a [ptrdiff_t] to [int] is [to_int].
    - An exception is the [std::out_of_range] the source throws, with its
      message.  A member function that changes the container is a function
      from the container to an outcome and the container at that point, so
      that the state a failing call leaves behind can be observed. *)

From Stdlib Require Import String List Arith ZArith Lia Bool.
Import ListNotations.

Set Implicit Arguments.

(** ** Outcomes *)

Inductive exn : Type :=
| out_of_range (what : string).

Inductive result (A : Type) : Type :=
| Ret (a : A)
| Throw (e : exn)
| Undefined.

Arguments Ret {A} a.
Arguments Throw {A} e.
Arguments Undefined {A}.

Definition rbind {A B : Type} (r : result A) (k : A -> result B) : result B :=
  match r with
  | Ret a => k a
  | Throw e => Throw e
  | Undefined => Undefined
  end.

Declare Scope cpp_scope.
Delimit Scope cpp_scope with cpp.
Notation "x <~ r ;; k" := (rbind r (fun x => k))
  (at level 61, r at next level, right associativity) : cpp_scope.
Notation "' p <~ r ;; k" := (rbind r (fun x => let 'p := x in k))
  (at level 61, p pattern, r at next level, right associativity) : cpp_scope.
Open Scope cpp_scope.

(** ** Machine integers *)

Definition INT_MAX : Z := 2147483647.
Definition INT_MIN : Z := -2147483648.

(** Narrowing of a [ptrdiff_t] or [size_t] value to [int]. *)
Definition to_int (z : Z) : Z := ((z + 2147483648) mod 4294967296 - 2147483648)%Z.

(** Unary minus on a [size_t], and the conversion of a negative
    [ptrdiff_t] to [size_t]. *)
Definition SIZE_MOD : Z := 18446744073709551616.
Definition to_size_t (z : Z) : Z := (z mod SIZE_MOD)%Z.

(** ** double_list *)

Definition node : Type := option nat.

Definition node_eqb (p q : node) : bool :=
  match p, q with
  | None, None => true
  | Some i, Some j => Nat.eqb i j
  | _, _ => false
  end.

Section DoubleList.
Variable A : Type.

Definition double_list : Type := list A.

(** [begin()] is [iterator(head)]: null on a list without nodes. *)
Definition dl_begin (l : double_list) : node :=
  match l with
  | [] => None
  | _ :: _ => Some 0
  end.

(** [get_tail()] is [iterator(tail)]. *)
Definition dl_get_tail (l : double_list) : node :=
  match l with
  | [] => None
  | _ :: _ => Some (length l - 1)
  end.

(** [end()] is [iterator(nullptr)]. *)
Definition dl_end : node := None.

(** [current->nxt] of the node at position [i]. *)
Definition node_nxt (l : double_list) (i : nat) : node :=
  if S i <? length l then Some (S i) else None.

(** [iterator::operator++]. *)
Definition dl_incr (l : double_list) (p : node) : result node :=
  match p with
  | Some i => if i <? length l then Ret (node_nxt l i) else Undefined
  | None => Throw (out_of_range "Iterator out of range"%string)
  end.

(** [iterator::operator--]: needs [current && current->pre]. *)
Definition dl_decr (l : double_list) (p : node) : result node :=
  match p with
  | Some i =>
      if i <? length l then
        match i with
        | S j => Ret (Some j)
        | O => Throw (out_of_range "Iterator out of range"%string)
        end
      else Undefined
  | None => Throw (out_of_range "Iterator out of range"%string)
  end.

(** [iterator::operator*]. *)
Definition dl_deref (l : double_list) (p : node) : result A :=
  match p with
  | Some i =>
      match nth_error l i with
      | Some x => Ret x
      | None => Undefined
      end
  | None => Throw (out_of_range "Iterator out of range"%string)
  end.

(** [iterator::operator->] followed by a member access: the operator
    returns [nullptr] for the null iterator, and the access is undefined. *)
Definition dl_arrow (l : double_list) (p : node) : result A :=
  match p with
  | Some i =>
      match nth_error l i with
      | Some x => Ret x
      | None => Undefined
      end
  | None => Undefined
  end.

Definition insert_head (l : double_list) (value : A) : double_list := value :: l.
Definition insert_tail (l : double_list) (value : A) : double_list := l ++ [value].

(** [delete_head] and [delete_tail] return at once on a list without nodes. *)
Definition delete_head (l : double_list) : double_list :=
  match l with
  | [] => []
  | _ :: t => t
  end.

Definition delete_tail (l : double_list) : double_list := removelast l.

Definition dl_empty (l : double_list) : bool := Nat.eqb (length l) 0.
Definition dl_size (l : double_list) : nat := length l.

Definition dl_front (l : double_list) : result A :=
  match l with
  | [] => Throw (out_of_range "List is empty"%string)
  | x :: _ => Ret x
  end.

Definition dl_back (l : double_list) : result A :=
  match l with
  | [] => Throw (out_of_range "List is empty"%string)
  | x :: t => Ret (last t x)
  end.

(** [erase(pos)]: unlinks the node and returns its successor, which after
    the unlinking stands at the position of the erased node. *)
Definition dl_erase (l : double_list) (pos : node) : result (double_list * node) :=
  match pos with
  | None => Throw (out_of_range ""%string)
  | Some i =>
      if i <? length l then
        Ret (firstn i l ++ skipn (S i) l,
             if S i <? length l then Some i else None)
      else Undefined
  end.

(** [insert(pos, value)]: appends at [end()], otherwise links a new node
    before the node at [pos]; returns the new node. *)
Definition dl_insert (l : double_list) (pos : node) (value : A)
  : result (double_list * node) :=
  match pos with
  | None => Ret (insert_tail l value, Some (length l))
  | Some i =>
      if i <? length l then Ret (firstn i l ++ value :: skipn i l, Some i)
      else Undefined
  end.

(** [std::distance(first, last)] on a bidirectional iterator:
    [while (first != last) { ++first; ++n; }].  From a node of [l] the
    loop makes at most [length l] increments before [first] is null, where
    it either stops or throws; the bound on the iterations is [S (length l)]. *)
Fixpoint distance_loop (fuel : nat) (l : double_list) (first last : node) (n : Z)
  : result Z :=
  if node_eqb first last then Ret n
  else
    match fuel with
    | O => Undefined
    | S fuel' =>
        first' <~ dl_incr l first ;;
        distance_loop fuel' l first' last (n + 1)%Z
    end.

Definition std_distance (l : double_list) (first last : node) : result Z :=
  distance_loop (S (length l)) l first last 0%Z.

(** [while (n--) ++it;] *)
Fixpoint incr_loop (n : nat) (l : double_list) (it : node) : result node :=
  match n with
  | O => Ret it
  | S n' => it' <~ dl_incr l it ;; incr_loop n' l it'
  end.

(** [while (n--) --it;] *)
Fixpoint decr_loop (n : nat) (l : double_list) (it : node) : result node :=
  match n with
  | O => Ret it
  | S n' => it' <~ dl_decr l it ;; decr_loop n' l it'
  end.

(** [std::advance(it, n)] on a bidirectional iterator. *)
Definition std_advance (l : double_list) (it : node) (n : Z) : result node :=
  if (0 <=? n)%Z then incr_loop (Z.to_nat n) l it
  else decr_loop (Z.to_nat (- n)) l it.

End DoubleList.


(** In-place assignment to the element a reference points at. *)
Fixpoint list_update {A : Type} (l : list A) (i : nat) (x : A) : list A :=
  match l, i with
  | [], _ => []
  | _ :: t, O => x :: t
  | y :: t, S j => y :: list_update t j x
  end.

(** ** The state monad of the member functions that change the container *)

Section StateMonad.
Variable S : Type.

Definition M (A : Type) : Type := S -> result A * S.

Definition ret {A : Type} (a : A) : M A := fun s => (Ret a, s).
Definition throw {A : Type} (e : exn) : M A := fun s => (Throw e, s).
Definition lift {A : Type} (r : result A) : M A := fun s => (r, s).
Definition get : M S := fun s => (Ret s, s).

Definition bind {A B : Type} (m : M A) (k : A -> M B) : M B :=
  fun s =>
    match m s with
    | (Ret a, s') => k a s'
    | (Throw e, s') => (Throw e, s')
    | (Undefined, s') => (Undefined, s')
    end.

End StateMonad.

Arguments ret {S A} a.
Arguments throw {S A} e.
Arguments lift {S A} r.
Arguments get {S}.

Notation "x <- m ;; k" := (bind m (fun x => k))
  (at level 61, m at next level, right associativity) : cpp_scope.
Notation "m ;;; k" := (bind m (fun _ => k))
  (at level 61, right associativity) : cpp_scope.

(** ** deque: data *)

Section Deque.
Variable T : Type.

Record Block : Type := { items : double_list T }.

Record deque : Type := {
  blocks : double_list Block;
  total_size : nat;
  block_size : nat
}.

(** [deque()]: no block, [total_size(0)], [block_size(4)]. *)
Definition deque_new : deque :=
  {| blocks := []; total_size := 0; block_size := 4 |}.

(** The iterator holds [item_it] and [block_it]; its [outer] pointer is
    the container the functions below receive. *)
Record iterator : Type := { item_it : node; block_it : node }.

Definition set_blocks (bs : double_list Block) : M deque unit :=
  fun d => (Ret tt, {| blocks := bs; total_size := total_size d; block_size := block_size d |}).
Definition set_total_size (n : nat) : M deque unit :=
  fun d => (Ret tt, {| blocks := blocks d; total_size := n; block_size := block_size d |}).
Definition set_block_size (n : nat) : M deque unit :=
  fun d => (Ret tt, {| blocks := blocks d; total_size := total_size d; block_size := n |}).

(** ** deque: rebalancing *)

(** The loop of [Merge]: [current_block.items.insert_tail( *next_it )] for
    every node of the next block, head to tail. *)
Definition merge_items (current next : double_list T) : double_list T :=
  fold_left (@insert_tail T) next current.

(** [Merge(it)] *)
Definition Merge (it : node) : M deque unit :=
  if node_eqb it dl_end then ret tt
  else
    d <- get ;;
    current_block <- lift (dl_deref (blocks d) it) ;;
    it' <- lift (dl_incr (blocks d) it) ;;
    if node_eqb it' dl_end then ret tt
    else
      next_block <- lift (dl_deref (blocks d) it') ;;
      if dl_size (items current_block) + dl_size (items next_block) <=? block_size d then
        match it with
        | Some i =>
            set_blocks (list_update (blocks d) i
                          {| items := merge_items (items current_block) (items next_block) |}) ;;;
            d1 <- get ;;
            r <- lift (dl_erase (blocks d1) it') ;;
            set_blocks (fst r)
        | None => ret tt
        end
      else ret tt.

(** The loop of [Split]:
    [while (split_it != it->items.end()) {
       new_block.items.insert_tail( *split_it );
       split_it = it->items.erase(split_it); }].
    Every iteration erases a node of [its]. *)
Fixpoint split_loop (fuel : nat) (its : double_list T) (split_it : node)
    (new_items : double_list T) : result (double_list T * double_list T) :=
  if node_eqb split_it dl_end then Ret (its, new_items)
  else
    match fuel with
    | O => Undefined
    | S fuel' =>
        x <~ dl_deref its split_it ;;
        r <~ dl_erase its split_it ;;
        split_loop fuel' (fst r) (snd r) (insert_tail new_items x)
    end.

(** [Split(it)] *)
Definition Split (it : node) : M deque unit :=
  d <- get ;;
  blk <- lift (dl_arrow (blocks d) it) ;;
  if dl_size (items blk) <=? block_size d then ret tt
  else
    split_it <- lift (std_advance (items blk) (dl_begin (items blk))
                        (Z.of_nat (dl_size (items blk) / 2))) ;;
    r <- lift (split_loop (dl_size (items blk)) (items blk) split_it []) ;;
    match it with
    | Some i =>
        set_blocks (list_update (blocks d) i {| items := fst r |}) ;;;
        d1 <- get ;;
        it' <- lift (dl_incr (blocks d1) it) ;;
        if negb (node_eqb it' dl_end) then
          r' <- lift (dl_insert (blocks d1) it' {| items := snd r |}) ;;
          set_blocks (fst r')
        else set_blocks (insert_tail (blocks d1) {| items := snd r |})
    | None => ret tt
    end.

(** The [while (it != blocks.end())] loop of [Balance].  [block_size] is
    positive there, so an iteration leaves the blocks from [it] on with
    fewer items and blocks in total than it found; [Balance] passes that
    total as the bound on the iterations. *)
Fixpoint Balance_loop (fuel : nat) (it : node) : M deque unit :=
  if node_eqb it dl_end then ret tt
  else
    match fuel with
    | O => lift Undefined
    | S fuel' =>
        d <- get ;;
        blk <- lift (dl_arrow (blocks d) it) ;;
        (if block_size d * 2 <? dl_size (items blk) then Split it
         else if dl_size (items blk) * 2 <? block_size d then Merge it
         else ret tt) ;;;
        d1 <- get ;;
        it' <- lift (dl_incr (blocks d1) it) ;;
        Balance_loop fuel' it'
    end.

Definition items_count (bs : double_list Block) : nat :=
  list_sum (map (fun b => dl_size (items b)) bs).

(** [Balance()].  [std::sqrt(total_size) + 1] converted to [size_t] is
    the integer square root plus one (the [double] arithmetic is exact for
    every [total_size] below 2^52). *)
Definition Balance : M deque unit :=
  d <- get ;;
  if dl_empty (blocks d) then ret tt
  else
    let new_block_size := Nat.sqrt (total_size d) + 1 in
    if negb (new_block_size =? block_size d) then
      set_block_size new_block_size ;;;
      Balance_loop (items_count (blocks d) + dl_size (blocks d)) (dl_begin (blocks d))
    else ret tt.

(** ** deque: iterators *)

Definition null_iterator : iterator := {| item_it := None; block_it := None |}.

(** [begin()] *)
Definition deque_begin (d : deque) : iterator :=
  match blocks d with
  | [] => null_iterator
  | b :: _ => {| item_it := dl_begin (items b); block_it := dl_begin (blocks d) |}
  end.

(** [end()]: the tail block with the null item position. *)
Definition deque_end (d : deque) : iterator :=
  match blocks d with
  | [] => null_iterator
  | _ :: _ => {| item_it := dl_end; block_it := dl_get_tail (blocks d) |}
  end.

(** [iterator::operator==] *)
Definition iter_eqb (a b : iterator) : bool :=
  node_eqb (block_it a) (block_it b) && node_eqb (item_it a) (item_it b).

(** The [while (remain > 0)] loop of [operator+].  [remain] is positive
    where it is compared with a [size_t], so the comparison is the one of
    the integers.  Every iteration but the last moves to the next block. *)
Fixpoint plus_loop (fuel : nat) (d : deque) (temp : iterator) (remain : Z)
  : result (iterator * Z) :=
  if (0 <? remain)%Z then
    match fuel with
    | O => Undefined
    | S fuel' =>
        blk <~ dl_arrow (blocks d) (block_it temp) ;;
        if (remain <? Z.of_nat (dl_size (items blk)))%Z then Ret (temp, remain)
        else
          let remain := (remain - Z.of_nat (dl_size (items blk)))%Z in
          if negb (node_eqb (block_it temp) (dl_get_tail (blocks d))) then
            b' <~ dl_incr (blocks d) (block_it temp) ;;
            blk' <~ dl_arrow (blocks d) b' ;;
            plus_loop fuel' d {| item_it := dl_begin (items blk'); block_it := b' |} remain
          else if negb (remain =? 0)%Z then Throw (out_of_range ""%string)
          else plus_loop fuel' d {| item_it := dl_end; block_it := block_it temp |} remain
    end
  else Ret (temp, remain).

(** [iterator::operator+] for [n >= 0]. *)
Definition iter_plus_nonneg (d : deque) (it : iterator) (n : Z) : result iterator :=
  if (n =? 0)%Z then Ret it
  else if node_eqb (block_it it) None then Throw (out_of_range ""%string)
  else
    blk <~ dl_arrow (blocks d) (block_it it) ;;
    dist <~ std_distance (items blk) (item_it it) dl_end ;;
    let block_remaining := to_int dist in
    if (n <? block_remaining)%Z then
      i' <~ std_advance (items blk) (item_it it) n ;;
      Ret {| item_it := i'; block_it := block_it it |}
    else
      let remain := (n - block_remaining)%Z in
      if (remain =? 0)%Z && node_eqb (block_it it) (dl_get_tail (blocks d))
      then Ret (deque_end d)
      else
        b' <~ dl_incr (blocks d) (block_it it) ;;
        if node_eqb b' dl_end then Throw (out_of_range ""%string)
        else
          blk' <~ dl_arrow (blocks d) b' ;;
          r <~ plus_loop (S (dl_size (blocks d))) d
                 {| item_it := dl_begin (items blk'); block_it := b' |} remain ;;
          blk'' <~ dl_arrow (blocks d) (block_it (fst r)) ;;
          i' <~ std_advance (items blk'') (item_it (fst r)) (snd r) ;;
          Ret {| item_it := i'; block_it := block_it (fst r) |}.

(** The [while (remain > 0)] loop of [operator-]. *)
Fixpoint minus_loop (fuel : nat) (d : deque) (temp : iterator) (remain : Z)
  : result (iterator * Z) :=
  if (0 <? remain)%Z then
    match fuel with
    | O => Undefined
    | S fuel' =>
        blk <~ dl_arrow (blocks d) (block_it temp) ;;
        if (remain <? Z.of_nat (dl_size (items blk)))%Z then Ret (temp, remain)
        else if node_eqb (block_it temp) (dl_begin (blocks d))
        then Throw (out_of_range ""%string)
        else
          let remain := (remain - Z.of_nat (dl_size (items blk)))%Z in
          b' <~ dl_decr (blocks d) (block_it temp) ;;
          blk' <~ dl_arrow (blocks d) b' ;;
          minus_loop fuel' d {| item_it := dl_get_tail (items blk'); block_it := b' |} remain
    end
  else Ret (temp, remain).

(** [while (remain--) --temp.item_it;] with [remain >= 0]; a negative
    [remain] would run the [int] down to its overflow. *)
Definition retreat (l : double_list T) (it : node) (remain : Z) : result node :=
  if (remain <? 0)%Z then Undefined else decr_loop (Z.to_nat remain) l it.

(** [iterator::operator-] for [n >= 0]. *)
Definition iter_minus_nonneg (d : deque) (it : iterator) (n : Z) : result iterator :=
  if (n =? 0)%Z then Ret it
  else
    r0 <~ (if iter_eqb it (deque_end d) then
             tl <~ dl_arrow (blocks d) (dl_get_tail (blocks d)) ;;
             Ret ({| item_it := dl_get_tail (items tl);
                     block_it := dl_get_tail (blocks d) |}, (n - 1)%Z)
           else Ret (it, n)) ;;
    let temp := fst r0 in
    let remain := snd r0 in
    blk <~ dl_arrow (blocks d) (block_it temp) ;;
    dist <~ std_distance (items blk) (dl_begin (items blk)) (item_it temp) ;;
    let block_remaining := to_int dist in
    if (remain <=? block_remaining)%Z then
      i' <~ retreat (items blk) (item_it temp) remain ;;
      Ret {| item_it := i'; block_it := block_it temp |}
    else if node_eqb (block_it temp) (dl_begin (blocks d))
    then Throw (out_of_range ""%string)
    else
      let remain := (remain - block_remaining - 1)%Z in
      b' <~ dl_decr (blocks d) (block_it temp) ;;
      blk' <~ dl_arrow (blocks d) b' ;;
      r <~ minus_loop (S (dl_size (blocks d))) d
             {| item_it := dl_get_tail (items blk'); block_it := b' |} remain ;;
      blk'' <~ dl_arrow (blocks d) (block_it (fst r)) ;;
      i' <~ retreat (items blk'') (item_it (fst r)) (snd r) ;;
      Ret {| item_it := i'; block_it := block_it (fst r) |}.

(** [iterator::operator+(const int &n)]: a negative [n] goes to
    [operator-] with [-n], which overflows for [INT_MIN]. *)
Definition iter_plus (d : deque) (it : iterator) (n : Z) : result iterator :=
  if (n <? 0)%Z then
    if (n =? INT_MIN)%Z then Undefined else iter_minus_nonneg d it (- n)
  else iter_plus_nonneg d it n.

(** [iterator::operator-(const int &n)] *)
Definition iter_minus (d : deque) (it : iterator) (n : Z) : result iterator :=
  if (n <? 0)%Z then
    if (n =? INT_MIN)%Z then Undefined else iter_plus_nonneg d it (- n)
  else iter_minus_nonneg d it n.

(** [iterator::operator++()] *)
Definition iter_incr (d : deque) (it : iterator) : result iterator :=
  if node_eqb (block_it it) dl_end then Throw (out_of_range ""%string)
  else if node_eqb (block_it it) (dl_get_tail (blocks d)) && node_eqb (item_it it) dl_end
  then Throw (out_of_range ""%string)
  else if node_eqb (item_it it) dl_end then Throw (out_of_range ""%string)
  else
    blk <~ dl_arrow (blocks d) (block_it it) ;;
    i' <~ dl_incr (items blk) (item_it it) ;;
    if node_eqb i' dl_end && negb (node_eqb (block_it it) (dl_get_tail (blocks d))) then
      b' <~ dl_incr (blocks d) (block_it it) ;;
      blk' <~ dl_arrow (blocks d) b' ;;
      Ret {| item_it := dl_begin (items blk'); block_it := b' |}
    else Ret {| item_it := i'; block_it := block_it it |}.

(** [iterator::operator--()].  The test for the first element reads the
    block only where [block_it] is the first block ([&&] is evaluated from
    the left). *)
Definition iter_decr (d : deque) (it : iterator) : result iterator :=
  if iter_eqb it (deque_end d) then
    tl <~ dl_arrow (blocks d) (dl_get_tail (blocks d)) ;;
    Ret {| item_it := dl_get_tail (items tl); block_it := dl_get_tail (blocks d) |}
  else
    at_first <~ (if node_eqb (block_it it) (dl_begin (blocks d)) then
                   blk <~ dl_arrow (blocks d) (block_it it) ;;
                   Ret (node_eqb (item_it it) (dl_begin (items blk)))
                 else Ret false) ;;
    if at_first then Throw (out_of_range ""%string)
    else
      blk <~ dl_arrow (blocks d) (block_it it) ;;
      if node_eqb (item_it it) dl_end then Throw (out_of_range ""%string)
      else if node_eqb (item_it it) (dl_begin (items blk)) then
        b' <~ dl_decr (blocks d) (block_it it) ;;
        blk' <~ dl_arrow (blocks d) b' ;;
        Ret {| item_it := dl_get_tail (items blk'); block_it := b' |}
      else
        i' <~ dl_decr (items blk) (item_it it) ;;
        Ret {| item_it := i'; block_it := block_it it |}.

(** [iterator::operator*]: [*item_it], which throws on the null item
    position before it looks at anything else.  The node of an item
    position is found in the block of [block_it]. *)
Definition iter_deref (d : deque) (it : iterator) : result T :=
  match item_it it with
  | None => Throw (out_of_range "Iterator out of range"%string)
  | Some _ =>
      blk <~ dl_arrow (blocks d) (block_it it) ;;
      dl_deref (items blk) (item_it it)
  end.

(** [iterator::operator!=] *)
Definition iter_neqb (a b : iterator) : bool :=
  negb (node_eqb (block_it a) (block_it b)) || negb (node_eqb (item_it a) (item_it b)).

(** The first loop of [operator-(const iterator&)], within one block:
    [while (temp_item_it != item_it) {
       if (temp_item_it == temp_block_it->items.end()) { f = 1; break; }
       distance++; ++temp_item_it; }] *)
Fixpoint same_block_loop (fuel : nat) (l : double_list T) (temp_item_it target : node)
    (distance : Z) : result (bool * Z) :=
  if node_eqb temp_item_it target then Ret (false, distance)
  else if node_eqb temp_item_it dl_end then Ret (true, distance)
  else
    match fuel with
    | O => Undefined
    | S fuel' =>
        t' <~ dl_incr l temp_item_it ;;
        same_block_loop fuel' l t' target (distance + 1)%Z
    end.

(** The loops over the blocks of [operator-(const iterator&)]:
    [while (temp_block_it != block_it) {
       if (temp_block_it == blocks.end()) { f = 0; break; }
       distance += temp_block_it->items.size(); ++temp_block_it; }] *)
Fixpoint block_walk_loop (fuel : nat) (bs : double_list Block) (temp_block_it target : node)
    (distance : Z) : result (bool * node * Z) :=
  if node_eqb temp_block_it target then Ret (true, temp_block_it, distance)
  else if node_eqb temp_block_it dl_end then Ret (false, temp_block_it, distance)
  else
    match fuel with
    | O => Undefined
    | S fuel' =>
        blk <~ dl_arrow bs temp_block_it ;;
        t' <~ dl_incr bs temp_block_it ;;
        block_walk_loop fuel' bs t' target (distance + Z.of_nat (dl_size (items blk)))%Z
    end.

(** One direction of the search over the blocks: from [src] forward to
    [dst]; [Ret None] when the end of the blocks comes first. *)
Definition forward_distance (d : deque) (src dst : iterator) : result (option Z) :=
  blk <~ dl_arrow (blocks d) (block_it src) ;;
  n0 <~ std_distance (items blk) (item_it src) dl_end ;;
  tb <~ dl_incr (blocks d) (block_it src) ;;
  r <~ block_walk_loop (dl_size (blocks d)) (blocks d) tb (block_it dst) n0 ;;
  if fst (fst r) then
    blk' <~ dl_arrow (blocks d) (snd (fst r)) ;;
    n1 <~ std_distance (items blk') (dl_begin (items blk')) (item_it dst) ;;
    Ret (Some (snd r + n1)%Z)
  else Ret None.

(** [size_t iterator::operator-(const iterator &rhs)] *)
Definition iter_diff (d : deque) (it rhs : iterator) : result Z :=
  if node_eqb (block_it it) None || node_eqb (block_it rhs) None
  then Throw (out_of_range ""%string)
  else if node_eqb (block_it it) (block_it rhs) then
    blk <~ dl_arrow (blocks d) (block_it rhs) ;;
    r <~ same_block_loop (dl_size (items blk)) (items blk) (item_it rhs) (item_it it) 0%Z ;;
    if fst r then
      n <~ std_distance (items blk) (item_it it) (item_it rhs) ;;
      Ret (to_size_t (- n))
    else Ret (snd r)
  else
    fwd <~ forward_distance d rhs it ;;
    match fwd with
    | Some distance => Ret distance
    | None =>
        bwd <~ forward_distance d it rhs ;;
        match bwd with
        | Some distance => Ret (to_size_t (- distance))
        | None => Throw (out_of_range ""%string)
        end
    end.

(** ** deque: element access *)

(** The [for] loop of [at] over the blocks, which it does not change. *)
Fixpoint at_loop (bs : double_list Block) (current_pos pos : nat) : result T :=
  match bs with
  | [] => Throw (out_of_range ""%string)
  | b :: rest =>
      if pos <? current_pos + dl_size (items b) then
        i <~ std_advance (items b) (dl_begin (items b)) (Z.of_nat (pos - current_pos)) ;;
        dl_deref (items b) i
      else at_loop rest (current_pos + dl_size (items b)) pos
  end.

(** [at(pos)] *)
Definition deque_at (d : deque) (pos : nat) : result T :=
  if total_size d <=? pos then Throw (out_of_range ""%string)
  else at_loop (blocks d) 0 pos.

(** [front()] and [back()] test [blocks.empty()]. *)
Definition deque_front (d : deque) : result T :=
  if dl_empty (blocks d) then Throw (out_of_range ""%string)
  else b <~ dl_front (blocks d) ;; dl_front (items b).

Definition deque_back (d : deque) : result T :=
  if dl_empty (blocks d) then Throw (out_of_range ""%string)
  else b <~ dl_back (blocks d) ;; dl_back (items b).

(** [empty()] and [size()] read [total_size]. *)
Definition deque_empty (d : deque) : bool := Nat.eqb (total_size d) 0.
Definition deque_size (d : deque) : nat := total_size d.

(** ** deque: modifiers *)

(** The loop of [insert] and [erase] that finds the block of the logical
    offset [dis] again:
    [while (dis >= block_it->items.size()) {
       dis -= block_it->items.size();
       if (block_it == blocks.get_tail()) break;
       ++block_it; }] *)
Fixpoint locate_loop (fuel : nat) (bs : double_list Block) (block_it : node) (dis : Z)
  : result (node * Z) :=
  blk <~ dl_arrow bs block_it ;;
  if (Z.of_nat (dl_size (items blk)) <=? dis)%Z then
    match fuel with
    | O => Undefined
    | S fuel' =>
        let dis := (dis - Z.of_nat (dl_size (items blk)))%Z in
        if node_eqb block_it (dl_get_tail bs) then Ret (block_it, dis)
        else b' <~ dl_incr bs block_it ;; locate_loop fuel' bs b' dis
    end
  else Ret (block_it, dis).

(** The iterator at the logical offset [dis], as [insert] and [erase]
    compute the one they return. *)
Definition locate (d : deque) (dis : Z) : result iterator :=
  r <~ locate_loop (dl_size (blocks d)) (blocks d) (dl_begin (blocks d)) dis ;;
  blk <~ dl_arrow (blocks d) (fst r) ;;
  i <~ std_advance (items blk) (dl_begin (items blk)) (snd r) ;;
  Ret {| item_it := i; block_it := fst r |}.

(** [insert(pos, value)] *)
Definition insert (pos : iterator) (value : T) : M deque iterator :=
  d <- get ;;
  if dl_empty (blocks d) then
    if negb (iter_eqb pos (deque_end d)) then throw (out_of_range ""%string)
    else
      set_blocks (insert_tail (blocks d) {| items := [] |}) ;;;
      d1 <- get ;;
      b <- lift (dl_back (blocks d1)) ;;
      set_blocks (list_update (blocks d1) (dl_size (blocks d1) - 1)
                    {| items := insert_tail (items b) value |}) ;;;
      d2 <- get ;;
      set_total_size (total_size d2 + 1) ;;;
      d3 <- get ;;
      b3 <- lift (dl_back (blocks d3)) ;;
      ret {| item_it := dl_begin (items b3); block_it := dl_get_tail (blocks d3) |}
  else if node_eqb (block_it pos) None then throw (out_of_range ""%string)
  else
    dis <- lift (iter_diff d pos (deque_begin d)) ;;
    if (Z.of_nat (total_size d) <? dis)%Z then throw (out_of_range ""%string)
    else
      blk <- lift (dl_arrow (blocks d) (block_it pos)) ;;
      r <- lift (dl_insert (items blk) (item_it pos) value) ;;
      match block_it pos with
      | Some b =>
          set_blocks (list_update (blocks d) b {| items := fst r |}) ;;;
          d1 <- get ;;
          set_total_size (total_size d1 + 1) ;;;
          Balance ;;;
          d2 <- get ;;
          lift (locate d2 dis)
      | None => lift Undefined
      end.

(** [erase(pos)] *)
Definition erase (pos : iterator) : M deque iterator :=
  d <- get ;;
  if node_eqb (block_it pos) None then throw (out_of_range "Invalid iterator"%string)
  else
    dis <- lift (iter_diff d pos (deque_begin d)) ;;
    if (Z.of_nat (total_size d) <=? dis)%Z then throw (out_of_range ""%string)
    else
      blk <- lift (dl_arrow (blocks d) (block_it pos)) ;;
      r <- lift (dl_erase (items blk) (item_it pos)) ;;
      match block_it pos with
      | Some b =>
          set_blocks (list_update (blocks d) b {| items := fst r |}) ;;;
          d1 <- get ;;
          set_total_size (total_size d1 - 1) ;;;
          d2 <- get ;;
          blk2 <- lift (dl_arrow (blocks d2) (block_it pos)) ;;
          (if dl_empty (items blk2) then
             r2 <- lift (dl_erase (blocks d2) (block_it pos)) ;;
             set_blocks (fst r2)
           else ret tt) ;;;
          d3 <- get ;;
          if deque_empty d3 || (dis =? Z.of_nat (total_size d3))%Z then ret (deque_end d3)
          else
            Balance ;;;
            d4 <- get ;;
            lift (locate d4 dis)
      | None => lift Undefined
      end.

(** [push_back(value)] *)
Definition push_back (value : T) : M deque unit :=
  d <- get ;;
  (if dl_empty (blocks d)
   then set_blocks (insert_tail (blocks d) {| items := [] |})
   else
     b <- lift (dl_back (blocks d)) ;;
     if block_size d <=? dl_size (items b)
     then set_blocks (insert_tail (blocks d) {| items := [] |})
     else ret tt) ;;;
  d1 <- get ;;
  b1 <- lift (dl_back (blocks d1)) ;;
  set_blocks (list_update (blocks d1) (dl_size (blocks d1) - 1)
                {| items := insert_tail (items b1) value |}) ;;;
  d2 <- get ;;
  set_total_size (total_size d2 + 1) ;;;
  Balance.

(** [pop_back()] *)
Definition pop_back : M deque unit :=
  d <- get ;;
  if deque_empty d then throw (out_of_range ""%string)
  else
    b <- lift (dl_back (blocks d)) ;;
    set_blocks (list_update (blocks d) (dl_size (blocks d) - 1)
                  {| items := delete_tail (items b) |}) ;;;
    d1 <- get ;;
    b1 <- lift (dl_back (blocks d1)) ;;
    (if dl_empty (items b1) then set_blocks (delete_tail (blocks d1)) else ret tt) ;;;
    d2 <- get ;;
    set_total_size (total_size d2 - 1) ;;;
    Balance.

(** [push_front(value)] *)
Definition push_front (value : T) : M deque unit :=
  d <- get ;;
  (if dl_empty (blocks d)
   then set_blocks (insert_head (blocks d) {| items := [] |})
   else
     b <- lift (dl_front (blocks d)) ;;
     if block_size d <=? dl_size (items b)
     then set_blocks (insert_head (blocks d) {| items := [] |})
     else ret tt) ;;;
  d1 <- get ;;
  b1 <- lift (dl_front (blocks d1)) ;;
  set_blocks (list_update (blocks d1) 0 {| items := insert_head (items b1) value |}) ;;;
  d2 <- get ;;
  set_total_size (total_size d2 + 1) ;;;
  Balance.

(** [pop_front()] *)
Definition pop_front : M deque unit :=
  d <- get ;;
  if deque_empty d then throw (out_of_range ""%string)
  else
    b <- lift (dl_front (blocks d)) ;;
    set_blocks (list_update (blocks d) 0 {| items := delete_head (items b) |}) ;;;
    d1 <- get ;;
    b1 <- lift (dl_front (blocks d1)) ;;
    (if dl_empty (items b1) then set_blocks (delete_head (blocks d1)) else ret tt) ;;;
    d2 <- get ;;
    set_total_size (total_size d2 - 1) ;;;
    Balance.

(** ** Sequences of operations and the flat reference model *)

(** The logical sequence: the items of the blocks, in block order. *)
Definition to_list (d : deque) : list T := concat (map (@items) (blocks d)).

(** An operation of a test run.  [Insert i v] is
    [d.insert(d.begin() + i, v)] and [Erase i] is [d.erase(d.begin() + i)]. *)
Inductive op : Type :=
| PushBack (v : T)
| PushFront (v : T)
| Insert (i : nat) (v : T)
| Erase (i : nat)
| PopBack
| PopFront.

Definition step (o : op) : M deque unit :=
  match o with
  | PushBack v => push_back v
  | PushFront v => push_front v
  | Insert i v =>
      d <- get ;;
      pos <- lift (iter_plus d (deque_begin d) (Z.of_nat i)) ;;
      insert pos v ;;; ret tt
  | Erase i =>
      d <- get ;;
      pos <- lift (iter_plus d (deque_begin d) (Z.of_nat i)) ;;
      erase pos ;;; ret tt
  | PopBack => pop_back
  | PopFront => pop_front
  end.

(** A run catches the exception of a failing operation and goes on with
    the container as the call left it. *)
Fixpoint run (ops : list op) (d : deque) : result deque :=
  match ops with
  | [] => Ret d
  | o :: rest =>
      match step o d with
      | (Undefined, _) => Undefined
      | (_, d') => run rest d'
      end
  end.

(** The same operation on a flat array; an operation that fails there
    (a position out of range, a pop on the empty array) changes nothing. *)
Definition ref_step (o : op) (l : list T) : list T :=
  match o with
  | PushBack v => l ++ [v]
  | PushFront v => v :: l
  | Insert i v => if i <=? length l then firstn i l ++ v :: skipn i l else l
  | Erase i => if i <? length l then firstn i l ++ skipn (S i) l else l
  | PopBack => removelast l
  | PopFront => tl l
  end.

Definition ref_run (ops : list op) (l : list T) : list T := fold_left (fun l o => ref_step o l) ops l.

Definition op_index (o : op) : nat :=
  match o with
  | Insert i _ | Erase i => i
  | _ => 0
  end.

End Deque.

Arguments Erase {T} i.
Arguments PopBack {T}.
Arguments PopFront {T}.
Arguments null_iterator : clear implicits.

(** ** Definitions for the statements

    The invariant of the container, the positions of its iterators, the
    rebalancing pass as the specification words it, and the concrete
    containers of the examples. *)

Unset Implicit Arguments.

(** The node at position [k]; one past the last node is [end()]. *)
Definition node_at {A : Type} (l : list A) (k : nat) : node :=
  if k <? length l then Some k else None.

(** The container with another block list. *)
Definition with_blocks {T : Type} (d : deque T) (bs : list (Block T)) : deque T :=
  {| blocks := bs; total_size := total_size d; block_size := block_size d |}.

(** The pass of the specification over the blocks that are still to be
    scanned, for the target capacity [bsz]: a block of more than [2 * bsz]
    items is split in half and the scan goes on at the new block; a block
    of less than [bsz / 2] items (twice its size is below [bsz]) is merged
    with its successor when the two have at most [bsz] items together, and
    the scan goes on after the successor; otherwise the block stays. *)
Inductive rebalance_pass {T : Type} (bsz : nat) : list (Block T) -> list (Block T) -> Prop :=
| pass_done : rebalance_pass bsz [] []
| pass_split b rest out :
    2 * bsz < length (items b) ->
    rebalance_pass bsz
      ({| items := skipn (length (items b) / 2) (items b) |} :: rest) out ->
    rebalance_pass bsz (b :: rest)
      ({| items := firstn (length (items b) / 2) (items b) |} :: out)
| pass_merge b next rest out :
    length (items b) <= 2 * bsz ->
    2 * length (items b) < bsz ->
    length (items b) + length (items next) <= bsz ->
    rebalance_pass bsz rest out ->
    rebalance_pass bsz (b :: next :: rest) ({| items := items b ++ items next |} :: out)
| pass_skip_merge b rest out :
    length (items b) <= 2 * bsz ->
    2 * length (items b) < bsz ->
    match rest with
    | [] => True
    | next :: _ => bsz < length (items b) + length (items next)
    end ->
    rebalance_pass bsz rest out ->
    rebalance_pass bsz (b :: rest) (b :: out)
| pass_keep b rest out :
    length (items b) <= 2 * bsz ->
    bsz <= 2 * length (items b) ->
    rebalance_pass bsz rest out ->
    rebalance_pass bsz (b :: rest) (b :: out).

Definition nonempty_blocks {T : Type} (bs : list (Block T)) : Prop :=
  Forall (fun b => items b <> []) bs.

(** [total_size] counts the items of the blocks, and no block is empty.
    Every container that a run of operations builds from the empty one is
    of this kind ([reachable_wf] below). *)
Definition wf {T : Type} (d : deque T) : Prop :=
  total_size d = items_count (blocks d) /\ nonempty_blocks (blocks d).

(** The capacity [Balance] leaves in [block_size]. *)
Definition balanced_block_size {T : Type} (d : deque T) : nat :=
  if dl_empty (blocks d) then block_size d else Nat.sqrt (total_size d) + 1.

(** Whether [Balance] scans the blocks. *)
Definition rescans {T : Type} (d : deque T) : bool :=
  negb (dl_empty (blocks d)) && negb (Nat.sqrt (total_size d) + 1 =? block_size d).

(** The number of items in the blocks before block [b]. *)
Definition offset {T : Type} (bs : list (Block T)) (b : nat) : nat :=
  items_count (firstn b bs).

(** The iterators of a container: the null iterator of the container
    without blocks; an item of a block; the end position of the tail block. *)
Definition valid_iterator {T : Type} (d : deque T) (it : iterator) : bool :=
  match block_it it with
  | None =>
      match item_it it with
      | None => dl_empty (blocks d)
      | Some _ => false
      end
  | Some b =>
      match nth_error (blocks d) b with
      | None => false
      | Some blk =>
          match item_it it with
          | Some i => i <? length (items blk)
          | None => S b =? length (blocks d)
          end
      end
  end.

(** The logical position an iterator stands at. *)
Definition index_of {T : Type} (d : deque T) (it : iterator) : nat :=
  match block_it it with
  | None => 0
  | Some b =>
      offset (blocks d) b +
      match item_it it with
      | Some i => i
      | None =>
          match nth_error (blocks d) b with
          | Some blk => length (items blk)
          | None => 0
          end
      end
  end.

(** [points d it k]: [it] is the iterator of [d] at the logical position [k]. *)
Inductive points {T : Type} (d : deque T) : iterator -> nat -> Prop :=
| points_null :
    blocks d = [] -> points d null_iterator 0
| points_pos b blk i :
    nth_error (blocks d) b = Some blk ->
    i <= length (items blk) ->
    (i < length (items blk) \/ S b = length (blocks d)) ->
    points d {| item_it := node_at (items blk) i; block_it := Some b |}
           (offset (blocks d) b + i).

(** The sizes the [int] arithmetic of the iterators can hold. *)
Definition fits_int {T : Type} (d : deque T) : Prop :=
  (Z.of_nat (total_size d) <= INT_MAX)%Z.

(** The end of [operator+] and [operator-]: the walk inside the block
    the loop stopped at. *)
Definition plus_finish {T : Type} (d : deque T) (r : iterator * Z) : result iterator :=
  blk <~ dl_arrow (blocks d) (block_it (fst r)) ;;
  i' <~ std_advance (items blk) (item_it (fst r)) (snd r) ;;
  Ret {| item_it := i'; block_it := block_it (fst r) |}.

Definition minus_finish {T : Type} (d : deque T) (r : iterator * Z) : result iterator :=
  blk <~ dl_arrow (blocks d) (block_it (fst r)) ;;
  i' <~ retreat (items blk) (item_it (fst r)) (snd r) ;;
  Ret {| item_it := i'; block_it := block_it (fst r) |}.

(** [++it] applied [n] times. *)
Fixpoint incr_times {T : Type} (n : nat) (d : deque T) (it : iterator) : result iterator :=
  match n with
  | O => Ret it
  | S n' => it' <~ iter_incr d it ;; incr_times n' d it'
  end.

(** [operator-] from the point where [temp] stands on an item. *)
Definition minus_body {T : Type} (d : deque T) (temp : iterator) (remain : Z)
  : result iterator :=
  blk <~ dl_arrow (blocks d) (block_it temp) ;;
  dist <~ std_distance (items blk) (dl_begin (items blk)) (item_it temp) ;;
  if (remain <=? to_int dist)%Z then
    i' <~ retreat (items blk) (item_it temp) remain ;;
    Ret {| item_it := i'; block_it := block_it temp |}
  else if node_eqb (block_it temp) (dl_begin (blocks d))
  then Throw (out_of_range ""%string)
  else
    b' <~ dl_decr (blocks d) (block_it temp) ;;
    blk' <~ dl_arrow (blocks d) b' ;;
    x <~ minus_loop (S (dl_size (blocks d))) d
           {| item_it := dl_get_tail (items blk'); block_it := b' |}
           (remain - to_int dist - 1) ;;
    minus_finish d x.

(** The container after [push_back] of 10, 11 and 12. *)
Definition d3 : deque nat :=
  {| blocks := [{| items := [10; 11] |}; {| items := [12] |}];
     total_size := 3; block_size := 2 |}.

(** The container after [push_back(7)]. *)
Definition d1 : deque nat :=
  {| blocks := [{| items := [7] |}]; total_size := 1; block_size := 2 |}.


Definition ops7 : list (op nat) :=
  [PushBack 1; PushFront 0; Insert 1 5; Erase 0; PopBack; PopFront; PopBack].

(** A block of nine items under the capacity 2. *)
Definition d9 : deque nat :=
  {| blocks := [{| items := [1; 2; 3; 4; 5; 6; 7; 8; 9] |}];
     total_size := 9; block_size := 2 |}.

(** The iterator of the element 12 of [d3]. *)
Definition it12 : iterator := {| item_it := Some 0; block_it := Some 1 |}.

(** * Properties *)

(** ** Positions in a double_list *)

Lemma node_eqb_eq (p q : node) : node_eqb p q = true <-> p = q.
Proof.
  destruct p as [i|], q as [j|]; simpl; split; intro H; try congruence.
  - apply Nat.eqb_eq in H. now subst.
  - injection H as ->. apply Nat.eqb_refl.
Qed.

Lemma node_eqb_refl (p : node) : node_eqb p p = true.
Proof. now apply node_eqb_eq. Qed.

Lemma node_eqb_neq (p q : node) : node_eqb p q = false <-> p <> q.
Proof.
  split; intro H.
  - intro E. apply node_eqb_eq in E. congruence.
  - destruct (node_eqb p q) eqn:E; [|reflexivity]. apply node_eqb_eq in E. contradiction.
Qed.

Section DoubleListFacts.
Variable A : Type.
Implicit Types l : list A.

Lemma node_at_lt l k : k < length l -> node_at l k = Some k.
Proof. intro H. unfold node_at. now apply Nat.ltb_lt in H as ->. Qed.

Lemma node_at_ge l k : length l <= k -> node_at l k = None.
Proof. intro H. unfold node_at. now apply Nat.ltb_ge in H as ->. Qed.

Lemma node_at_inj l i j :
  i <= length l -> j <= length l -> node_at l i = node_at l j -> i = j.
Proof.
  unfold node_at. intros Hi Hj.
  destruct (i <? length l) eqn:Ei, (j <? length l) eqn:Ej; intro H; try congruence.
  apply Nat.ltb_ge in Ei, Ej. lia.
Qed.

Lemma dl_begin_node_at l : dl_begin l = node_at l 0.
Proof. now destruct l. Qed.

Lemma dl_get_tail_nonempty l : l <> [] -> dl_get_tail l = Some (length l - 1).
Proof. now destruct l. Qed.

Lemma dl_incr_node_at l k :
  k < length l -> dl_incr l (node_at l k) = Ret (node_at l (S k)).
Proof.
  intro H. rewrite (node_at_lt _ _ H). simpl.
  apply Nat.ltb_lt in H as ->. reflexivity.
Qed.

Lemma dl_incr_some l k :
  k < length l -> dl_incr l (Some k) = Ret (node_at l (S k)).
Proof. intro H. rewrite <- (node_at_lt _ _ H). now apply dl_incr_node_at. Qed.

Lemma incr_loop_node_at l n k :
  k + n <= length l -> incr_loop n l (node_at l k) = Ret (node_at l (k + n)).
Proof.
  revert k. induction n as [|n IH]; intros k H; simpl.
  - now rewrite Nat.add_0_r.
  - rewrite dl_incr_node_at by lia. simpl. rewrite IH by lia. f_equal. f_equal. lia.
Qed.

Lemma std_advance_node_at l k (n : Z) :
  (0 <= n)%Z -> k + Z.to_nat n <= length l ->
  std_advance l (node_at l k) n = Ret (node_at l (k + Z.to_nat n)).
Proof.
  intros Hn H. unfold std_advance.
  apply Z.leb_le in Hn as ->. now apply incr_loop_node_at.
Qed.

Lemma decr_loop_some l n k :
  n <= k -> k < length l -> decr_loop n l (Some k) = Ret (Some (k - n)).
Proof.
  revert k. induction n as [|n IH]; intros k Hn Hk; simpl.
  - now rewrite Nat.sub_0_r.
  - apply Nat.ltb_lt in Hk as Hk'. rewrite Hk'. destruct k as [|k]; [lia|]. simpl.
    rewrite IH by lia. reflexivity.
Qed.

Lemma distance_loop_node_at fuel l i j (n : Z) :
  i <= j -> j <= length l -> j - i <= fuel ->
  distance_loop fuel l (node_at l i) (node_at l j) n = Ret (n + Z.of_nat (j - i))%Z.
Proof.
  revert i n. induction fuel as [|fuel IH]; intros i n Hij Hj Hf.
  - assert (i = j) by lia. subst. simpl. rewrite node_eqb_refl. f_equal. lia.
  - simpl. destruct (node_eqb (node_at l i) (node_at l j)) eqn:E.
    + apply node_eqb_eq in E. apply node_at_inj in E; try lia. subst.
      f_equal. lia.
    + assert (i <> j) by (intros ->; now rewrite node_eqb_refl in E).
      rewrite dl_incr_node_at by lia. simpl. rewrite IH by lia. f_equal. lia.
Qed.

Lemma std_distance_node_at l i j :
  i <= j -> j <= length l ->
  std_distance l (node_at l i) (node_at l j) = Ret (Z.of_nat (j - i)).
Proof.
  intros Hij Hj. unfold std_distance. rewrite distance_loop_node_at by lia.
  reflexivity.
Qed.

(** Walking from a node to one that lies before it runs into the null
    position, whose increment throws. *)
Lemma distance_loop_behind fuel l i j (n : Z) :
  j < i -> i <= length l -> length l - i < fuel ->
  distance_loop fuel l (node_at l i) (Some j) n
  = Throw (out_of_range "Iterator out of range"%string).
Proof.
  revert i n. induction fuel as [|fuel IH]; intros i n Hji Hi Hf; [lia|].
  simpl. destruct (node_eqb (node_at l i) (Some j)) eqn:E.
  - apply node_eqb_eq in E. unfold node_at in E.
    destruct (i <? length l); [injection E; lia | discriminate].
  - destruct (Nat.eq_dec i (length l)) as [->|Hne].
    + rewrite node_at_ge by lia. reflexivity.
    + rewrite dl_incr_node_at by lia. simpl. apply IH; lia.
Qed.

Lemma dl_deref_node_at l k x :
  nth_error l k = Some x -> dl_deref l (node_at l k) = Ret x.
Proof.
  intro H. assert (k < length l) by (apply nth_error_Some; congruence).
  rewrite node_at_lt by assumption. simpl. now rewrite H.
Qed.

Lemma merge_items_app (current next : list A) :
  merge_items current next = current ++ next.
Proof.
  unfold merge_items. revert current.
  induction next as [|x next IH]; intro current; simpl.
  - now rewrite app_nil_r.
  - rewrite IH. unfold insert_tail. now rewrite <- app_assoc.
Qed.

Lemma nth_error_mid (l1 l2 : list A) x :
  nth_error (l1 ++ x :: l2) (length l1) = Some x.
Proof. rewrite nth_error_app2, Nat.sub_diag by lia. reflexivity. Qed.

Lemma firstn_mid (l1 l2 : list A) : firstn (length l1) (l1 ++ l2) = l1.
Proof. rewrite firstn_app, firstn_all, Nat.sub_diag. simpl. apply app_nil_r. Qed.

Lemma skipn_mid (l1 l2 : list A) : skipn (length l1) (l1 ++ l2) = l2.
Proof. rewrite skipn_app, skipn_all, Nat.sub_diag. reflexivity. Qed.

Lemma skipn_S_mid (l1 l2 : list A) x : skipn (S (length l1)) (l1 ++ x :: l2) = l2.
Proof.
  replace (S (length l1)) with (length (l1 ++ [x])) by (rewrite length_app; simpl; lia).
  replace (l1 ++ x :: l2) with ((l1 ++ [x]) ++ l2) by (now rewrite <- app_assoc).
  apply skipn_mid.
Qed.

Lemma node_at_mid (l1 l2 : list A) x : node_at (l1 ++ x :: l2) (length l1) = Some (length l1).
Proof. apply node_at_lt. rewrite length_app. simpl. lia. Qed.

Lemma dl_deref_mid (l1 l2 : list A) x :
  dl_deref (l1 ++ x :: l2) (Some (length l1)) = Ret x.
Proof. unfold dl_deref. now rewrite nth_error_mid. Qed.

Lemma dl_arrow_mid (l1 l2 : list A) x :
  dl_arrow (l1 ++ x :: l2) (Some (length l1)) = Ret x.
Proof. unfold dl_arrow. now rewrite nth_error_mid. Qed.

Lemma dl_incr_mid (l1 l2 : list A) x :
  dl_incr (l1 ++ x :: l2) (Some (length l1))
  = Ret (node_at (l1 ++ x :: l2) (S (length l1))).
Proof. apply dl_incr_some. rewrite length_app. simpl. lia. Qed.

Lemma dl_erase_mid (l1 l2 : list A) x :
  dl_erase (l1 ++ x :: l2) (Some (length l1))
  = Ret (l1 ++ l2, node_at (l1 ++ l2) (length l1)).
Proof.
  unfold dl_erase.
  replace (length l1 <? length (l1 ++ x :: l2)) with true
    by (symmetry; apply Nat.ltb_lt; rewrite length_app; simpl; lia).
  rewrite firstn_mid, skipn_S_mid. do 2 f_equal.
  unfold node_at. rewrite !length_app. simpl.
  destruct (length l2) as [|n].
  - replace (S (length l1) <? length l1 + 1) with false
      by (symmetry; apply Nat.ltb_ge; lia).
    replace (length l1 <? length l1 + 0) with false
      by (symmetry; apply Nat.ltb_ge; lia). reflexivity.
  - replace (S (length l1) <? length l1 + S (S n)) with true
      by (symmetry; apply Nat.ltb_lt; lia).
    replace (length l1 <? length l1 + S n) with true
      by (symmetry; apply Nat.ltb_lt; lia). reflexivity.
Qed.

Lemma dl_insert_mid (l1 l2 : list A) x v :
  dl_insert (l1 ++ x :: l2) (Some (length l1)) v
  = Ret (l1 ++ v :: x :: l2, Some (length l1)).
Proof.
  unfold dl_insert.
  replace (length l1 <? length (l1 ++ x :: l2)) with true
    by (symmetry; apply Nat.ltb_lt; rewrite length_app; simpl; lia).
  now rewrite firstn_mid, skipn_mid.
Qed.

Lemma list_update_mid (l1 l2 : list A) x y :
  list_update (l1 ++ x :: l2) (length l1) y = l1 ++ y :: l2.
Proof. induction l1 as [|z l1 IH]; simpl; [reflexivity | now rewrite IH]. Qed.

Lemma split_loop_spec fuel (l1 l2 new_items : list A) :
  length l2 <= fuel ->
  split_loop fuel (l1 ++ l2) (node_at (l1 ++ l2) (length l1)) new_items
  = Ret (l1, new_items ++ l2).
Proof.
  revert l2 new_items. induction fuel as [|fuel IH]; intros l2 new_items Hf.
  - destruct l2; [|simpl in Hf; lia]. rewrite !app_nil_r.
    simpl. rewrite node_at_ge by lia. reflexivity.
  - destruct l2 as [|x l2].
    + rewrite !app_nil_r. simpl. rewrite node_at_ge by lia. reflexivity.
    + rewrite node_at_mid. cbn [split_loop node_eqb dl_end].
      rewrite dl_deref_mid, dl_erase_mid. cbn [rbind fst snd].
      rewrite IH by (simpl in Hf; lia).
      unfold insert_tail. now rewrite <- app_assoc.
Qed.

Lemma split_loop_at fuel (l new_items : list A) k :
  k <= length l -> length l <= fuel ->
  split_loop fuel l (node_at l k) new_items = Ret (firstn k l, new_items ++ skipn k l).
Proof.
  intros Hk Hf.
  pose proof (split_loop_spec fuel (firstn k l) (skipn k l) new_items) as H.
  rewrite firstn_skipn, length_firstn, Nat.min_l in H by lia.
  apply H. rewrite length_skipn. lia.
Qed.

End DoubleListFacts.

(** ** Rebalancing *)

Section RebalanceFacts.
Variable T : Type.
Implicit Types (d : deque T) (b : Block T) (bs pre rest cur out : list (Block T)).

Lemma Block_eta b : {| items := items b |} = b.
Proof. now destruct b. Qed.

Lemma with_blocks_id d : with_blocks d (blocks d) = d.
Proof. now destruct d. Qed.

Lemma items_count_app bs bs' :
  items_count (bs ++ bs') = items_count bs + items_count bs'.
Proof. unfold items_count. now rewrite map_app, list_sum_app. Qed.

Lemma items_count_cons b bs :
  items_count (b :: bs) = length (items b) + items_count bs.
Proof. reflexivity. Qed.

Lemma items_count_to_list bs : items_count bs = length (concat (map (@items T) bs)).
Proof.
  induction bs as [|b bs IH]; [reflexivity|].
  rewrite items_count_cons. simpl. rewrite length_app. now rewrite IH.
Qed.

Lemma half_lt (n : nat) : 2 <= n -> 0 < n / 2 < n.
Proof.
  intro H. split.
  - apply Nat.div_str_pos. lia.
  - apply Nat.div_lt; lia.
Qed.

(** [Split] on the block after [pre], when its guard lets it through. *)
Lemma Split_spec d pre b rest :
  blocks d = pre ++ b :: rest ->
  block_size d < length (items b) ->
  Split (Some (length pre)) d
  = (Ret tt,
     with_blocks d (pre ++ {| items := firstn (length (items b) / 2) (items b) |}
                        :: {| items := skipn (length (items b) / 2) (items b) |} :: rest)).
Proof.
  intros Hb Hsz. unfold Split, bind, get, lift. rewrite Hb, dl_arrow_mid.
  unfold dl_size.
  replace (length (items b) <=? block_size d) with false
    by (symmetry; apply Nat.leb_gt; lia).
  set (h := length (items b) / 2).
  assert (Hh : h <= length (items b)) by (apply Nat.Div0.div_le_upper_bound; lia).
  rewrite dl_begin_node_at, std_advance_node_at by lia.
  rewrite Nat2Z.id. simpl (0 + h).
  rewrite split_loop_at by lia.
  cbn [fst snd app]. unfold set_blocks at 1. cbn [blocks total_size block_size].
  rewrite list_update_mid, dl_incr_mid.
  destruct rest as [|r0 rest].
  - rewrite node_at_ge by (rewrite length_app; simpl; lia).
    cbn [node_eqb dl_end negb]. unfold set_blocks, with_blocks, insert_tail.
    cbn [blocks total_size block_size]. now rewrite <- app_assoc.
  - rewrite node_at_lt by (rewrite length_app; simpl; lia).
    cbn [node_eqb dl_end negb].
    replace (S (length pre)) with (length (pre ++ [{| items := firstn h (items b) |}]))
      by (rewrite length_app; simpl; lia).
    replace (pre ++ {| items := firstn h (items b) |} :: r0 :: rest)
      with ((pre ++ [{| items := firstn h (items b) |}]) ++ r0 :: rest)
      by (now rewrite <- app_assoc).
    rewrite dl_insert_mid. cbn [fst]. unfold set_blocks, with_blocks.
    cbn [blocks total_size block_size]. now rewrite <- app_assoc.
Qed.

(** [Merge] on the block after [pre]. *)
Lemma Merge_last d pre b :
  blocks d = pre ++ [b] -> Merge (Some (length pre)) d = (Ret tt, d).
Proof.
  intro Hb. unfold Merge, bind, get, lift. cbn [node_eqb dl_end].
  rewrite Hb, dl_deref_mid, dl_incr_mid.
  rewrite node_at_ge by (rewrite length_app; simpl; lia). reflexivity.
Qed.

Lemma Merge_spec d pre b next rest :
  blocks d = pre ++ b :: next :: rest ->
  Merge (Some (length pre)) d
  = (Ret tt,
     if length (items b) + length (items next) <=? block_size d
     then with_blocks d (pre ++ {| items := items b ++ items next |} :: rest)
     else d).
Proof.
  intro Hb. unfold Merge, bind, get, lift. cbn [node_eqb dl_end].
  rewrite Hb, dl_deref_mid, dl_incr_mid.
  rewrite node_at_lt by (rewrite length_app; simpl; lia).
  cbn [node_eqb dl_end].
  replace (S (length pre)) with (length (pre ++ [b]))
    by (rewrite length_app; simpl; lia).
  replace (pre ++ b :: next :: rest) with ((pre ++ [b]) ++ next :: rest)
    by (now rewrite <- app_assoc).
  rewrite dl_deref_mid. unfold dl_size.
  destruct (length (items b) + length (items next) <=? block_size d); [|reflexivity].
  unfold set_blocks at 1. cbn [blocks total_size block_size].
  replace ((pre ++ [b]) ++ next :: rest) with (pre ++ b :: next :: rest)
    by (now rewrite <- app_assoc).
  rewrite list_update_mid, merge_items_app.
  replace (pre ++ {| items := items b ++ items next |} :: next :: rest)
    with ((pre ++ [{| items := items b ++ items next |}]) ++ next :: rest)
    by (now rewrite <- app_assoc).
  replace (length (pre ++ [b]))
    with (length (pre ++ [{| items := items b ++ items next |}]))
    by (rewrite !length_app; reflexivity).
  rewrite dl_erase_mid. cbn [fst]. unfold set_blocks, with_blocks.
  cbn [blocks total_size block_size]. now rewrite <- app_assoc.
Qed.

Lemma node_at_pre pre cur :
  node_at (pre ++ cur) (length pre) = match cur with [] => None | _ => Some (length pre) end.
Proof.
  destruct cur.
  - apply node_at_ge. rewrite app_nil_r. lia.
  - apply node_at_mid.
Qed.

(** The loop of [Balance] carries out the pass of the specification on the
    blocks from its iterator on, and leaves the blocks before it. *)
Lemma Balance_loop_spec fuel : forall d pre cur,
  0 < block_size d ->
  blocks d = pre ++ cur ->
  items_count cur + length cur <= fuel ->
  exists out,
    Balance_loop fuel (node_at (pre ++ cur) (length pre)) d
    = (Ret tt, with_blocks d (pre ++ out))
    /\ rebalance_pass (block_size d) cur out.
Proof.
  induction fuel as [|fuel IH]; intros d pre cur Hpos Hb Hf.
  - destruct cur; [|simpl in Hf; lia]. exists []. split; [|constructor].
    rewrite node_at_pre. simpl. unfold ret. rewrite <- Hb. now rewrite with_blocks_id.
  - destruct cur as [|b rest].
    + exists []. split; [|constructor].
      rewrite node_at_pre. simpl. unfold ret. rewrite <- Hb. now rewrite with_blocks_id.
    + rewrite node_at_pre. cbn [Balance_loop node_eqb dl_end].
      unfold bind at 1. unfold get at 1. unfold bind at 1. unfold lift at 1.
      rewrite Hb, dl_arrow_mid. unfold dl_size.
      rewrite items_count_cons in Hf. simpl in Hf.
      destruct (block_size d * 2 <? length (items b)) eqn:Esplit.
      * (* split *)
        apply Nat.ltb_lt in Esplit.
        assert (Hlt : block_size d < length (items b)) by lia.
        unfold bind at 1. rewrite (Split_spec d pre b rest Hb Hlt).
        unfold bind at 1. unfold get at 1. unfold bind at 1. unfold lift at 1.
        cbn [with_blocks blocks].
        set (b1 := {| items := firstn (length (items b) / 2) (items b) |}).
        set (b2 := {| items := skipn (length (items b) / 2) (items b) |}).
        rewrite dl_incr_mid.
        destruct (half_lt (length (items b))) as [Hh1 Hh2]; [lia|].
        destruct (IH (with_blocks d (pre ++ b1 :: b2 :: rest)) (pre ++ [b1]) (b2 :: rest))
          as (out & Hrun & Hpass).
        { exact Hpos. }
        { cbn [with_blocks blocks]. now rewrite <- app_assoc. }
        { rewrite items_count_cons. unfold b2. cbn [items length].
          rewrite length_skipn. lia. }
        exists (b1 :: out). split.
        -- replace (node_at (pre ++ b1 :: b2 :: rest) (S (length pre)))
             with (node_at ((pre ++ [b1]) ++ b2 :: rest) (length (pre ++ [b1])))
             by (rewrite <- app_assoc, length_app; simpl; f_equal; lia).
           fold (with_blocks d (pre ++ b1 :: b2 :: rest)).
           rewrite Hrun. unfold with_blocks. cbn [blocks total_size block_size].
           now rewrite <- app_assoc.
        -- apply pass_split; [lia|]. exact Hpass.
      * apply Nat.ltb_ge in Esplit.
        destruct (length (items b) * 2 <? block_size d) eqn:Emerge.
        -- (* merge attempted *)
           apply Nat.ltb_lt in Emerge.
           destruct rest as [|next rest].
           ++ unfold bind at 1. rewrite (Merge_last d pre b Hb).
              unfold bind at 1. unfold get at 1. unfold bind at 1. unfold lift at 1.
              rewrite Hb, dl_incr_mid.
              rewrite node_at_ge by (rewrite length_app; simpl; lia).
              exists [b]. split.
              ** destruct fuel; simpl; unfold ret; rewrite <- Hb; now rewrite with_blocks_id.
              ** apply pass_skip_merge; [lia | lia | exact I | constructor].
           ++ unfold bind at 1. rewrite (Merge_spec d pre b next rest Hb).
              destruct (length (items b) + length (items next) <=? block_size d) eqn:Efit.
              ** apply Nat.leb_le in Efit.
                 unfold bind at 1. unfold get at 1. unfold bind at 1. unfold lift at 1.
                 cbn [with_blocks blocks].
                 set (bm := {| items := items b ++ items next |}).
                 rewrite dl_incr_mid.
                 destruct (IH (with_blocks d (pre ++ bm :: rest)) (pre ++ [bm]) rest)
                   as (out & Hrun & Hpass).
                 { exact Hpos. }
                 { cbn [with_blocks blocks]. now rewrite <- app_assoc. }
                 { rewrite items_count_cons in Hf. simpl in Hf. lia. }
                 exists (bm :: out). split.
                 --- replace (node_at (pre ++ bm :: rest) (S (length pre)))
                       with (node_at ((pre ++ [bm]) ++ rest) (length (pre ++ [bm])))
                       by (rewrite <- app_assoc, length_app; simpl; f_equal; lia).
                     fold (with_blocks d (pre ++ bm :: rest)).
                     rewrite Hrun. unfold with_blocks. cbn [blocks total_size block_size].
                     now rewrite <- app_assoc.
                 --- apply pass_merge; [lia | lia | lia | exact Hpass].
              ** apply Nat.leb_gt in Efit.
                 unfold bind at 1. unfold get at 1. unfold bind at 1. unfold lift at 1.
                 rewrite Hb, dl_incr_mid.
                 destruct (IH d (pre ++ [b]) (next :: rest)) as (out & Hrun & Hpass).
                 { exact Hpos. }
                 { now rewrite <- app_assoc. }
                 { rewrite items_count_cons in Hf |- *. simpl in Hf |- *. lia. }
                 exists (b :: out). split.
                 --- replace (node_at (pre ++ b :: next :: rest) (S (length pre)))
                       with (node_at ((pre ++ [b]) ++ next :: rest) (length (pre ++ [b])))
                       by (rewrite <- app_assoc, length_app; simpl; f_equal; lia).
                     rewrite Hrun. now rewrite <- app_assoc.
                 --- apply pass_skip_merge; [lia | lia | lia | exact Hpass].
        -- (* the block stays *)
           apply Nat.ltb_ge in Emerge.
           unfold bind at 1. unfold ret at 1.
           unfold bind at 1. unfold get at 1. unfold bind at 1. unfold lift at 1.
           rewrite Hb, dl_incr_mid.
           destruct (IH d (pre ++ [b]) rest) as (out & Hrun & Hpass).
           { exact Hpos. }
           { now rewrite <- app_assoc. }
           { lia. }
           exists (b :: out). split.
           ++ replace (node_at (pre ++ b :: rest) (S (length pre)))
                with (node_at ((pre ++ [b]) ++ rest) (length (pre ++ [b])))
                by (rewrite <- app_assoc, length_app; simpl; f_equal; lia).
              rewrite Hrun. now rewrite <- app_assoc.
           ++ apply pass_keep; [lia | lia | exact Hpass].
Qed.

(** What a pass keeps: the order of the elements, and the absence of
    empty blocks. *)
Lemma rebalance_pass_concat bsz cur out :
  rebalance_pass bsz cur out ->
  concat (map (@items T) out) = concat (map (@items T) cur).
Proof.
  induction 1; simpl in *; try congruence.
  - rewrite IHrebalance_pass, app_assoc, firstn_skipn. reflexivity.
  - rewrite IHrebalance_pass, app_assoc. reflexivity.
Qed.

Lemma rebalance_pass_nonempty bsz cur out :
  0 < bsz -> rebalance_pass bsz cur out -> nonempty_blocks cur -> nonempty_blocks out.
Proof.
  unfold nonempty_blocks. intro Hpos.
  induction 1 as [ | b rest out Hsz Hp IH | b next rest out H1 H2 H3 Hp IH
                 | b rest out H1 H2 H3 Hp IH | b rest out H1 H2 Hp IH ]; intro Hne.
  - constructor.
  - inversion Hne as [|? ? Hb Hrest]; subst.
    destruct (half_lt (length (items b))) as [Hh1 Hh2]; [lia|].
    constructor.
    + cbn [items]. intro E. apply (f_equal (@length T)) in E.
      rewrite length_firstn in E. cbn [length] in E. lia.
    + apply IH. constructor; [|assumption].
      cbn [items]. intro E. apply (f_equal (@length T)) in E.
      rewrite length_skipn in E. cbn [length] in E. lia.
  - inversion Hne as [|? ? Hb Hrest]; subst.
    inversion Hrest; subst. constructor; auto.
    cbn [items]. intro E. apply app_eq_nil in E. tauto.
  - inversion Hne; subst. constructor; auto.
  - inversion Hne; subst. constructor; auto.
Qed.

(** The pass is a function of the blocks it starts from. *)
Lemma rebalance_pass_functional bsz cur out :
  rebalance_pass bsz cur out -> forall out', rebalance_pass bsz cur out' -> out' = out.
Proof.
  induction 1; intros out' H'; inversion H'; subst; try lia;
    try reflexivity; try (f_equal; auto; fail).
  all: try (match goal with H : match ?r with _ => _ end |- _ => simpl in H; lia end).
Qed.

End RebalanceFacts.

(** ** The invariant of the container *)

Section BalanceFacts.
Variable T : Type.
Implicit Types (d : deque T) (b : Block T) (bs pre rest cur out : list (Block T)).

Lemma Balance_run d :
  exists out,
    Balance d = (Ret tt, {| blocks := out; total_size := total_size d;
                            block_size := balanced_block_size d |})
    /\ (if rescans d
        then rebalance_pass (Nat.sqrt (total_size d) + 1) (blocks d) out
        else out = blocks d).
Proof.
  unfold Balance, balanced_block_size, rescans, bind, get.
  destruct (dl_empty (blocks d)) eqn:Eemp.
  - exists (blocks d). split; [|reflexivity]. unfold ret. now destruct d.
  - cbn [negb andb]. destruct (Nat.sqrt (total_size d) + 1 =? block_size d) eqn:Esz.
    + apply Nat.eqb_eq in Esz. exists (blocks d). split; [|reflexivity].
      cbn [negb]. unfold ret. rewrite Esz. now destruct d.
    + cbn [negb]. unfold set_block_size at 1.
      set (d1 := {| blocks := blocks d; total_size := total_size d;
                    block_size := Nat.sqrt (total_size d) + 1 |}).
      destruct (Balance_loop_spec T (items_count (blocks d) + dl_size (blocks d))
                  d1 [] (blocks d)) as (out & Hrun & Hpass).
      * cbn [d1 block_size]. lia.
      * reflexivity.
      * unfold dl_size. lia.
      * exists out. split; [|exact Hpass].
        rewrite dl_begin_node_at. cbn [app length] in Hrun. rewrite Hrun. reflexivity.
Qed.

Lemma Balance_keeps d :
  exists d',
    Balance d = (Ret tt, d')
    /\ concat (map (@items T) (blocks d')) = concat (map (@items T) (blocks d))
    /\ total_size d' = total_size d
    /\ (nonempty_blocks (blocks d) -> nonempty_blocks (blocks d'))
    /\ (blocks d = [] -> d' = d).
Proof.
  destruct (Balance_run d) as (out & Hrun & Hout).
  eexists. split; [exact Hrun|]. cbn [blocks total_size].
  unfold rescans in Hout.
  destruct (dl_empty (blocks d)) eqn:Eemp; cbn [negb andb] in Hout.
  - subst out. repeat split; auto. intros _.
    unfold balanced_block_size. rewrite Eemp. now destruct d.
  - destruct (Nat.sqrt (total_size d) + 1 =? block_size d); cbn [negb] in Hout.
    + subst out. repeat split; auto. intro E. rewrite E in Eemp. discriminate.
    + repeat split.
      * eapply rebalance_pass_concat; eauto.
      * intro Hn. apply (rebalance_pass_nonempty T (Nat.sqrt (total_size d) + 1) (blocks d) out);
          [lia | exact Hout | exact Hn].
      * intro E. rewrite E in Eemp. discriminate.
Qed.

Lemma Balance_wf d :
  wf d ->
  exists d',
    Balance d = (Ret tt, d') /\ wf d'
    /\ concat (map (@items T) (blocks d')) = concat (map (@items T) (blocks d))
    /\ total_size d' = total_size d.
Proof.
  intros [Htot Hne]. destruct (Balance_keeps d) as (d' & Hrun & Hcat & Ht & Hn & _).
  exists d'. repeat split; auto.
  rewrite Ht, Htot, !items_count_to_list. now rewrite Hcat.
Qed.

End BalanceFacts.

(** ** Iterators and logical positions *)

Lemma to_int_small (z : Z) : (0 <= z <= INT_MAX)%Z -> to_int z = z.
Proof.
  unfold to_int, INT_MAX. intro H.
  rewrite Z.mod_small by lia. lia.
Qed.

Section PositionFacts.
Variable T : Type.
Implicit Types (d : deque T) (b : nat) (blk : Block T) (bs : list (Block T)) (it : iterator).

Lemma nth_error_lt (A : Type) (l : list A) i x : nth_error l i = Some x -> i < length l.
Proof. intro H. apply nth_error_Some. congruence. Qed.

Lemma offset_0 bs : offset bs 0 = 0.
Proof. reflexivity. Qed.

Lemma offset_S bs b blk :
  nth_error bs b = Some blk -> offset bs (S b) = offset bs b + length (items blk).
Proof.
  intro H. destruct (nth_error_split _ _ H) as (l1 & l2 & -> & <-).
  unfold offset.
  replace (S (length l1)) with (length (l1 ++ [blk])) by (rewrite length_app; simpl; lia).
  replace (l1 ++ blk :: l2) with ((l1 ++ [blk]) ++ l2) at 1 by (now rewrite <- app_assoc).
  rewrite !firstn_mid. rewrite items_count_app. unfold items_count at 2. simpl.
  unfold dl_size. lia.
Qed.

Lemma offset_all bs b : length bs <= b -> offset bs b = items_count bs.
Proof. intro H. unfold offset. now rewrite firstn_all2. Qed.

Lemma offset_mono bs b b' : b <= b' -> offset bs b <= offset bs b'.
Proof.
  intro H. unfold offset.
  replace b' with (b + (b' - b)) by lia.
  rewrite <- (firstn_skipn b bs) at 2.
  destruct (Nat.le_gt_cases (length bs) b) as [Hge|Hlt].
  - rewrite firstn_all2 with (n := b + (b' - b)) by (rewrite firstn_skipn; lia).
    rewrite firstn_skipn. now rewrite firstn_all2.
  - rewrite firstn_app. rewrite length_firstn, Nat.min_l by lia.
    rewrite firstn_all2 with (n := b + (b' - b)) by (rewrite length_firstn; lia).
    rewrite items_count_app. lia.
Qed.

Lemma offset_block_le bs b blk :
  nth_error bs b = Some blk -> offset bs b + length (items blk) <= items_count bs.
Proof.
  intro H. rewrite <- (offset_S _ _ _ H).
  rewrite <- (offset_all bs (length bs) (Nat.le_refl _)). apply offset_mono.
  apply (nth_error_lt _ _ _ _ H).
Qed.

Lemma offset_last bs b blk :
  nth_error bs b = Some blk -> S b = length bs ->
  offset bs b + length (items blk) = items_count bs.
Proof.
  intros H Hl. rewrite <- (offset_S _ _ _ H). apply offset_all. lia.
Qed.

Lemma nonempty_nth bs b blk :
  nonempty_blocks bs -> nth_error bs b = Some blk -> 0 < length (items blk).
Proof.
  intros Hne H. apply nth_error_In in H.
  unfold nonempty_blocks in Hne. rewrite Forall_forall in Hne.
  specialize (Hne _ H). destruct (items blk); [contradiction | simpl; lia].
Qed.

Lemma offset_lt bs b b' blk :
  nonempty_blocks bs -> nth_error bs b = Some blk -> b < b' ->
  offset bs b + length (items blk) <= offset bs b'.
Proof.
  intros Hne H Hlt. rewrite <- (offset_S _ _ _ H). now apply offset_mono.
Qed.

(** Tests on block positions. *)
Lemma tail_test bs b :
  b < length bs -> node_eqb (Some b) (dl_get_tail bs) = (S b =? length bs).
Proof.
  intro H. destruct bs as [|x bs]; [simpl in H; lia|].
  cbn [dl_get_tail node_eqb length].
  destruct (Nat.eqb_spec b (S (length bs) - 1)), (Nat.eqb_spec (S b) (S (length bs)));
    try reflexivity; lia.
Qed.

Lemma begin_test bs b :
  b < length bs -> node_eqb (Some b) (dl_begin bs) = (b =? 0).
Proof.
  intro H. destruct bs as [|x bs]; [simpl in H; lia|]. reflexivity.
Qed.

Lemma dl_arrow_nth (A : Type) (l : list A) i x :
  nth_error l i = Some x -> dl_arrow l (Some i) = Ret x.
Proof. intro H. unfold dl_arrow. now rewrite H. Qed.

Lemma nth_error_ex (A : Type) (l : list A) i : i < length l -> exists x, nth_error l i = Some x.
Proof.
  intro H. destruct (nth_error l i) eqn:E; [eauto|].
  apply nth_error_None in E. lia.
Qed.

(** [points] against the computable [valid_iterator] and [index_of]. *)
Lemma points_valid d it k :
  points d it k -> valid_iterator d it = true /\ index_of d it = k.
Proof.
  intros [Hb | b blk i Hn Hi Hc].
  - unfold valid_iterator, index_of. simpl. rewrite Hb. auto.
  - unfold valid_iterator, index_of. cbn [block_it item_it]. rewrite Hn.
    unfold node_at. destruct (i <? length (items blk)) eqn:E.
    + auto.
    + apply Nat.ltb_ge in E. destruct Hc as [Hc|Hc]; [lia|].
      split; [now apply Nat.eqb_eq | lia].
Qed.

Lemma valid_points d it :
  valid_iterator d it = true -> points d it (index_of d it).
Proof.
  unfold valid_iterator, index_of. destruct it as [[i|] [b|]]; cbn [block_it item_it].
  - destruct (nth_error (blocks d) b) as [blk|] eqn:Hn; [|discriminate].
    intro H. apply Nat.ltb_lt in H.
    rewrite <- (node_at_lt _ _ _ H). apply points_pos; auto; lia.
  - discriminate.
  - destruct (nth_error (blocks d) b) as [blk|] eqn:Hn; [|discriminate].
    intro H. apply Nat.eqb_eq in H.
    rewrite <- (node_at_ge _ (items blk) (length (items blk))) by lia.
    apply points_pos; auto.
  - intro H. apply points_null. destruct (blocks d); [reflexivity|discriminate].
Qed.

Lemma points_le d it k : points d it k -> k <= items_count (blocks d).
Proof.
  intros [Hb | b blk i Hn Hi Hc]; [lia|].
  pose proof (offset_block_le _ _ _ Hn). lia.
Qed.

(** With no empty block, the iterator at a position is unique. *)
Lemma points_inj d it it' k :
  nonempty_blocks (blocks d) -> points d it k -> points d it' k -> it = it'.
Proof.
  intros Hne H H'.
  destruct H as [Hb | b blk i Hn Hi Hc].
  - inversion H' as [|b' blk' i' Hn' Hi' Hc' E1 E2]; [reflexivity|].
    rewrite Hb in Hn'. destruct b'; discriminate.
  - remember (offset (blocks d) b + i) as k eqn:Ek.
    destruct H' as [Hb' | b' blk' i' Hn' Hi' Hc'].
    + rewrite Hb' in Hn. destruct b; discriminate.
    + assert (Hb : b = b').
      { destruct (Nat.lt_trichotomy b b') as [Hlt|[Heq|Hgt]]; [|exact Heq|].
        - pose proof (offset_lt _ _ _ _ Hne Hn Hlt).
          pose proof (nth_error_lt _ _ _ _ Hn'). destruct Hc as [Hc|Hc]; lia.
        - pose proof (offset_lt _ _ _ _ Hne Hn' Hgt).
          pose proof (nth_error_lt _ _ _ _ Hn). destruct Hc' as [Hc'|Hc']; lia. }
      subst b'. rewrite Hn in Hn'. injection Hn' as <-.
      assert (i = i') by lia. now subst.
Qed.

Lemma points_fun d it k k' : points d it k -> points d it k' -> k = k'.
Proof.
  intros H H'. apply points_valid in H, H'. destruct H, H'. congruence.
Qed.

Lemma points_begin d : nonempty_blocks (blocks d) -> points d (deque_begin d) 0.
Proof.
  intro Hne. unfold deque_begin. destruct (blocks d) as [|blk bs] eqn:Hb.
  - now apply points_null.
  - assert (Hn : nth_error (blocks d) 0 = Some blk) by now rewrite Hb.
    assert (Hpos : 0 < length (items blk))
      by (inversion Hne; subst; destruct (items blk); [contradiction | simpl; lia]).
    rewrite dl_begin_node_at. cbn [dl_begin].
    replace 0 with (offset (blocks d) 0 + 0) at 3 by reflexivity.
    apply points_pos; auto; lia.
Qed.

Lemma points_end d : points d (deque_end d) (items_count (blocks d)).
Proof.
  unfold deque_end. destruct (blocks d) as [|blk0 bs] eqn:Hb.
  - now apply points_null.
  - rewrite <- Hb.
    assert (Hlen : 0 < length (blocks d)) by (rewrite Hb; simpl; lia).
    destruct (nth_error_ex _ (blocks d) (length (blocks d) - 1)) as [blk Hn]; [lia|].
    rewrite dl_get_tail_nonempty by (rewrite Hb; discriminate).
    rewrite <- (offset_last _ _ _ Hn) by lia.
    unfold dl_end. rewrite <- (node_at_ge _ (items blk) (length (items blk))) by lia.
    apply points_pos; auto. right. lia.
Qed.

End PositionFacts.

(** ** Iterator arithmetic *)

Section IteratorFacts.
Variable T : Type.
Implicit Types (d : deque T) (b : nat) (blk : Block T) (bs : list (Block T)) (it : iterator).

Lemma plus_loop_0 fuel d temp : plus_loop fuel d temp 0%Z = Ret (temp, 0%Z).
Proof. destruct fuel; reflexivity. Qed.

Lemma plus_loop_spec d (Hne : nonempty_blocks (blocks d)) fuel : forall b blk r,
  nth_error (blocks d) b = Some blk ->
  length (blocks d) - b <= fuel ->
  (offset (blocks d) b + r <= items_count (blocks d) ->
   exists it',
     (x <~ plus_loop fuel d {| item_it := dl_begin (items blk); block_it := Some b |}
             (Z.of_nat r) ;; plus_finish d x) = Ret it'
     /\ points d it' (offset (blocks d) b + r))
  /\ (items_count (blocks d) < offset (blocks d) b + r ->
      (x <~ plus_loop fuel d {| item_it := dl_begin (items blk); block_it := Some b |}
              (Z.of_nat r) ;; plus_finish d x) = Throw (out_of_range ""%string)).
Proof.
  induction fuel as [|fuel IH]; intros b blk r Hn Hf.
  { pose proof (nth_error_lt _ _ _ _ Hn). lia. }
  pose proof (nth_error_lt _ _ _ _ Hn) as Hlt.
  pose proof (nonempty_nth _ _ _ _ Hne Hn) as Hpos.
  pose proof (offset_block_le _ _ _ _ Hn) as Hle.
  destruct r as [|r'].
  { (* nothing remains: the loop is not entered *)
    split; [intros _ | lia].
    change (Z.of_nat 0) with 0%Z. rewrite plus_loop_0. cbn [rbind].
    unfold plus_finish. cbn [fst snd block_it item_it].
    rewrite (dl_arrow_nth _ _ _ _ Hn). cbn [rbind].
    rewrite dl_begin_node_at.
    rewrite std_advance_node_at by (simpl; lia). cbn [rbind].
    eexists. split; [reflexivity|]. simpl (0 + Z.to_nat 0).
    apply points_pos; auto; lia. }
  set (r := S r') in *.
  cbn [plus_loop].
  replace (0 <? Z.of_nat r)%Z with true by (symmetry; apply Z.ltb_lt; lia).
  cbn [block_it item_it]. rewrite (dl_arrow_nth _ _ _ _ Hn). cbn [rbind].
  unfold dl_size.
  destruct (Z.ltb_spec (Z.of_nat r) (Z.of_nat (length (items blk)))) as [Hin|Hout].
  { (* the target lies in this block *)
    split; [intros _ | lia].
    cbn [rbind]. unfold plus_finish. cbn [fst snd block_it item_it].
    rewrite (dl_arrow_nth _ _ _ _ Hn). cbn [rbind].
    rewrite dl_begin_node_at.
    rewrite std_advance_node_at by (rewrite ?Nat2Z.id; lia). cbn [rbind].
    rewrite Nat2Z.id. simpl (0 + r).
    eexists. split; [reflexivity|]. apply points_pos; auto; lia. }
  rewrite (tail_test _ (blocks d) b Hlt).
  destruct (Nat.eqb_spec (S b) (length (blocks d))) as [Htail|Hmid]; cbn [negb].
  - (* the tail block *)
    pose proof (offset_last _ _ _ _ Hn Htail) as Hall.
    destruct (Z.eqb_spec (Z.of_nat r - Z.of_nat (length (items blk))) 0) as [Hz|Hnz];
      cbn [negb].
    + split; [intros _ | lia].
      rewrite Hz, plus_loop_0. cbn [rbind].
      unfold plus_finish. cbn [fst snd block_it item_it].
      rewrite (dl_arrow_nth _ _ _ _ Hn). cbn [rbind].
      unfold dl_end. rewrite <- (node_at_ge _ (items blk) (length (items blk))) by lia.
      rewrite std_advance_node_at by (simpl; lia). cbn [rbind].
      eexists. split; [reflexivity|].
      replace (offset (blocks d) b + r)
        with (offset (blocks d) b + (length (items blk) + Z.to_nat 0)) by (simpl; lia).
      apply points_pos; auto. simpl. lia.
    + split; [lia | intros _; reflexivity].
  - (* on to the next block *)
    rewrite dl_incr_some by lia.
    rewrite node_at_lt by lia. cbn [rbind].
    destruct (nth_error_ex _ (blocks d) (S b)) as [blk' Hn']; [lia|].
    rewrite (dl_arrow_nth _ _ _ _ Hn'). cbn [rbind].
    replace (Z.of_nat r - Z.of_nat (length (items blk)))%Z
      with (Z.of_nat (r - length (items blk))) by lia.
    destruct (IH (S b) blk' (r - length (items blk)) Hn' ltac:(lia)) as [IH1 IH2].
    rewrite (offset_S _ _ _ _ Hn) in IH1, IH2.
    split; intro Hr.
    + destruct IH1 as (it' & Hrun & Hp); [lia|].
      exists it'. split; [exact Hrun|].
      replace (offset (blocks d) b + r)
        with (offset (blocks d) b + length (items blk) + (r - length (items blk))) by lia.
      exact Hp.
    + apply IH2. lia.
Qed.

Lemma std_distance_to_end (A : Type) (l : list A) i :
  i <= length l -> std_distance l (node_at l i) dl_end = Ret (Z.of_nat (length l - i)).
Proof.
  intro H. unfold dl_end. rewrite <- (node_at_ge _ l (length l)) by lia.
  now apply std_distance_node_at.
Qed.

Lemma iter_plus_nonneg_unfold d it n :
  iter_plus_nonneg d it n =
  if (n =? 0)%Z then Ret it
  else if node_eqb (block_it it) None then Throw (out_of_range ""%string)
  else
    blk <~ dl_arrow (blocks d) (block_it it) ;;
    dist <~ std_distance (items blk) (item_it it) dl_end ;;
    if (n <? to_int dist)%Z then
      i' <~ std_advance (items blk) (item_it it) n ;;
      Ret {| item_it := i'; block_it := block_it it |}
    else
      if ((n - to_int dist) =? 0)%Z && node_eqb (block_it it) (dl_get_tail (blocks d))
      then Ret (deque_end d)
      else
        b' <~ dl_incr (blocks d) (block_it it) ;;
        if node_eqb b' dl_end then Throw (out_of_range ""%string)
        else
          blk' <~ dl_arrow (blocks d) b' ;;
          x <~ plus_loop (S (dl_size (blocks d))) d
                 {| item_it := dl_begin (items blk'); block_it := b' |} (n - to_int dist) ;;
          plus_finish d x.
Proof. reflexivity. Qed.

(** [it + n] for [n >= 0]: the iterator [n] positions on, or the
    exception when that is beyond the end. *)
Lemma iter_plus_spec d it k n :
  wf d -> fits_int d -> points d it k -> (Z.of_nat n <= INT_MAX)%Z ->
  (k + n <= total_size d ->
   exists it', iter_plus d it (Z.of_nat n) = Ret it' /\ points d it' (k + n))
  /\ (total_size d < k + n ->
      iter_plus d it (Z.of_nat n) = Throw (out_of_range ""%string)).
Proof.
  intros [Htot Hne] Hfit Hp Hn. unfold fits_int in Hfit.
  unfold iter_plus. replace (Z.of_nat n <? 0)%Z with false by (symmetry; apply Z.ltb_ge; lia).
  rewrite iter_plus_nonneg_unfold.
  destruct (Z.eqb_spec (Z.of_nat n) 0) as [Hz|Hnz].
  { assert (n = 0) by lia. subst n. rewrite Nat.add_0_r.
    pose proof (points_le _ _ _ _ Hp).
    split; [intros _; eauto | lia]. }
  destruct Hp as [Hb | b blk i Hnth Hi Hc].
  { (* the null iterator of the empty container *)
    rewrite Htot, Hb. unfold null_iterator. cbn [block_it node_eqb].
    change (items_count (@nil (Block T))) with 0.
    split; [intro; lia | intros _; reflexivity]. }
  cbn [block_it item_it]. change (node_eqb (Some b) None) with false. cbv iota.
  pose proof (nth_error_lt _ _ _ _ Hnth) as Hlt.
  pose proof (offset_block_le _ _ _ _ Hnth) as Hle.
  rewrite (dl_arrow_nth _ _ _ _ Hnth). cbn [rbind].
  rewrite std_distance_to_end by exact Hi. cbn [rbind].
  rewrite to_int_small by (unfold INT_MAX in *; lia).
  destruct (Z.ltb_spec (Z.of_nat n) (Z.of_nat (length (items blk) - i))) as [Hin|Hout].
  { (* inside the block *)
    split; [intros _ | lia].
    rewrite std_advance_node_at by (rewrite ?Nat2Z.id; lia). cbn [rbind].
    rewrite Nat2Z.id. eexists. split; [reflexivity|].
    rewrite <- Nat.add_assoc. apply points_pos; auto; lia. }
  rewrite (tail_test _ (blocks d) b Hlt).
  replace (Z.of_nat n - Z.of_nat (length (items blk) - i))%Z
    with (Z.of_nat (n - (length (items blk) - i))) by lia.
  destruct (Nat.eqb_spec (S b) (length (blocks d))) as [Htail|Hmid].
  - (* the tail block *)
    pose proof (offset_last _ _ _ _ Hnth Htail) as Hall.
    destruct (Z.eqb_spec (Z.of_nat (n - (length (items blk) - i))) 0) as [Hz|Hnz'];
      cbn [andb].
    + split; [intros _ | lia].
      eexists. split; [reflexivity|].
      replace (offset (blocks d) b + i + n) with (items_count (blocks d)) by lia.
      apply points_end.
    + rewrite dl_incr_some by lia. rewrite node_at_ge by lia. cbn [rbind node_eqb dl_end].
      split; [intro; lia | intros _; reflexivity].
  - rewrite andb_false_r.
    rewrite dl_incr_some by lia. rewrite node_at_lt by lia. cbn [rbind node_eqb dl_end].
    destruct (nth_error_ex _ (blocks d) (S b)) as [blk' Hn']; [lia|].
    rewrite (dl_arrow_nth _ _ _ _ Hn'). cbn [rbind].
    destruct (plus_loop_spec d Hne (S (dl_size (blocks d))) (S b) blk'
                (n - (length (items blk) - i)) Hn' ltac:(unfold dl_size; lia)) as [L1 L2].
    rewrite (offset_S _ _ _ _ Hnth) in L1, L2.
    split; intro Hr.
    + destruct L1 as (it' & Hrun & Hp'); [lia|].
      exists it'. split; [exact Hrun|].
      replace (offset (blocks d) b + i + n)
        with (offset (blocks d) b + length (items blk) + (n - (length (items blk) - i)))
        by lia.
      exact Hp'.
    + apply L2. lia.
Qed.

(** [++it] below the end: the iterator one position on. *)
Lemma iter_incr_spec d it k :
  wf d -> points d it k -> k < total_size d ->
  exists it', iter_incr d it = Ret it' /\ points d it' (S k).
Proof.
  intros [Htot Hne] Hp Hk.
  destruct Hp as [Hb | b blk i Hnth Hi Hc].
  { rewrite Htot, Hb in Hk. change (items_count (@nil (Block T))) with 0 in Hk. lia. }
  pose proof (nth_error_lt _ _ _ _ Hnth) as Hlt.
  pose proof (offset_block_le _ _ _ _ Hnth) as Hle.
  assert (Hi' : i < length (items blk)).
  { destruct Hc as [Hc|Hc]; [exact Hc|].
    pose proof (offset_last _ _ _ _ Hnth Hc). lia. }
  unfold iter_incr. cbn [block_it item_it].
  rewrite node_at_lt by exact Hi'.
  change (node_eqb (Some b) dl_end) with false.
  change (node_eqb (Some i) dl_end) with false.
  rewrite andb_false_r. cbv iota.
  rewrite (dl_arrow_nth _ _ _ _ Hnth). cbn [rbind].
  rewrite dl_incr_some by exact Hi'. cbn [rbind].
  rewrite (tail_test _ (blocks d) b Hlt).
  destruct (Nat.eq_dec (S i) (length (items blk))) as [Hlast|Hin].
  - rewrite node_at_ge by lia. change (node_eqb None dl_end) with true.
    destruct (Nat.eqb_spec (S b) (length (blocks d))) as [Htail|Hmid]; cbn [negb andb].
    + eexists. split; [reflexivity|].
      rewrite <- (node_at_ge _ (items blk) (S i)) by lia.
      replace (S (offset (blocks d) b + i)) with (offset (blocks d) b + S i) by lia.
      apply points_pos; auto; lia.
    + rewrite dl_incr_some by lia. rewrite node_at_lt by lia. cbn [rbind].
      destruct (nth_error_ex _ (blocks d) (S b)) as [blk' Hn']; [lia|].
      rewrite (dl_arrow_nth _ _ _ _ Hn'). cbn [rbind].
      eexists. split; [reflexivity|].
      pose proof (nonempty_nth _ _ _ _ Hne Hn') as Hpos.
      rewrite dl_begin_node_at.
      replace (S (offset (blocks d) b + i)) with (offset (blocks d) (S b) + 0)
        by (rewrite (offset_S _ _ _ _ Hnth); lia).
      apply points_pos; auto; lia.
  - rewrite node_at_lt by lia. change (node_eqb (Some (S i)) dl_end) with false.
    cbn [andb].
    eexists. split; [reflexivity|].
    rewrite <- (node_at_lt _ (items blk) (S i)) by lia.
    replace (S (offset (blocks d) b + i)) with (offset (blocks d) b + S i) by lia.
    apply points_pos; auto; lia.
Qed.

Lemma incr_times_spec d n : forall it k,
  wf d -> points d it k -> k + n <= total_size d ->
  exists it', incr_times n d it = Ret it' /\ points d it' (k + n).
Proof.
  induction n as [|n IH]; intros it k Hwf Hp Hk.
  - exists it. rewrite Nat.add_0_r. auto.
  - destruct (iter_incr_spec d it k Hwf Hp ltac:(lia)) as (it1 & Hrun & Hp1).
    destruct (IH it1 (S k) Hwf Hp1 ltac:(lia)) as (it' & Hrun' & Hp').
    exists it'. cbn [incr_times]. rewrite Hrun. cbn [rbind].
    split; [exact Hrun'|]. now replace (k + S n) with (S k + n) by lia.
Qed.

Lemma minus_loop_0 fuel d temp : minus_loop fuel d temp 0%Z = Ret (temp, 0%Z).
Proof. destruct fuel; reflexivity. Qed.

Lemma retreat_some (A : Type) (l : list A) i r :
  r <= i -> i < length l -> retreat l (Some i) (Z.of_nat r) = Ret (Some (i - r)).
Proof.
  intros Hr Hi. unfold retreat.
  replace (Z.of_nat r <? 0)%Z with false by (symmetry; apply Z.ltb_ge; lia).
  rewrite Nat2Z.id. now apply decr_loop_some.
Qed.

Lemma dl_decr_some (A : Type) (l : list A) i :
  S i < length l -> dl_decr l (Some (S i)) = Ret (Some i).
Proof.
  intro H. unfold dl_decr. now replace (S i <? length l) with true
    by (symmetry; apply Nat.ltb_lt; lia).
Qed.

Lemma minus_loop_spec d (Hne : nonempty_blocks (blocks d)) fuel : forall b blk r,
  nth_error (blocks d) b = Some blk ->
  b < fuel ->
  r <= offset (blocks d) b + length (items blk) - 1 ->
  exists it',
    (x <~ minus_loop fuel d {| item_it := dl_get_tail (items blk); block_it := Some b |}
            (Z.of_nat r) ;; minus_finish d x) = Ret it'
    /\ points d it' (offset (blocks d) b + length (items blk) - 1 - r).
Proof.
  induction fuel as [|fuel IH]; intros b blk r Hn Hf Hr; [lia|].
  pose proof (nth_error_lt _ _ _ _ Hn) as Hlt.
  pose proof (nonempty_nth _ _ _ _ Hne Hn) as Hpos.
  assert (Htl : dl_get_tail (items blk) = Some (length (items blk) - 1))
    by (apply dl_get_tail_nonempty; destruct (items blk); [simpl in Hpos; lia | discriminate]).
  rewrite Htl.
  destruct r as [|r'].
  { change (Z.of_nat 0) with 0%Z. rewrite minus_loop_0. cbn [rbind].
    unfold minus_finish. cbn [fst snd block_it item_it].
    rewrite (dl_arrow_nth _ _ _ _ Hn). cbn [rbind].
    change 0%Z with (Z.of_nat 0). rewrite retreat_some by lia. cbn [rbind].
    eexists. split; [reflexivity|].
    rewrite Nat.sub_0_r. rewrite Nat.sub_0_r.
    rewrite <- (node_at_lt _ (items blk) (length (items blk) - 1)) by lia.
    replace (offset (blocks d) b + length (items blk) - 1)
      with (offset (blocks d) b + (length (items blk) - 1)) by lia.
    apply points_pos; auto; lia. }
  set (r := S r') in *.
  cbn [minus_loop].
  replace (0 <? Z.of_nat r)%Z with true by (symmetry; apply Z.ltb_lt; lia).
  cbn [block_it item_it]. rewrite (dl_arrow_nth _ _ _ _ Hn). cbn [rbind].
  unfold dl_size.
  destruct (Z.ltb_spec (Z.of_nat r) (Z.of_nat (length (items blk)))) as [Hin|Hout].
  { cbn [rbind]. unfold minus_finish. cbn [fst snd block_it item_it].
    rewrite (dl_arrow_nth _ _ _ _ Hn). cbn [rbind].
    rewrite retreat_some by lia. cbn [rbind].
    eexists. split; [reflexivity|].
    rewrite <- (node_at_lt _ (items blk) (length (items blk) - 1 - r)) by lia.
    replace (offset (blocks d) b + length (items blk) - 1 - r)
      with (offset (blocks d) b + (length (items blk) - 1 - r)) by lia.
    apply points_pos; auto; lia. }
  rewrite (begin_test _ (blocks d) b Hlt).
  destruct b as [|b0].
  { rewrite offset_0 in Hr. lia. }
  cbn [Nat.eqb].
  rewrite dl_decr_some by lia. cbn [rbind].
  destruct (nth_error_ex _ (blocks d) b0) as [blk' Hn']; [lia|].
  rewrite (dl_arrow_nth _ _ _ _ Hn'). cbn [rbind].
  replace (Z.of_nat r - Z.of_nat (length (items blk)))%Z
    with (Z.of_nat (r - length (items blk))) by lia.
  pose proof (offset_S _ _ _ _ Hn') as HS.
  pose proof (nonempty_nth _ _ _ _ Hne Hn') as Hpos'.
  destruct (IH b0 blk' (r - length (items blk)) Hn' ltac:(lia) ltac:(lia))
    as (it' & Hrun & Hp).
  exists it'. split; [exact Hrun|].
  replace (offset (blocks d) (S b0) + length (items blk) - 1 - r)
    with (offset (blocks d) b0 + length (items blk') - 1 - (r - length (items blk)))
    by lia.
  exact Hp.
Qed.

Lemma minus_body_spec d b blk i r :
  nonempty_blocks (blocks d) ->
  (Z.of_nat (items_count (blocks d)) <= INT_MAX)%Z ->
  nth_error (blocks d) b = Some blk -> i < length (items blk) ->
  r <= offset (blocks d) b + i ->
  exists it',
    minus_body d {| item_it := Some i; block_it := Some b |} (Z.of_nat r) = Ret it'
    /\ points d it' (offset (blocks d) b + i - r).
Proof.
  intros Hne Hfit Hn Hi Hr. unfold minus_body. cbn [block_it item_it].
  pose proof (nth_error_lt _ _ _ _ Hn) as Hlt.
  pose proof (offset_block_le _ _ _ _ Hn) as Hle.
  rewrite (dl_arrow_nth _ _ _ _ Hn). cbn [rbind].
  assert (Hd : std_distance (items blk) (dl_begin (items blk)) (Some i) = Ret (Z.of_nat i)).
  { rewrite dl_begin_node_at, <- (node_at_lt _ (items blk) i Hi).
    rewrite std_distance_node_at by lia. now rewrite Nat.sub_0_r. }
  rewrite Hd. cbn [rbind].
  rewrite to_int_small by (unfold INT_MAX in *; lia).
  destruct (Z.leb_spec (Z.of_nat r) (Z.of_nat i)) as [Hin|Hout].
  { rewrite retreat_some by lia. cbn [rbind].
    eexists. split; [reflexivity|].
    rewrite <- (node_at_lt _ (items blk) (i - r)) by lia.
    replace (offset (blocks d) b + i - r) with (offset (blocks d) b + (i - r)) by lia.
    apply points_pos; auto; lia. }
  rewrite (begin_test _ (blocks d) b Hlt).
  destruct b as [|b0].
  { rewrite offset_0 in Hr. lia. }
  cbn [Nat.eqb].
  rewrite dl_decr_some by lia. cbn [rbind].
  destruct (nth_error_ex _ (blocks d) b0) as [blk' Hn']; [lia|].
  rewrite (dl_arrow_nth _ _ _ _ Hn'). cbn [rbind].
  replace (Z.of_nat r - Z.of_nat i - 1)%Z with (Z.of_nat (r - i - 1)) by lia.
  pose proof (offset_S _ _ _ _ Hn') as HS.
  pose proof (nonempty_nth _ _ _ _ Hne Hn') as Hpos'.
  destruct (minus_loop_spec d Hne (S (dl_size (blocks d))) b0 blk' (r - i - 1) Hn'
              ltac:(unfold dl_size; lia) ltac:(lia)) as (it' & Hrun & Hp).
  exists it'. split; [exact Hrun|].
  replace (offset (blocks d) (S b0) + i - r)
    with (offset (blocks d) b0 + length (items blk') - 1 - (r - i - 1)) by lia.
  exact Hp.
Qed.

Lemma iter_minus_nonneg_unfold d it n :
  iter_minus_nonneg d it n =
  if (n =? 0)%Z then Ret it
  else
    r0 <~ (if iter_eqb it (deque_end d) then
             tl <~ dl_arrow (blocks d) (dl_get_tail (blocks d)) ;;
             Ret ({| item_it := dl_get_tail (items tl);
                     block_it := dl_get_tail (blocks d) |}, (n - 1)%Z)
           else Ret (it, n)) ;;
    minus_body d (fst r0) (snd r0).
Proof. reflexivity. Qed.

(** [it - n] for [0 <= n] within the container: the iterator [n]
    positions back. *)
Lemma iter_minus_spec d it k n :
  wf d -> fits_int d -> points d it k -> (Z.of_nat n <= INT_MAX)%Z -> n <= k ->
  exists it', iter_minus d it (Z.of_nat n) = Ret it' /\ points d it' (k - n).
Proof.
  intros [Htot Hne] Hfit Hp Hn Hk. unfold fits_int in Hfit. rewrite Htot in Hfit.
  unfold iter_minus.
  replace (Z.of_nat n <? 0)%Z with false by (symmetry; apply Z.ltb_ge; lia).
  rewrite iter_minus_nonneg_unfold.
  destruct (Z.eqb_spec (Z.of_nat n) 0) as [Hz|Hnz].
  { assert (n = 0) by lia. subst n. rewrite Nat.sub_0_r. eauto. }
  destruct Hp as [Hb | b blk i Hnth Hi Hc]; [lia|].
  pose proof (nth_error_lt _ _ _ _ Hnth) as Hlt.
  pose proof (nonempty_nth _ _ _ _ Hne Hnth) as Hpos.
  assert (Hend : deque_end d = {| item_it := dl_end; block_it := dl_get_tail (blocks d) |}).
  { unfold deque_end. destruct (blocks d); [simpl in Hlt; lia | reflexivity]. }
  rewrite Hend. unfold iter_eqb. cbn [block_it item_it].
  rewrite (tail_test _ (blocks d) b Hlt).
  destruct (Nat.eq_dec i (length (items blk))) as [Hlast|Hin].
  - (* the end iterator steps onto the last item first *)
    assert (Htail : S b = length (blocks d)) by (destruct Hc; [lia | assumption]).
    rewrite node_at_ge by lia. change (node_eqb None dl_end) with true.
    replace (S b =? length (blocks d)) with true by (symmetry; now apply Nat.eqb_eq).
    cbn [andb].
    rewrite dl_get_tail_nonempty by (destruct (blocks d); [simpl in Hlt; lia | discriminate]).
    replace (length (blocks d) - 1) with b by lia.
    rewrite (dl_arrow_nth _ _ _ _ Hnth). cbn [rbind fst snd].
    rewrite dl_get_tail_nonempty by (destruct (items blk); [simpl in Hpos; lia | discriminate]).
    replace (Z.of_nat n - 1)%Z with (Z.of_nat (n - 1)) by lia.
    destruct (minus_body_spec d b blk (length (items blk) - 1) (n - 1) Hne Hfit Hnth
                ltac:(lia) ltac:(lia)) as (it' & Hrun & Hp).
    exists it'. split; [exact Hrun|].
    replace (offset (blocks d) b + i - n)
      with (offset (blocks d) b + (length (items blk) - 1) - (n - 1)) by lia.
    exact Hp.
  - rewrite node_at_lt by lia. change (node_eqb (Some i) dl_end) with false.
    rewrite andb_false_r. cbn [rbind fst snd].
    apply (minus_body_spec d b blk i n); auto; lia.
Qed.

End IteratorFacts.

(** ** Iterator difference *)

Section DifferenceFacts.
Variable T : Type.
Implicit Types (d : deque T) (b : nat) (blk : Block T) (bs : list (Block T)) (it : iterator).

Lemma node_eqb_node_at (A : Type) (l : list A) i j :
  i <= length l -> j <= length l -> node_eqb (node_at l i) (node_at l j) = (i =? j).
Proof.
  intros Hi Hj. destruct (Nat.eqb_spec i j) as [->|Hne].
  - apply node_eqb_refl.
  - apply node_eqb_neq. intro E. apply node_at_inj in E; auto.
Qed.

Lemma node_eqb_node_at_end (A : Type) (l : list A) i :
  i <= length l -> node_eqb (node_at l i) dl_end = (i =? length l).
Proof.
  intro Hi. unfold dl_end. rewrite <- (node_at_ge _ l (length l)) by lia.
  now apply node_eqb_node_at.
Qed.

Lemma same_block_loop_spec (l : list T) fuel : forall i2 i1 dist,
  i1 <= length l -> i2 <= length l -> length l - i2 <= fuel ->
  same_block_loop fuel l (node_at l i2) (node_at l i1) dist
  = if i2 <=? i1 then Ret (false, (dist + Z.of_nat (i1 - i2))%Z)
    else Ret (true, (dist + Z.of_nat (length l - i2))%Z).
Proof.
  induction fuel as [|fuel IH]; intros i2 i1 dist H1 H2 Hf.
  - assert (i2 = length l) by lia. subst i2. cbn [same_block_loop].
    rewrite node_eqb_node_at, node_eqb_node_at_end by lia.
    rewrite Nat.eqb_refl.
    destruct (Nat.eqb_spec (length l) i1) as [<-|Hne].
    + rewrite Nat.leb_refl. rewrite Nat.sub_diag. f_equal. f_equal. lia.
    + replace (length l <=? i1) with false by (symmetry; apply Nat.leb_gt; lia).
      rewrite Nat.sub_diag. cbn [Z.of_nat]. now rewrite Z.add_0_r.
  - cbn [same_block_loop].
    rewrite node_eqb_node_at, node_eqb_node_at_end by lia.
    destruct (Nat.eqb_spec i2 i1) as [->|Hne].
    + rewrite Nat.leb_refl, Nat.sub_diag. f_equal. f_equal. lia.
    + destruct (Nat.eqb_spec i2 (length l)) as [->|Hne2].
      * replace (length l <=? i1) with false by (symmetry; apply Nat.leb_gt; lia).
        rewrite Nat.sub_diag. cbn [Z.of_nat]. now rewrite Z.add_0_r.
      * rewrite dl_incr_node_at by lia. cbn [rbind].
        rewrite IH by lia.
        destruct (Nat.leb_spec i2 i1), (Nat.leb_spec (S i2) i1); try lia;
          do 2 f_equal; lia.
Qed.

Lemma block_walk_loop_spec bs fuel : forall p t dist,
  p <= length bs -> t < length bs -> length bs - p <= fuel ->
  block_walk_loop fuel bs (node_at bs p) (Some t) dist
  = if p <=? t
    then Ret (true, Some t, (dist + Z.of_nat (offset bs t - offset bs p))%Z)
    else Ret (false, None, (dist + Z.of_nat (items_count bs - offset bs p))%Z).
Proof.
  induction fuel as [|fuel IH]; intros p t dist Hp Ht Hf.
  - assert (p = length bs) by lia. subst p. cbn [block_walk_loop].
    rewrite node_at_ge by lia. cbn [node_eqb dl_end].
    replace (length bs <=? t) with false by (symmetry; apply Nat.leb_gt; lia).
    rewrite offset_all by lia. rewrite Nat.sub_diag. cbn [Z.of_nat]. now rewrite Z.add_0_r.
  - cbn [block_walk_loop].
    rewrite <- (node_at_lt _ bs t Ht) at 1.
    rewrite node_eqb_node_at, node_eqb_node_at_end by lia.
    destruct (Nat.eqb_spec p t) as [->|Hne].
    + rewrite Nat.leb_refl, Nat.sub_diag. rewrite node_at_lt by lia.
      do 2 f_equal. lia.
    + destruct (Nat.eqb_spec p (length bs)) as [->|Hne2].
      * replace (length bs <=? t) with false by (symmetry; apply Nat.leb_gt; lia).
        rewrite node_at_ge by lia. rewrite offset_all by lia.
        rewrite Nat.sub_diag. cbn [Z.of_nat]. now rewrite Z.add_0_r.
      * destruct (nth_error_ex _ bs p) as [blk Hn]; [lia|].
        rewrite (node_at_lt _ bs p) by lia.
        rewrite (dl_arrow_nth _ _ _ _ Hn). cbn [rbind].
        rewrite dl_incr_some by lia. cbn [rbind].
        rewrite IH by lia. unfold dl_size.
        pose proof (offset_S _ _ _ _ Hn) as HS.
        pose proof (offset_block_le _ _ _ _ Hn) as Hle.
        destruct (Nat.leb_spec p t), (Nat.leb_spec (S p) t); try lia.
        -- pose proof (offset_mono _ bs (S p) t ltac:(lia)). do 2 f_equal. lia.
        -- do 2 f_equal. lia.
Qed.

Lemma forward_distance_spec d b blk i b' blk' i' :
  nth_error (blocks d) b = Some blk -> i <= length (items blk) ->
  nth_error (blocks d) b' = Some blk' -> i' <= length (items blk') ->
  b <> b' ->
  forward_distance d {| item_it := node_at (items blk) i; block_it := Some b |}
                     {| item_it := node_at (items blk') i'; block_it := Some b' |}
  = if b <? b'
    then Ret (Some (Z.of_nat (offset (blocks d) b' + i' - (offset (blocks d) b + i))))
    else Ret None.
Proof.
  intros Hn Hi Hn' Hi' Hne. unfold forward_distance. cbn [block_it item_it].
  pose proof (nth_error_lt _ _ _ _ Hn) as Hlt.
  pose proof (nth_error_lt _ _ _ _ Hn') as Hlt'.
  rewrite (dl_arrow_nth _ _ _ _ Hn). cbn [rbind].
  rewrite std_distance_to_end by exact Hi. cbn [rbind].
  rewrite dl_incr_some by lia. cbn [rbind].
  rewrite block_walk_loop_spec by (unfold dl_size; lia).
  pose proof (offset_S _ _ _ _ Hn) as HS.
  destruct (Nat.leb_spec (S b) b'), (Nat.ltb_spec b b'); try lia; cbn [rbind fst snd].
  - rewrite (dl_arrow_nth _ _ _ _ Hn'). cbn [rbind].
    rewrite dl_begin_node_at, std_distance_node_at by lia. cbn [rbind].
    pose proof (offset_mono _ (blocks d) (S b) b' ltac:(lia)).
    do 2 f_equal. lia.
  - reflexivity.
Qed.

(** The difference of two iterators of a container with blocks. *)
Lemma iter_diff_spec d it k rhs j :
  wf d -> blocks d <> [] -> points d it k -> points d rhs j ->
  iter_diff d it rhs
  = Ret (if j <=? k then Z.of_nat (k - j) else to_size_t (- Z.of_nat (j - k))).
Proof.
  intros [Htot Hne] Hnb Hp Hq.
  destruct Hp as [Hb | b blk i Hn Hi Hc]; [contradiction|].
  destruct Hq as [Hb | b' blk' i' Hn' Hi' Hc']; [contradiction|].
  pose proof (nth_error_lt _ _ _ _ Hn) as Hlt.
  pose proof (nth_error_lt _ _ _ _ Hn') as Hlt'.
  unfold iter_diff. cbn [block_it item_it node_eqb orb].
  destruct (Nat.eqb_spec b b') as [<-|Hbb].
  - (* the same block *)
    rewrite Hn in Hn'. injection Hn' as <-.
    rewrite (dl_arrow_nth _ _ _ _ Hn). cbn [rbind].
    rewrite same_block_loop_spec by (unfold dl_size; lia).
    destruct (Nat.leb_spec i' i) as [Hle|Hgt]; cbn [rbind fst snd].
    + replace (offset (blocks d) b + i' <=? offset (blocks d) b + i) with true
        by (symmetry; apply Nat.leb_le; lia).
      do 2 f_equal. lia.
    + rewrite std_distance_node_at by lia. cbn [rbind].
      replace (offset (blocks d) b + i' <=? offset (blocks d) b + i) with false
        by (symmetry; apply Nat.leb_gt; lia).
      do 3 f_equal. lia.
  - rewrite (forward_distance_spec d b' blk' i' b blk i) by auto.
    destruct (Nat.ltb_spec b' b) as [Hlt1|Hge1]; cbn [rbind].
    + pose proof (offset_lt _ _ _ _ _ Hne Hn' Hlt1).
      replace (offset (blocks d) b' + i' <=? offset (blocks d) b + i) with true
        by (symmetry; apply Nat.leb_le; lia).
      reflexivity.
    + rewrite (forward_distance_spec d b blk i b' blk' i') by auto.
      replace (b <? b') with true by (symmetry; apply Nat.ltb_lt; lia). cbn [rbind].
      assert (Hlt2 : b < b') by lia.
      pose proof (offset_lt _ _ _ _ _ Hne Hn Hlt2).
      assert (i < length (items blk)) by (destruct Hc; lia).
      replace (offset (blocks d) b' + i' <=? offset (blocks d) b + i) with false
        by (symmetry; apply Nat.leb_gt; lia).
      reflexivity.
Qed.

End DifferenceFacts.

(** ** Locating a logical position, and indexed access *)

Ltac case_rbind H :=
  repeat match type of H with
  | rbind ?r _ = _ =>
      let E := fresh "E" in destruct r eqn:E; cbn [rbind] in H; try discriminate H
  end.

Section LocateFacts.
Variable T : Type.
Implicit Types (d : deque T) (b : nat) (blk : Block T) (bs : list (Block T)) (it : iterator).

Lemma distance_loop_ge (A : Type) (l : list A) fuel : forall first last n m,
  distance_loop fuel l first last n = Ret m -> (n <= m)%Z.
Proof.
  induction fuel as [|fuel IH]; intros first last n m H; cbn [distance_loop] in H.
  - destruct (node_eqb first last); [injection H; lia | discriminate].
  - destruct (node_eqb first last); [injection H; lia|].
    case_rbind H. apply IH in H. lia.
Qed.

Lemma std_distance_nonneg (A : Type) (l : list A) first last m :
  std_distance l first last = Ret m -> (0 <= m)%Z.
Proof. apply distance_loop_ge. Qed.

Lemma same_block_loop_ge (l : list T) fuel : forall t target dist f m,
  same_block_loop fuel l t target dist = Ret (f, m) -> (dist <= m)%Z.
Proof.
  induction fuel as [|fuel IH]; intros t target dist f m H; cbn [same_block_loop] in H.
  - destruct (node_eqb t target); [injection H; lia|].
    destruct (node_eqb t dl_end); [injection H; lia | discriminate].
  - destruct (node_eqb t target); [injection H; lia|].
    destruct (node_eqb t dl_end); [injection H; lia|].
    case_rbind H. apply IH in H. lia.
Qed.

Lemma block_walk_loop_ge bs fuel : forall t target dist f tb m,
  block_walk_loop fuel bs t target dist = Ret (f, tb, m) -> (dist <= m)%Z.
Proof.
  induction fuel as [|fuel IH]; intros t target dist f tb m H; cbn [block_walk_loop] in H.
  - destruct (node_eqb t target); [injection H; lia|].
    destruct (node_eqb t dl_end); [injection H; lia | discriminate].
  - destruct (node_eqb t target); [injection H; lia|].
    destruct (node_eqb t dl_end); [injection H; lia|].
    case_rbind H. apply IH in H. lia.
Qed.

Lemma to_size_t_nonneg z : (0 <= to_size_t z)%Z.
Proof. unfold to_size_t, SIZE_MOD. apply Z.mod_pos_bound. lia. Qed.

Lemma forward_distance_nonneg d src dst z :
  forward_distance d src dst = Ret (Some z) -> (0 <= z)%Z.
Proof.
  unfold forward_distance. intro H. case_rbind H.
  match goal with H0 : block_walk_loop _ _ _ _ _ = Ret ?r |- _ =>
    destruct r as [[f tb] m]; apply block_walk_loop_ge in H0 end.
  cbn [fst snd] in H.
  destruct f; [|discriminate]. case_rbind H. injection H as <-.
  repeat match goal with H0 : std_distance _ _ _ = Ret _ |- _ =>
    apply std_distance_nonneg in H0 end.
  lia.
Qed.

(** A [size_t] difference is not negative, whatever the iterators. *)
Lemma iter_diff_nonneg d it rhs z : iter_diff d it rhs = Ret z -> (0 <= z)%Z.
Proof.
  unfold iter_diff. intro H.
  destruct (node_eqb (block_it it) None || node_eqb (block_it rhs) None); [discriminate|].
  destruct (node_eqb (block_it it) (block_it rhs)).
  - case_rbind H.
    match goal with H0 : same_block_loop _ _ _ _ _ = Ret ?r |- _ =>
      destruct r as [f m]; apply same_block_loop_ge in H0 end.
    cbn [fst snd] in H. destruct f.
    + case_rbind H. injection H as <-. apply to_size_t_nonneg.
    + injection H as <-. assumption.
  - case_rbind H.
    match goal with H0 : forward_distance _ _ _ = Ret ?o |- _ => destruct o as [z0|] end.
    + injection H as <-. eapply forward_distance_nonneg; eauto.
    + case_rbind H.
      match goal with H0 : forward_distance _ _ _ = Ret ?o |- _ => destruct o as [z0|] end;
        [|discriminate].
      injection H as <-. apply to_size_t_nonneg.
Qed.

Lemma locate_loop_spec bs fuel : forall b blk r,
  nth_error bs b = Some blk -> length bs - b <= fuel ->
  offset bs b + r < items_count bs ->
  exists b' blk' r',
    locate_loop fuel bs (Some b) (Z.of_nat r) = Ret (Some b', Z.of_nat r')
    /\ nth_error bs b' = Some blk' /\ r' < length (items blk')
    /\ offset bs b' + r' = offset bs b + r.
Proof.
  induction fuel as [|fuel IH]; intros b blk r Hn Hf Hr;
    pose proof (nth_error_lt _ _ _ _ Hn) as Hlt; [lia|].
  cbn [locate_loop]. rewrite (dl_arrow_nth _ _ _ _ Hn). cbn [rbind]. unfold dl_size.
  destruct (Z.leb_spec (Z.of_nat (length (items blk))) (Z.of_nat r)) as [Hout|Hin].
  - rewrite (tail_test _ bs b Hlt).
    destruct (Nat.eqb_spec (S b) (length bs)) as [Htail|Hmid].
    + pose proof (offset_last _ _ _ _ Hn Htail). lia.
    + rewrite dl_incr_some by lia. rewrite node_at_lt by lia. cbn [rbind].
      destruct (nth_error_ex _ bs (S b)) as [blk1 Hn1]; [lia|].
      replace (Z.of_nat r - Z.of_nat (length (items blk)))%Z
        with (Z.of_nat (r - length (items blk))) by lia.
      pose proof (offset_S _ _ _ _ Hn) as HS.
      destruct (IH (S b) blk1 (r - length (items blk)) Hn1 ltac:(lia) ltac:(lia))
        as (b' & blk' & r' & Hrun & Hn' & Hr' & Hoff).
      exists b', blk', r'. repeat split; auto. lia.
  - exists b, blk, r. repeat split; auto. lia.
Qed.

(** [locate] finds the iterator at a position below the size. *)
Lemma locate_spec d k :
  wf d -> k < total_size d ->
  exists it', locate d (Z.of_nat k) = Ret it' /\ points d it' k.
Proof.
  intros [Htot Hne] Hk. unfold locate.
  assert (Hlen : 0 < length (blocks d)).
  { destruct (blocks d); [|simpl; lia].
    change (items_count (@nil (Block T))) with 0 in Htot. lia. }
  destruct (nth_error_ex _ (blocks d) 0 Hlen) as [blk0 Hn0].
  rewrite dl_begin_node_at, node_at_lt by exact Hlen.
  destruct (locate_loop_spec (blocks d) (dl_size (blocks d)) 0 blk0 k Hn0
              ltac:(unfold dl_size; lia) ltac:(rewrite offset_0; lia))
    as (b' & blk' & r' & Hrun & Hn' & Hr' & Hoff).
  rewrite Hrun. cbn [rbind fst snd].
  rewrite (dl_arrow_nth _ _ _ _ Hn'). cbn [rbind].
  rewrite dl_begin_node_at, std_advance_node_at by (rewrite ?Nat2Z.id; lia).
  cbn [rbind]. rewrite Nat2Z.id. simpl (0 + r').
  eexists. split; [reflexivity|].
  rewrite offset_0 in Hoff. simpl in Hoff. rewrite <- Hoff.
  apply points_pos; auto; lia.
Qed.

Lemma at_loop_spec bs : forall current_pos pos,
  current_pos <= pos ->
  at_loop bs current_pos pos
  = match nth_error (concat (map (@items T) bs)) (pos - current_pos) with
    | Some x => Ret x
    | None => Throw (out_of_range ""%string)
    end.
Proof.
  induction bs as [|b rest IH]; intros current_pos pos Hle; cbn [at_loop map concat].
  - now destruct (pos - current_pos).
  - unfold dl_size. destruct (Nat.ltb_spec pos (current_pos + length (items b))) as [Hin|Hout].
    + rewrite dl_begin_node_at, std_advance_node_at by (rewrite ?Nat2Z.id; lia).
      cbn [rbind]. rewrite Nat2Z.id. simpl (0 + (pos - current_pos)).
      rewrite nth_error_app1 by lia.
      destruct (nth_error_ex _ (items b) (pos - current_pos)) as [x Hx]; [lia|].
      rewrite Hx. now apply dl_deref_node_at.
    + rewrite IH by lia. rewrite nth_error_app2 by lia.
      now replace (pos - current_pos - length (items b))
        with (pos - (current_pos + length (items b))) by lia.
Qed.

End LocateFacts.

(** ** The modifiers at the two ends *)

Ltac mrun :=
  cbv beta iota delta [bind get lift ret throw set_blocks set_total_size set_block_size];
  cbn [blocks total_size block_size fst snd].

Section EndFacts.
Variable T : Type.
Implicit Types (d : deque T) (b : nat) (blk : Block T) (bs pre rest : list (Block T)).

Lemma dl_back_snoc (A : Type) (l : list A) x : dl_back (l ++ [x]) = Ret x.
Proof.
  unfold dl_back. destruct l as [|y l]; [reflexivity|].
  simpl app. f_equal. rewrite <- (last_last l x y) at 2. reflexivity.
Qed.

Lemma list_update_last (A : Type) (l : list A) x y :
  list_update (l ++ [x]) (dl_size (l ++ [x]) - 1) y = l ++ [y].
Proof.
  unfold dl_size. rewrite length_app. simpl.
  replace (length l + 1 - 1) with (length l) by lia. apply list_update_mid.
Qed.

Lemma to_list_app bs bs' :
  concat (map (@items T) (bs ++ bs')) = concat (map (@items T) bs) ++ concat (map (@items T) bs').
Proof. now rewrite map_app, concat_app. Qed.

Lemma to_list_snoc bs blk :
  concat (map (@items T) (bs ++ [blk])) = concat (map (@items T) bs) ++ items blk.
Proof. rewrite to_list_app. simpl. now rewrite app_nil_r. Qed.

Lemma nonempty_app bs bs' :
  nonempty_blocks (bs ++ bs') <-> nonempty_blocks bs /\ nonempty_blocks bs'.
Proof. apply Forall_app. Qed.

Lemma wf_total_0 d : wf d -> total_size d = 0 -> blocks d = [].
Proof.
  intros [Htot Hne] H0. destruct (blocks d) as [|blk bs]; [reflexivity|].
  inversion Hne as [|? ? Hblk _]; subst.
  rewrite Htot, items_count_cons in H0.
  destruct (items blk); [contradiction | simpl in H0; lia].
Qed.

Lemma wf_blocks_nil d : wf d -> blocks d = [] -> total_size d = 0.
Proof. intros [Htot _] Hb. now rewrite Htot, Hb. Qed.

Lemma wf_intro bs n bsz :
  n = length (concat (map (@items T) bs)) -> nonempty_blocks bs ->
  wf {| blocks := bs; total_size := n; block_size := bsz |}.
Proof.
  intros Hn Hne. split; [|exact Hne]. cbn [total_size blocks].
  now rewrite items_count_to_list.
Qed.

Lemma wf_length d : wf d -> total_size d = length (to_list d).
Proof. intros [Htot _]. now rewrite Htot, items_count_to_list. Qed.

(** What [Balance] does to a well-formed container, on its sequence. *)
Lemma Balance_after bs n bsz :
  n = length (concat (map (@items T) bs)) -> nonempty_blocks bs ->
  exists d',
    Balance {| blocks := bs; total_size := n; block_size := bsz |} = (Ret tt, d')
    /\ wf d' /\ to_list d' = concat (map (@items T) bs) /\ total_size d' = n.
Proof.
  intros Hn Hne.
  destruct (Balance_wf T _ (wf_intro bs n bsz Hn Hne)) as (d' & Hrun & Hwf & Hcat & Ht).
  exists d'. auto.
Qed.

Lemma dl_empty_snoc (A : Type) (l : list A) x : dl_empty (l ++ [x]) = false.
Proof. unfold dl_empty. rewrite length_app. simpl. now destruct (length l). Qed.

Lemma dl_empty_cons (A : Type) (l : list A) x : dl_empty (x :: l) = false.
Proof. reflexivity. Qed.

(** [push_back] appends the value. *)
Lemma push_back_spec d v :
  wf d ->
  exists d',
    push_back v d = (Ret tt, d') /\ wf d'
    /\ to_list d' = to_list d ++ [v] /\ total_size d' = S (total_size d).
Proof.
  intros Hwf. pose proof (wf_length d Hwf) as Hlen. destruct Hwf as [Htot Hne].
  unfold to_list in *.
  unfold push_back. mrun.
  destruct (blocks d) as [|b0 bs0] eqn:Hb.
  - (* the first block *)
    cbn -[Balance].
    destruct (Balance_after [{| items := [v] |}] (total_size d + 1) (block_size d))
      as (d' & Hrun & Hwf' & Hcat & Ht).
    { simpl in *. lia. }
    { repeat constructor. discriminate. }
    exists d'. rewrite Hrun. repeat split; try apply Hwf'; auto. lia.
  - destruct (exists_last (l := b0 :: bs0) ltac:(discriminate)) as (pre & lst & Hpre).
    rewrite Hpre in *. clear Hpre b0 bs0.
    rewrite dl_empty_snoc, dl_back_snoc.
    apply nonempty_app in Hne. destruct Hne as [Hne1 Hne2].
    rewrite to_list_snoc, length_app in Hlen.
    destruct (block_size d <=? dl_size (items lst)); mrun.
    + (* a new tail block *)
      unfold insert_tail at 1 2. rewrite dl_back_snoc.
      unfold insert_tail at 2. rewrite list_update_last.
      cbn [items insert_tail app].
      destruct (Balance_after ((pre ++ [lst]) ++ [{| items := [v] |}])
                  (total_size d + 1) (block_size d))
        as (d' & Hrun & Hwf' & Hcat & Ht).
      { rewrite !to_list_snoc, !length_app. simpl. lia. }
      { apply nonempty_app. split; [apply nonempty_app; auto|].
        repeat constructor. discriminate. }
      exists d'. rewrite Hrun. repeat split; try apply Hwf'; auto; [|lia].
      unfold to_list in Hcat. rewrite Hcat, !to_list_snoc. reflexivity.
    + rewrite Hb, dl_back_snoc, list_update_last.
      destruct (Balance_after (pre ++ [{| items := insert_tail (items lst) v |}])
                  (total_size d + 1) (block_size d))
        as (d' & Hrun & Hwf' & Hcat & Ht).
      { rewrite !to_list_snoc, !length_app. cbn [items]. unfold insert_tail.
        rewrite length_app. simpl. lia. }
      { apply nonempty_app. split; [auto|]. repeat constructor. cbn [items].
        unfold insert_tail. intro E. apply app_eq_nil in E. destruct E; discriminate. }
      exists d'. rewrite Hrun. repeat split; try apply Hwf'; auto; [|lia].
      unfold to_list in Hcat. rewrite Hcat, !to_list_snoc. cbn [items]. unfold insert_tail.
      now rewrite app_assoc.
Qed.

(** [push_front] prepends the value. *)
Lemma push_front_spec d v :
  wf d ->
  exists d',
    push_front v d = (Ret tt, d') /\ wf d'
    /\ to_list d' = v :: to_list d /\ total_size d' = S (total_size d).
Proof.
  intros Hwf. pose proof (wf_length d Hwf) as Hlen. destruct Hwf as [Htot Hne].
  unfold to_list in *.
  unfold push_front. mrun.
  destruct (blocks d) as [|b0 rest] eqn:Hb.
  - cbn -[Balance]. unfold insert_head.
    destruct (Balance_after [{| items := [v] |}] (total_size d + 1) (block_size d))
      as (d' & Hrun & Hwf' & Hcat & Ht).
    { simpl in *. lia. }
    { repeat constructor. discriminate. }
    exists d'. rewrite Hrun. repeat split; try apply Hwf'; auto. lia.
  - rewrite dl_empty_cons. cbn [dl_front].
    inversion Hne as [|? ? Hb0 Hrest]; subst.
    destruct (block_size d <=? dl_size (items b0)); mrun;
      unfold insert_head; cbn [dl_front list_update items].
    + destruct (Balance_after ({| items := [v] |} :: b0 :: rest)
                  (total_size d + 1) (block_size d))
        as (d' & Hrun & Hwf' & Hcat & Ht).
      { simpl in *. lia. }
      { constructor; [discriminate | constructor; auto]. }
      exists d'. rewrite Hrun. repeat split; try apply Hwf'; auto; lia.
    + rewrite Hb. cbn [dl_front list_update]. unfold insert_head.
      destruct (Balance_after ({| items := v :: items b0 |} :: rest)
                  (total_size d + 1) (block_size d))
        as (d' & Hrun & Hwf' & Hcat & Ht).
      { simpl in *. lia. }
      { constructor; [discriminate | auto]. }
      exists d'. rewrite Hrun. repeat split; try apply Hwf'; auto; lia.
Qed.

(** [pop_back] throws on the empty container and otherwise removes the
    last element. *)
Lemma pop_back_spec d :
  wf d ->
  (total_size d = 0 -> pop_back d = (Throw (out_of_range ""%string), d))
  /\ (0 < total_size d ->
      exists d',
        pop_back d = (Ret tt, d') /\ wf d'
        /\ to_list d' = removelast (to_list d) /\ total_size d' = total_size d - 1).
Proof.
  intros Hwf. pose proof (wf_length d Hwf) as Hlen.
  pose proof (wf_total_0 d Hwf) as H0. destruct Hwf as [Htot Hne].
  unfold to_list in *. unfold pop_back, deque_empty. mrun.
  split; intro Hsz.
  { now rewrite Hsz. }
  replace (total_size d =? 0) with false by (symmetry; apply Nat.eqb_neq; lia).
  destruct (blocks d) as [|b0 bs0] eqn:Hb.
  { simpl in Hlen. lia. }
  destruct (exists_last (l := b0 :: bs0) ltac:(discriminate)) as (pre & lst & Hpre).
  rewrite Hpre in *. clear Hpre b0 bs0.
  apply nonempty_app in Hne. destruct Hne as [Hne1 Hne2].
  inversion Hne2 as [|? ? Hlst _]; subst.
  destruct (exists_last Hlst) as (l & x & Hl).
  rewrite to_list_snoc in Hlen |- *. rewrite Hl in Hlen |- *.
  rewrite app_assoc, removelast_last. rewrite app_assoc, length_app in Hlen.
  rewrite dl_back_snoc, list_update_last, dl_back_snoc. cbn [items].
  unfold delete_tail. rewrite Hl, !removelast_last.
  destruct l as [|y l].
  - cbn [dl_empty length Nat.eqb]. mrun. rewrite ?removelast_last.
    destruct (Balance_after pre (total_size d - 1) (block_size d))
      as (d' & Hrun & Hwf' & Hcat & Ht).
    { rewrite app_nil_r in Hlen. simpl in Hlen. lia. }
    { exact Hne1. }
    exists d'. rewrite Hrun. repeat split; try apply Hwf'; auto.
    unfold to_list in Hcat. now rewrite Hcat, app_nil_r.
  - cbn [dl_empty length Nat.eqb]. mrun.
    destruct (Balance_after (pre ++ [{| items := y :: l |}]) (total_size d - 1) (block_size d))
      as (d' & Hrun & Hwf' & Hcat & Ht).
    { rewrite to_list_snoc, length_app. cbn [items].
      rewrite length_app in Hlen. cbn [length] in *. lia. }
    { apply nonempty_app. split; [auto|]. repeat constructor. discriminate. }
    exists d'. rewrite Hrun. repeat split; try apply Hwf'; auto.
    unfold to_list in Hcat. now rewrite Hcat, to_list_snoc.
Qed.

(** [pop_front] throws on the empty container and otherwise removes the
    first element. *)
Lemma pop_front_spec d :
  wf d ->
  (total_size d = 0 -> pop_front d = (Throw (out_of_range ""%string), d))
  /\ (0 < total_size d ->
      exists d',
        pop_front d = (Ret tt, d') /\ wf d'
        /\ to_list d' = tl (to_list d) /\ total_size d' = total_size d - 1).
Proof.
  intros Hwf. pose proof (wf_length d Hwf) as Hlen. destruct Hwf as [Htot Hne].
  unfold to_list in *. unfold pop_front, deque_empty. mrun.
  split; intro Hsz.
  { now rewrite Hsz. }
  replace (total_size d =? 0) with false by (symmetry; apply Nat.eqb_neq; lia).
  destruct (blocks d) as [|b0 rest] eqn:Hb.
  { simpl in Hlen. lia. }
  inversion Hne as [|? ? Hb0 Hrest]; subst.
  cbn [dl_front list_update items map concat] in *.
  destruct (items b0) as [|x l] eqn:Hl; [contradiction|].
  cbn [delete_head app tl length] in *. rewrite length_app in Hlen.
  destruct l as [|y l].
  - cbn [dl_empty length Nat.eqb delete_head app]. mrun.
    destruct (Balance_after rest (total_size d - 1) (block_size d))
      as (d' & Hrun & Hwf' & Hcat & Ht).
    { simpl in Hlen. lia. }
    { exact Hrest. }
    exists d'. rewrite Hrun. repeat split; try apply Hwf'; auto.
  - cbn [dl_empty length Nat.eqb]. mrun.
    destruct (Balance_after ({| items := y :: l |} :: rest) (total_size d - 1) (block_size d))
      as (d' & Hrun & Hwf' & Hcat & Ht).
    { cbn [map concat items]. rewrite length_app. simpl in *. lia. }
    { constructor; [discriminate | auto]. }
    exists d'. rewrite Hrun. repeat split; try apply Hwf'; auto.
Qed.

(** [front()] and [back()]. *)
Lemma deque_front_spec d :
  wf d ->
  deque_front d = match to_list d with
                  | [] => Throw (out_of_range ""%string)
                  | x :: _ => Ret x
                  end.
Proof.
  intros [Htot Hne]. unfold deque_front, to_list.
  destruct (blocks d) as [|b0 rest]; [reflexivity|].
  inversion Hne as [|? ? Hb0 Hrest]; subst.
  cbn [dl_empty length Nat.eqb dl_front rbind map concat].
  destruct (items b0); [contradiction | reflexivity].
Qed.

Lemma deque_back_spec d :
  wf d ->
  deque_back d = match to_list d with
                 | [] => Throw (out_of_range ""%string)
                 | x :: l => Ret (last l x)
                 end.
Proof.
  intros [Htot Hne]. unfold deque_back, to_list.
  destruct (blocks d) as [|b0 bs0] eqn:Hb; [reflexivity|].
  destruct (exists_last (l := b0 :: bs0) ltac:(discriminate)) as (pre & lst & Hpre).
  rewrite Hpre in *. clear Hpre b0 bs0.
  apply nonempty_app in Hne. destruct Hne as [Hne1 Hne2].
  inversion Hne2 as [|? ? Hlst _]; subst.
  destruct (exists_last Hlst) as (l & x & Hl).
  rewrite dl_empty_snoc, dl_back_snoc. cbn [rbind].
  rewrite to_list_snoc, Hl, dl_back_snoc, app_assoc.
  destruct (concat (map (@items T) pre) ++ l) as [|y m] eqn:E; [reflexivity|].
  cbn [app]. f_equal. rewrite <- (last_last m x y) at 1. reflexivity.
Qed.

End EndFacts.

(** ** insert and erase *)

Section InsertEraseFacts.
Variable T : Type.
Implicit Types (d : deque T) (b : nat) (blk : Block T) (bs pre rest : list (Block T)).

Lemma dl_insert_inv (A : Type) (l : list A) p v l' q :
  dl_insert l p v = Ret (l', q) ->
  exists i, i <= length l /\ p = node_at l i /\ l' = firstn i l ++ v :: skipn i l.
Proof.
  unfold dl_insert. destruct p as [i|].
  - destruct (Nat.ltb_spec i (length l)) as [Hlt|]; [|discriminate].
    intro H. injection H as <- <-. exists i. rewrite node_at_lt by lia.
    repeat split; auto; lia.
  - intro H. injection H as <- <-. exists (length l).
    rewrite node_at_ge, firstn_all, skipn_all by lia. repeat split; auto.
Qed.

Lemma dl_insert_node_at (A : Type) (l : list A) i v :
  i <= length l ->
  exists q, dl_insert l (node_at l i) v = Ret (firstn i l ++ v :: skipn i l, q).
Proof.
  intro Hi. unfold dl_insert, node_at.
  destruct (Nat.ltb_spec i (length l)) as [Hlt|Hge].
  - replace (i <? length l) with true by (symmetry; apply Nat.ltb_lt; lia). eauto.
  - assert (i = length l) by lia. subst i.
    rewrite firstn_all, skipn_all. unfold insert_tail. eauto.
Qed.

Lemma dl_erase_inv (A : Type) (l : list A) p l' q :
  dl_erase l p = Ret (l', q) ->
  exists i, i < length l /\ p = Some i /\ l' = firstn i l ++ skipn (S i) l.
Proof.
  unfold dl_erase. destruct p as [i|]; [|discriminate].
  destruct (Nat.ltb_spec i (length l)) as [Hlt|]; [|discriminate].
  intro H. injection H as <- <-. exists i. auto.
Qed.

Lemma dl_arrow_inv (A : Type) (l : list A) p x :
  dl_arrow l p = Ret x -> exists i, p = Some i /\ nth_error l i = Some x.
Proof.
  unfold dl_arrow. destruct p as [i|]; [|discriminate].
  destruct (nth_error l i) eqn:E; [|discriminate].
  intro H. injection H as <-. eauto.
Qed.

(** The blocks around block [b]. *)
Lemma blocks_split bs b blk :
  nth_error bs b = Some blk ->
  exists pre rest, bs = pre ++ blk :: rest /\ length pre = b
                   /\ offset bs b = length (concat (map (@items T) pre)).
Proof.
  intro H. destruct (nth_error_split _ _ H) as (pre & rest & -> & Hl).
  exists pre, rest. repeat split; auto.
  unfold offset. rewrite <- Hl, firstn_mid. apply items_count_to_list.
Qed.

Lemma to_list_mid pre blk rest :
  concat (map (@items T) (pre ++ blk :: rest))
  = concat (map (@items T) pre) ++ items blk ++ concat (map (@items T) rest).
Proof. rewrite to_list_app. reflexivity. Qed.

Lemma firstn_mid_app (A : Type) (P B S : list A) i :
  i <= length B -> firstn (length P + i) (P ++ B ++ S) = P ++ firstn i B.
Proof.
  intro Hi. rewrite firstn_app, firstn_all2 by lia.
  replace (length P + i - length P) with i by lia.
  rewrite firstn_app. replace (i - length B) with 0 by lia.
  now rewrite firstn_O, app_nil_r.
Qed.

Lemma skipn_mid_app (A : Type) (P B S : list A) i :
  i <= length B -> skipn (length P + i) (P ++ B ++ S) = skipn i B ++ S.
Proof.
  intro Hi. rewrite skipn_app, skipn_all2 by lia.
  replace (length P + i - length P) with i by lia.
  rewrite skipn_app. replace (i - length B) with 0 by lia.
  reflexivity.
Qed.

Lemma nonempty_mid pre blk rest :
  nonempty_blocks (pre ++ blk :: rest)
  <-> nonempty_blocks pre /\ items blk <> [] /\ nonempty_blocks rest.
Proof.
  rewrite nonempty_app. unfold nonempty_blocks. split.
  - intros [H1 H2]. inversion H2; subst. auto.
  - intros (H1 & H2 & H3). split; [auto | constructor; auto].
Qed.

(** What a call of [insert] leaves, whatever the iterator. *)
Lemma insert_outcome d pos v :
  wf d ->
  match insert pos v d with
  | (Ret _, d') => wf d' /\ total_size d' = S (total_size d)
  | (Throw _, d') => d' = d
  | (Undefined, _) => True
  end.
Proof.
  intros Hwf. pose proof (wf_length _ d Hwf) as Hlen. unfold to_list in Hlen.
  pose proof Hwf as [Htot Hne].
  unfold insert. mrun.
  destruct (dl_empty (blocks d)) eqn:Eemp.
  - destruct (iter_eqb pos (deque_end d)); cbn [negb]; [|reflexivity].
    assert (Hb : blocks d = []) by (destruct (blocks d); [reflexivity|discriminate]).
    rewrite Hb in *. cbn -[Balance]. split; [|simpl in Hlen; lia].
    apply wf_intro; [simpl in *; lia | repeat constructor; discriminate].
  - destruct (block_it pos) as [b|] eqn:Eb; cbn [node_eqb]; [|reflexivity].
    destruct (iter_diff d pos (deque_begin d)) as [dis| |] eqn:Ed; [|reflexivity|exact I].
    pose proof (iter_diff_nonneg _ _ _ _ _ Ed) as Hdis.
    destruct (Z.ltb_spec (Z.of_nat (total_size d)) dis) as [|Hle]; [reflexivity|].
    destruct (dl_arrow (blocks d) (Some b)) as [blk| |] eqn:Ea; [|reflexivity|exact I].
    apply dl_arrow_inv in Ea. destruct Ea as (b' & Eb' & Hn). injection Eb' as <-.
    destruct (dl_insert (items blk) (item_it pos) v) as [[l' q]| |] eqn:Ei;
      [|reflexivity|exact I].
    apply dl_insert_inv in Ei. destruct Ei as (i & Hi & Hp & Hl').
    destruct (blocks_split _ _ _ Hn) as (pre & rest & Hb & Hpl & Hoff).
    subst b. rewrite Hb in *. rewrite list_update_mid. cbn [fst].
    apply nonempty_mid in Hne. destruct Hne as (Hne1 & Hne2 & Hne3).
    rewrite to_list_mid, !length_app in Hlen.
    assert (Hl'len : length l' = S (length (items blk))).
    { subst l'. rewrite length_app. cbn [length]. rewrite length_firstn, length_skipn. lia. }
    destruct (Balance_after _ (pre ++ {| items := l' |} :: rest)
                (total_size d + 1) (block_size d))
      as (d' & Hrun & Hwf' & Hcat & Ht).
    { rewrite to_list_mid, !length_app. cbn [items]. lia. }
    { apply nonempty_mid. repeat split; auto. cbn [items]. intro E. rewrite E in Hl'len.
      discriminate. }
    rewrite Hrun.
    destruct (locate_spec _ d' (Z.to_nat dis) Hwf' ltac:(lia)) as (it' & Hloc & _).
    rewrite Z2Nat.id in Hloc by lia. rewrite Hloc.
    split; [exact Hwf' | lia].
Qed.

(** [insert] at an iterator of the container: the value enters the
    sequence at the position of the iterator, and the iterator that is
    returned stands at that position. *)
Lemma insert_spec d pos k v :
  wf d -> points d pos k ->
  exists it' d',
    insert pos v d = (Ret it', d') /\ wf d'
    /\ to_list d' = firstn k (to_list d) ++ v :: skipn k (to_list d)
    /\ total_size d' = S (total_size d)
    /\ points d' it' k.
Proof.
  intros Hwf Hp. pose proof (wf_length _ d Hwf) as Hlen. unfold to_list in *.
  pose proof Hwf as [Htot Hne].
  pose proof (points_le _ _ _ _ Hp) as Hk.
  unfold insert. mrun.
  destruct Hp as [Hb | b blk i Hn Hi Hc].
  - (* the container without blocks *)
    unfold deque_end. rewrite Hb in *. cbn -[Balance].
    eexists. eexists. split; [reflexivity|]. cbn [blocks total_size map concat items app].
    split; [|split; [|split]].
    + apply wf_intro; [simpl in *; lia | repeat constructor; discriminate].
    + reflexivity.
    + lia.
    + change (Some 0) with (node_at (items {| items := [v] |}) 0) at 1.
      replace 0 with (offset [{| items := [v] |}] 0 + 0) at 3 by reflexivity.
      apply points_pos; cbn [blocks items length]; auto.
  - pose proof (nth_error_lt _ _ _ _ Hn) as Hlt.
    assert (Hnb : blocks d <> []) by (destruct (blocks d); [simpl in Hlt; lia | discriminate]).
    replace (dl_empty (blocks d)) with false
      by (unfold dl_empty; destruct (blocks d); [contradiction | reflexivity]).
    cbn [block_it item_it node_eqb].
    rewrite (iter_diff_spec _ d _ (offset (blocks d) b + i) (deque_begin d) 0 Hwf Hnb
               (points_pos d b blk i Hn Hi Hc) (points_begin _ d Hne)).
    cbn [Nat.leb]. rewrite Nat.sub_0_r.
    replace (Z.of_nat (total_size d) <? Z.of_nat (offset (blocks d) b + i))%Z with false
      by (symmetry; apply Z.ltb_ge; lia).
    rewrite (dl_arrow_nth _ _ _ _ Hn).
    destruct (dl_insert_node_at _ (items blk) i v Hi) as [q Hins]. rewrite Hins. cbn [fst].
    destruct (blocks_split _ _ _ Hn) as (pre & rest & Hb & Hpl & Hoff).
    subst b. rewrite Hoff in *. rewrite Hb in *. rewrite list_update_mid.
    apply nonempty_mid in Hne. destruct Hne as (Hne1 & Hne2 & Hne3).
    rewrite to_list_mid in *. rewrite !length_app in Hlen.
    set (l' := firstn i (items blk) ++ v :: skipn i (items blk)).
    assert (Hl'len : length l' = S (length (items blk))).
    { unfold l'. rewrite length_app. cbn [length]. rewrite length_firstn, length_skipn. lia. }
    destruct (Balance_after _ (pre ++ {| items := l' |} :: rest)
                (total_size d + 1) (block_size d))
      as (d' & Hrun & Hwf' & Hcat & Ht).
    { rewrite to_list_mid, !length_app. cbn [items]. lia. }
    { apply nonempty_mid. repeat split; auto. cbn [items]. intro E. rewrite E in Hl'len.
      discriminate. }
    rewrite Hrun.
    destruct (locate_spec _ d' (length (concat (map (@items T) pre)) + i) Hwf' ltac:(lia))
      as (it' & Hloc & Hpt).
    rewrite Hloc. exists it', d'. repeat split; auto; try apply Hwf'; [|lia].
    unfold to_list in Hcat. rewrite Hcat, to_list_mid. cbn [items].
    rewrite firstn_mid_app, skipn_mid_app by lia.
    unfold l'. now rewrite <- !app_assoc.
Qed.

(** The end of [erase]: the end iterator when the last element went,
    otherwise rebalancing and the iterator found again. *)
Lemma erase_finish bs n bsz k :
  n = length (concat (map (@items T) bs)) -> nonempty_blocks bs -> k <= n ->
  exists it' d',
    (if (n =? 0) || (Z.of_nat k =? Z.of_nat n)%Z
     then fun s : deque T =>
          (Ret (deque_end {| blocks := bs; total_size := n; block_size := bsz |}), s)
     else fun s : deque T =>
          let (r0, s0) := Balance s in
          match r0 with
          | Ret _ => (locate s0 (Z.of_nat k), s0)
          | Throw e => (Throw e, s0)
          | Undefined => (Undefined, s0)
          end) {| blocks := bs; total_size := n; block_size := bsz |}
    = (Ret it', d')
    /\ wf d' /\ to_list d' = concat (map (@items T) bs)
    /\ total_size d' = n /\ points d' it' k.
Proof.
  intros Hlen Hne Hk.
  destruct ((n =? 0) || (Z.of_nat k =? Z.of_nat n)%Z) eqn:Elast.
  - eexists. eexists. split; [reflexivity|].
    split; [now apply wf_intro|]. split; [reflexivity|]. split; [reflexivity|].
    assert (Hkk : k = n).
    { apply orb_true_iff in Elast. destruct Elast as [E|E].
      - apply Nat.eqb_eq in E. lia.
      - apply Z.eqb_eq in E. lia. }
    rewrite Hkk.
    set (d3 := {| blocks := bs; total_size := n; block_size := bsz |}).
    assert (Hn3 : n = items_count (blocks d3))
      by (cbn [d3 blocks]; rewrite items_count_to_list; lia).
    pose proof (points_end _ d3) as Hpe. rewrite <- Hn3 in Hpe. exact Hpe.
  - apply orb_false_iff in Elast. destruct Elast as [E1 E2].
    apply Nat.eqb_neq in E1. apply Z.eqb_neq in E2.
    destruct (Balance_after _ bs n bsz Hlen Hne) as (d' & Hrun & Hwf' & Hcat & Ht).
    rewrite Hrun.
    destruct (locate_spec _ d' k Hwf' ltac:(lia)) as (it' & Hloc & Hpt).
    rewrite Hloc. exists it', d'. repeat split; auto; apply Hwf'.
Qed.

(** [erase] at the iterator of an element: the element leaves the
    sequence, and the iterator that is returned stands at its position. *)
Lemma erase_spec d pos k :
  wf d -> points d pos k -> k < total_size d ->
  exists it' d',
    erase pos d = (Ret it', d') /\ wf d'
    /\ to_list d' = firstn k (to_list d) ++ skipn (S k) (to_list d)
    /\ total_size d' = total_size d - 1
    /\ points d' it' k.
Proof.
  intros Hwf Hp Hk. pose proof (wf_length _ d Hwf) as Hlen. unfold to_list in *.
  pose proof Hwf as [Htot Hne].
  unfold erase. mrun.
  destruct Hp as [Hb | b blk i Hn Hi Hc].
  { rewrite Hb in Hlen. simpl in Hlen. lia. }
  pose proof (nth_error_lt _ _ _ _ Hn) as Hlt.
  assert (Hnb : blocks d <> []) by (destruct (blocks d); [simpl in Hlt; lia | discriminate]).
  assert (Hi' : i < length (items blk)).
  { destruct Hc as [Hc|Hc]; [exact Hc|].
    pose proof (offset_last _ _ _ _ Hn Hc). lia. }
  cbn [block_it item_it node_eqb].
  rewrite (iter_diff_spec _ d _ (offset (blocks d) b + i) (deque_begin d) 0 Hwf Hnb
             (points_pos d b blk i Hn Hi Hc) (points_begin _ d Hne)).
  cbn [Nat.leb]. rewrite Nat.sub_0_r.
  replace (Z.of_nat (total_size d) <=? Z.of_nat (offset (blocks d) b + i))%Z with false
    by (symmetry; apply Z.leb_gt; lia).
  rewrite (dl_arrow_nth _ _ _ _ Hn).
  rewrite node_at_lt by exact Hi'.
  unfold dl_erase at 1.
  replace (i <? length (items blk)) with true by (symmetry; apply Nat.ltb_lt; lia).
  cbn [fst].
  remember (firstn i (items blk) ++ skipn (S i) (items blk)) as l' eqn:El'.
  assert (Hl'len : S (length l') = length (items blk)).
  { rewrite El', length_app, length_firstn, length_skipn. lia. }
  destruct (blocks_split _ _ _ Hn) as (pre & rest & Hb & Hpl & Hoff).
  subst b. rewrite Hoff in *. rewrite Hb in *. rewrite list_update_mid, dl_arrow_mid.
  apply nonempty_mid in Hne. destruct Hne as (Hne1 & Hne2 & Hne3).
  rewrite to_list_mid in *. rewrite !length_app in Hlen.
  set (P := concat (map (@items T) pre)) in *.
  set (S' := concat (map (@items T) rest)) in *.
  assert (Hseq : firstn (length P + i) (P ++ items blk ++ S')
                 ++ skipn (S (length P + i)) (P ++ items blk ++ S') = P ++ l' ++ S').
  { rewrite firstn_mid_app by lia.
    replace (S (length P + i)) with (length P + S i) by lia.
    rewrite skipn_mid_app by lia. rewrite El'. now rewrite <- !app_assoc. }
  rewrite Hseq. cbn [items]. unfold deque_empty.
  (* the blocks after the erasure, with or without the emptied block *)
  clear El'.
  destruct l' as [|y l'].
  - (* the block is emptied and leaves the block list *)
    cbn [dl_empty length Nat.eqb]. rewrite dl_erase_mid. cbn [fst total_size block_size].
    destruct (erase_finish (pre ++ rest) (total_size d - 1) (block_size d) (length P + i))
      as (it' & d' & Hrun & Hwf' & Hcat & Ht & Hpt).
    { rewrite to_list_app, length_app. fold P S'. cbn [length] in Hl'len. lia. }
    { apply nonempty_app. auto. }
    { lia. }
    exists it', d'. split; [exact Hrun|]. repeat split; auto; try apply Hwf'.
    unfold to_list in Hcat. now rewrite Hcat, to_list_app.
  - cbn [dl_empty length Nat.eqb].
    destruct (erase_finish (pre ++ {| items := y :: l' |} :: rest)
                (total_size d - 1) (block_size d) (length P + i))
      as (it' & d' & Hrun & Hwf' & Hcat & Ht & Hpt).
    { rewrite to_list_mid, !length_app. fold P S'. cbn [items]. lia. }
    { apply nonempty_mid. repeat split; auto. discriminate. }
    { lia. }
    exists it', d'. split; [exact Hrun|]. repeat split; auto; try apply Hwf'.
    unfold to_list in Hcat. now rewrite Hcat, to_list_mid.
Qed.

End InsertEraseFacts.

Section OutcomeFacts.
Variable T : Type.
Implicit Types (d : deque T) (b : nat) (blk : Block T) (bs pre rest : list (Block T)).

(** [erase] at the end iterator, or at the null iterator, throws before
    it changes anything. *)
Lemma erase_end d pos k :
  wf d -> points d pos k -> total_size d <= k ->
  exists e, erase pos d = (Throw e, d).
Proof.
  intros Hwf Hp Hk. pose proof Hwf as [Htot Hne].
  unfold erase. mrun.
  destruct Hp as [Hb | b blk i Hn Hi Hc].
  - cbn [null_iterator block_it node_eqb]. eauto.
  - pose proof (nth_error_lt _ _ _ _ Hn) as Hlt.
    assert (Hnb : blocks d <> []) by (destruct (blocks d); [simpl in Hlt; lia | discriminate]).
    cbn [block_it item_it node_eqb].
    rewrite (iter_diff_spec _ d _ (offset (blocks d) b + i) (deque_begin d) 0 Hwf Hnb
               (points_pos d b blk i Hn Hi Hc) (points_begin _ d Hne)).
    cbn [Nat.leb]. rewrite Nat.sub_0_r.
    replace (Z.of_nat (total_size d) <=? Z.of_nat (offset (blocks d) b + i))%Z with true
      by (symmetry; apply Z.leb_le; lia).
    eauto.
Qed.

(** What a call of [erase] leaves, whatever the iterator. *)
Lemma erase_outcome d pos :
  wf d ->
  match erase pos d with
  | (Ret _, d') => wf d' /\ total_size d' = total_size d - 1
  | (Throw _, d') => d' = d
  | (Undefined, _) => True
  end.
Proof.
  intros Hwf.
  destruct (valid_iterator d pos) eqn:Ev.
  - apply valid_points in Ev.
    destruct (Nat.lt_ge_cases (index_of d pos) (total_size d)) as [Hlt|Hge].
    + destruct (erase_spec _ d pos _ Hwf Ev Hlt) as (it' & d' & Hrun & Hwf' & _ & Ht & _).
      rewrite Hrun. auto.
    + destruct (erase_end d pos _ Hwf Ev Hge) as (e & Hrun). now rewrite Hrun.
  - unfold erase. mrun.
    destruct (block_it pos) as [b|] eqn:Eb; cbn [node_eqb]; [|reflexivity].
    destruct (iter_diff d pos (deque_begin d)) as [dis| |]; [|reflexivity|exact I].
    destruct (Z.leb_spec (Z.of_nat (total_size d)) dis) as [|Hle]; [reflexivity|].
    destruct (dl_arrow (blocks d) (Some b)) as [blk| |] eqn:Ea; [|reflexivity|exact I].
    apply dl_arrow_inv in Ea. destruct Ea as (b' & Eb' & Hn). injection Eb' as <-.
    destruct (dl_erase (items blk) (item_it pos)) as [[l' q]| |] eqn:Ee;
      [|reflexivity|exact I].
    apply dl_erase_inv in Ee. destruct Ee as (i & Hi & Hp & Hl').
    exfalso. unfold valid_iterator in Ev. rewrite Eb, Hn, Hp in Ev.
    apply Nat.ltb_lt in Hi. congruence.
Qed.

(** An operation of a run either completes on a well-formed container,
    or throws and leaves the container as it was. *)
Lemma step_outcome d o :
  wf d ->
  match step o d with
  | (Ret _, d') => wf d'
  | (Throw _, d') => d' = d
  | (Undefined, _) => True
  end.
Proof.
  intro Hwf. destruct o as [v|v|i v|i| |]; cbn [step].
  - destruct (push_back_spec _ d v Hwf) as (d' & Hrun & Hwf' & _). now rewrite Hrun.
  - destruct (push_front_spec _ d v Hwf) as (d' & Hrun & Hwf' & _). now rewrite Hrun.
  - mrun. destruct (iter_plus d (deque_begin d) (Z.of_nat i)) as [pos| |];
      [|reflexivity|exact I].
    pose proof (insert_outcome _ d pos v Hwf) as H.
    destruct (insert pos v d) as [[r| |] d']; auto; tauto.
  - mrun. destruct (iter_plus d (deque_begin d) (Z.of_nat i)) as [pos| |];
      [|reflexivity|exact I].
    pose proof (erase_outcome d pos Hwf) as H.
    destruct (erase pos d) as [[r| |] d']; auto; tauto.
  - destruct (pop_back_spec _ d Hwf) as [H0 H1].
    destruct (Nat.eq_dec (total_size d) 0) as [E|E].
    + now rewrite (H0 E).
    + destruct (H1 ltac:(lia)) as (d' & Hrun & Hwf' & _). now rewrite Hrun.
  - destruct (pop_front_spec _ d Hwf) as [H0 H1].
    destruct (Nat.eq_dec (total_size d) 0) as [E|E].
    + now rewrite (H0 E).
    + destruct (H1 ltac:(lia)) as (d' & Hrun & Hwf' & _). now rewrite Hrun.
Qed.

(** An operation of a run against the flat reference model. *)
Lemma step_spec d o :
  wf d -> fits_int d -> (Z.of_nat (op_index o) <= INT_MAX)%Z ->
  exists r d',
    step o d = (r, d') /\ r <> Undefined /\ wf d'
    /\ to_list d' = ref_step o (to_list d)
    /\ total_size d' <= S (total_size d).
Proof.
  intros Hwf Hfit Hidx. pose proof (wf_length _ d Hwf) as Hlen.
  pose proof Hwf as [Htot Hne].
  destruct o as [v|v|i v|i| |]; cbn [step ref_step op_index] in *.
  - destruct (push_back_spec _ d v Hwf) as (d' & Hrun & Hwf' & Hl & Ht).
    exists (Ret tt), d'. repeat split; auto; [discriminate | apply Hwf' | apply Hwf' | lia].
  - destruct (push_front_spec _ d v Hwf) as (d' & Hrun & Hwf' & Hl & Ht).
    exists (Ret tt), d'. repeat split; auto; [discriminate | apply Hwf' | apply Hwf' | lia].
  - mrun.
    destruct (iter_plus_spec _ d (deque_begin d) 0 i Hwf Hfit (points_begin _ d Hne) Hidx)
      as [Hin Hout].
    cbn [Nat.add] in Hin, Hout. rewrite <- Hlen.
    destruct (Nat.leb_spec i (total_size d)) as [Hle|Hgt].
    + destruct (Hin Hle) as (pos & Hplus & Hp). rewrite Hplus.
      destruct (insert_spec _ d pos i v Hwf Hp) as (it' & d' & Hrun & Hwf' & Hl & Ht & _).
      rewrite Hrun. exists (Ret tt), d'.
      repeat split; auto; [discriminate | apply Hwf' | apply Hwf' | lia].
    + rewrite (Hout Hgt). exists (Throw (out_of_range ""%string)), d.
      repeat split; auto; discriminate.
  - mrun.
    destruct (iter_plus_spec _ d (deque_begin d) 0 i Hwf Hfit (points_begin _ d Hne) Hidx)
      as [Hin Hout].
    cbn [Nat.add] in Hin, Hout. rewrite <- Hlen.
    destruct (Nat.ltb_spec i (total_size d)) as [Hlt|Hge].
    + destruct (Hin ltac:(lia)) as (pos & Hplus & Hp). rewrite Hplus.
      destruct (erase_spec _ d pos i Hwf Hp Hlt) as (it' & d' & Hrun & Hwf' & Hl & Ht & _).
      rewrite Hrun. exists (Ret tt), d'.
      repeat split; auto; [discriminate | apply Hwf' | apply Hwf' | lia].
    + destruct (Nat.eq_dec i (total_size d)) as [Heq|Hne'].
      * destruct (Hin ltac:(lia)) as (pos & Hplus & Hp). rewrite Hplus.
        destruct (erase_end d pos i Hwf Hp ltac:(lia)) as (e & Hrun). rewrite Hrun.
        exists (Throw e), d. repeat split; auto; discriminate.
      * rewrite (Hout ltac:(lia)). exists (Throw (out_of_range ""%string)), d.
        repeat split; auto; discriminate.
  - destruct (pop_back_spec _ d Hwf) as [H0 H1].
    destruct (Nat.eq_dec (total_size d) 0) as [E|E].
    + rewrite (H0 E). exists (Throw (out_of_range ""%string)), d.
      repeat split; auto; [discriminate|].
      destruct (to_list d); [reflexivity | simpl in Hlen; lia].
    + destruct (H1 ltac:(lia)) as (d' & Hrun & Hwf' & Hl & Ht).
      exists (Ret tt), d'. repeat split; auto; [discriminate | apply Hwf' | apply Hwf' | lia].
  - destruct (pop_front_spec _ d Hwf) as [H0 H1].
    destruct (Nat.eq_dec (total_size d) 0) as [E|E].
    + rewrite (H0 E). exists (Throw (out_of_range ""%string)), d.
      repeat split; auto; [discriminate|].
      destruct (to_list d); [reflexivity | simpl in Hlen; lia].
    + destruct (H1 ltac:(lia)) as (d' & Hrun & Hwf' & Hl & Ht).
      exists (Ret tt), d'. repeat split; auto; [discriminate | apply Hwf' | apply Hwf' | lia].
Qed.

Lemma run_spec ops : forall d,
  wf d -> (Z.of_nat (total_size d + length ops) <= INT_MAX)%Z ->
  Forall (fun o : op T => (Z.of_nat (op_index o) <= INT_MAX)%Z) ops ->
  exists d', run ops d = Ret d' /\ wf d' /\ to_list d' = ref_run ops (to_list d).
Proof.
  induction ops as [|o ops IH]; intros d Hwf Hfit Hidx.
  - exists d. auto.
  - inversion Hidx as [|? ? Ho Hrest]; subst. cbn [length] in Hfit.
    destruct (step_spec d o Hwf ltac:(unfold fits_int; lia) Ho)
      as (r & d1 & Hstep & Hr & Hwf1 & Hl1 & Ht1).
    destruct (IH d1 Hwf1 ltac:(lia) Hrest) as (d' & Hrun & Hwf' & Hl').
    exists d'. cbn [run]. rewrite Hstep.
    unfold ref_run in *. cbn [fold_left]. rewrite <- Hl1.
    destruct r; [auto | auto | contradiction].
Qed.

(** Every container a run builds is well-formed. *)
Lemma run_wf ops : forall d d', wf d -> run ops d = Ret d' -> wf d'.
Proof.
  induction ops as [|o ops IH]; intros d d' Hwf Hrun; cbn [run] in Hrun.
  - now injection Hrun as <-.
  - pose proof (step_outcome d o Hwf) as Hs.
    destruct (step o d) as [[r| |] d1]; [| |discriminate].
    + eapply IH; eauto.
    + subst d1. eapply IH; eauto.
Qed.

Lemma wf_new : wf (deque_new T).
Proof. split; [reflexivity | constructor]. Qed.

Lemma reachable_wf ops d : run ops (deque_new T) = Ret d -> wf d.
Proof. apply run_wf. apply wf_new. Qed.

End OutcomeFacts.

(** * The properties of the specification *)

Section Specification.
Variable T : Type.
Implicit Types (d : deque T) (it pos : iterator) (ops : list (op T)).

(** C1.  For every finite sequence of push_back, push_front, insert,
    erase, pop_back and pop_front operations applied to the empty
    container, after every operation (after every prefix of the sequence)
    the items of the blocks, concatenated in block order, are the sequence
    the flat reference model holds after the same operations, and size()
    is the sum of the item counts of the blocks and the length of the
    reference model.  The positions of insert and erase are passed as
    [begin() + i], an [int], and the run has at most INT_MAX operations. *)
Theorem run_matches_reference ops (n : nat) :
  (Z.of_nat (length ops) <= INT_MAX)%Z ->
  Forall (fun o : op T => (Z.of_nat (op_index o) <= INT_MAX)%Z) ops ->
  exists d,
    run (firstn n ops) (deque_new T) = Ret d
    /\ to_list d = ref_run (firstn n ops) []
    /\ deque_size d = items_count (blocks d)
    /\ deque_size d = length (ref_run (firstn n ops) []).
Proof.
  intros Hlen Hidx.
  destruct (run_spec T (firstn n ops) (deque_new T) (wf_new T)) as (d & Hrun & Hwf & Hl).
  - cbn [deque_new total_size Nat.add]. rewrite length_firstn. lia.
  - rewrite <- (firstn_skipn n ops) in Hidx. apply Forall_app in Hidx. apply Hidx.
  - exists d. split; [exact Hrun|]. split; [exact Hl|].
    split; [apply Hwf|]. unfold deque_size.
    rewrite (wf_length _ d Hwf). now rewrite Hl.
Qed.

(** C2.  at(i) below size() returns the element at the logical position
    [i], which is the item at the local offset in the block that holds the
    position; at(i) from size() on throws (std::out_of_range, the
    exception of every failure of the source). *)
Theorem at_matches_model d i :
  wf d ->
  (i < deque_size d ->
   exists x, nth_error (to_list d) i = Some x /\ deque_at d i = Ret x)
  /\ (forall b blk x,
        nth_error (blocks d) b = Some blk ->
        offset (blocks d) b <= i ->
        nth_error (items blk) (i - offset (blocks d) b) = Some x ->
        deque_at d i = Ret x)
  /\ (deque_size d <= i -> deque_at d i = Throw (out_of_range ""%string)).
Proof.
  intros Hwf. pose proof (wf_length _ d Hwf) as Hlen. unfold deque_size, deque_at.
  assert (Hloop : at_loop (blocks d) 0 i
                  = match nth_error (to_list d) i with
                    | Some x => Ret x
                    | None => Throw (out_of_range ""%string)
                    end).
  { rewrite at_loop_spec by lia. now rewrite Nat.sub_0_r. }
  split; [|split].
  - intro Hi. replace (total_size d <=? i) with false by (symmetry; apply Nat.leb_gt; lia).
    destruct (nth_error_ex _ (to_list d) i ltac:(lia)) as [x Hx].
    exists x. split; [exact Hx|]. now rewrite Hloop, Hx.
  - intros b blk x Hn Hoff Hx.
    pose proof (nth_error_lt _ _ _ _ Hx) as Hlt.
    pose proof (offset_block_le _ _ _ _ Hn) as Hle.
    destruct Hwf as [Htot _].
    replace (total_size d <=? i) with false by (symmetry; apply Nat.leb_gt; lia).
    rewrite Hloop.
    destruct (blocks_split _ _ _ _ Hn) as (pre & rest & Hb & Hpl & Hoff').
    unfold to_list. rewrite Hb, to_list_mid.
    rewrite nth_error_app2 by lia. rewrite <- Hoff'.
    rewrite nth_error_app1 by lia. now rewrite Hx.
  - intro Hi. now replace (total_size d <=? i) with true by (symmetry; apply Nat.leb_le; lia).
Qed.

Lemma last_of_snoc (x y : T) (l l' : list T) : x :: l = l' ++ [y] -> last l x = y.
Proof.
  destruct l' as [|z l'']; simpl; intro H; injection H as -> ->.
  - reflexivity.
  - apply last_last.
Qed.

(** C3.  front(), back(), pop_back() and pop_front() throw exactly when
    size() is 0 (std::out_of_range, the exception of every failure of the
    source), and then change nothing; on a container with elements front()
    and back() return the first and the last element, and pop_front() and
    pop_back() remove exactly that element, leave no empty block and
    decrement size() by one. *)
Theorem ends_of_the_sequence d :
  wf d ->
  (deque_size d = 0 ->
   deque_front d = Throw (out_of_range ""%string)
   /\ deque_back d = Throw (out_of_range ""%string)
   /\ pop_back d = (Throw (out_of_range ""%string), d)
   /\ pop_front d = (Throw (out_of_range ""%string), d))
  /\ (0 < deque_size d ->
      exists x l y l',
        to_list d = x :: l /\ to_list d = l' ++ [y]
        /\ deque_front d = Ret x /\ deque_back d = Ret y
        /\ (exists d', pop_front d = (Ret tt, d') /\ to_list d' = l
                       /\ deque_size d' = deque_size d - 1
                       /\ nonempty_blocks (blocks d') /\ wf d')
        /\ (exists d', pop_back d = (Ret tt, d') /\ to_list d' = l'
                       /\ deque_size d' = deque_size d - 1
                       /\ nonempty_blocks (blocks d') /\ wf d')).
Proof.
  intros Hwf. pose proof (wf_length _ d Hwf) as Hlen. unfold deque_size.
  pose proof (deque_front_spec _ d Hwf) as Hf.
  pose proof (deque_back_spec _ d Hwf) as Hb.
  destruct (pop_back_spec _ d Hwf) as [Hpb0 Hpb1].
  destruct (pop_front_spec _ d Hwf) as [Hpf0 Hpf1].
  split; intro Hsz.
  - destruct (to_list d); [|simpl in Hlen; lia]. auto.
  - destruct (to_list d) as [|x l] eqn:El; [simpl in Hlen; lia|].
    destruct (exists_last (l := x :: l) ltac:(discriminate)) as (l' & y & El').
    exists x, l, y, l'. split; [reflexivity|]. split; [exact El'|].
    split; [exact Hf|]. split.
    { rewrite Hb. f_equal. now apply last_of_snoc with (l' := l'). }
    split.
    + destruct (Hpf1 Hsz) as (d' & Hrun & Hwf' & Hl & Ht).
      exists d'. repeat split; auto; apply Hwf'.
    + destruct (Hpb1 Hsz) as (d' & Hrun & Hwf' & Hl & Ht).
      exists d'. repeat split; auto; try apply Hwf'.
      rewrite Hl, El'. apply removelast_last.
Qed.

(** C4.  Balance changes nothing when there are no blocks, or when
    [floor(sqrt(total_size)) + 1] is the cached [block_size].  Otherwise it
    stores that value and carries out one pass of the specification over
    the blocks: a block of more than [2 * block_size] items is split in
    half, its second half going in order to a new block right after it; a
    block of less than [block_size / 2] items is merged with its successor
    only when the two hold at most [block_size] items; the order of the
    elements stays. *)
Theorem Balance_is_the_pass d :
  exists out,
    Balance d = (Ret tt, {| blocks := out; total_size := total_size d;
                            block_size := balanced_block_size d |})
    /\ concat (map (@items T) out) = to_list d
    /\ if rescans d
       then balanced_block_size d = Nat.sqrt (total_size d) + 1
            /\ rebalance_pass (Nat.sqrt (total_size d) + 1) (blocks d) out
       else Balance d = (Ret tt, d) /\ out = blocks d.
Proof.
  destruct (Balance_run T d) as (out & Hrun & Hout).
  exists out. split; [exact Hrun|].
  unfold rescans, balanced_block_size in *. unfold to_list.
  destruct (dl_empty (blocks d)) eqn:Eemp; cbn [negb andb] in *.
  - subst out. split; [reflexivity|]. split; [|reflexivity].
    rewrite Hrun. now destruct d.
  - destruct (Nat.eqb_spec (Nat.sqrt (total_size d) + 1) (block_size d)) as [Heq|Hne];
      cbn [negb] in *.
    + subst out. split; [reflexivity|]. split; [|reflexivity].
      rewrite Hrun, Heq. now destruct d.
    + split; [|split; [reflexivity | exact Hout]].
      eapply rebalance_pass_concat; eauto.
Qed.

(** C5.  A mutating operation that returns on a well-formed container
    (one without an empty block, as every run builds them) leaves no block
    with zero items, whatever iterator insert and erase receive. *)
Theorem mutators_leave_no_empty_block d :
  wf d ->
  (forall v d', push_back v d = (Ret tt, d') -> nonempty_blocks (blocks d'))
  /\ (forall v d', push_front v d = (Ret tt, d') -> nonempty_blocks (blocks d'))
  /\ (forall d', pop_back d = (Ret tt, d') -> nonempty_blocks (blocks d'))
  /\ (forall d', pop_front d = (Ret tt, d') -> nonempty_blocks (blocks d'))
  /\ (forall pos v it' d', insert pos v d = (Ret it', d') -> nonempty_blocks (blocks d'))
  /\ (forall pos it' d', erase pos d = (Ret it', d') -> nonempty_blocks (blocks d')).
Proof.
  intro Hwf. repeat split.
  - intros v d' H. pose proof (step_outcome T d (PushBack v) Hwf) as Hs.
    cbn [step] in Hs. rewrite H in Hs. apply Hs.
  - intros v d' H. pose proof (step_outcome T d (PushFront v) Hwf) as Hs.
    cbn [step] in Hs. rewrite H in Hs. apply Hs.
  - intros d' H. pose proof (step_outcome T d PopBack Hwf) as Hs.
    cbn [step] in Hs. rewrite H in Hs. apply Hs.
  - intros d' H. pose proof (step_outcome T d PopFront Hwf) as Hs.
    cbn [step] in Hs. rewrite H in Hs. apply Hs.
  - intros pos v it' d' H. pose proof (insert_outcome T d pos v Hwf) as Hs.
    rewrite H in Hs. apply Hs.
  - intros pos it' d' H. pose proof (erase_outcome T d pos Hwf) as Hs.
    rewrite H in Hs. apply Hs.
Qed.

Lemma insert_then_erase_list (l : list T) k v :
  k <= length l ->
  firstn k (firstn k l ++ v :: skipn k l) ++ skipn (S k) (firstn k l ++ v :: skipn k l) = l.
Proof.
  intro Hk.
  assert (Hf : length (firstn k l) = k) by (rewrite length_firstn; lia).
  rewrite <- Hf at 1. rewrite firstn_mid.
  rewrite <- Hf at 2. rewrite skipn_S_mid.
  apply firstn_skipn.
Qed.

(** C6.  insert at an iterator of the container (the end iterator
    included), then erase at the iterator insert returned: the sequence and
    the size are the ones before. *)
Theorem insert_erase_round_trip d pos v :
  wf d -> valid_iterator d pos = true ->
  exists it1 d1 it2 d2,
    insert pos v d = (Ret it1, d1)
    /\ erase it1 d1 = (Ret it2, d2)
    /\ to_list d2 = to_list d
    /\ deque_size d2 = deque_size d.
Proof.
  intros Hwf Hv. apply valid_points in Hv.
  pose proof (points_le _ _ _ _ Hv) as Hk.
  pose proof (wf_length _ d Hwf) as Hlen.
  destruct Hwf as [Htot Hne]. pose proof (conj Htot Hne) as Hwf.
  destruct (insert_spec T d pos _ v Hwf Hv) as (it1 & d1 & Hins & Hwf1 & Hl1 & Ht1 & Hp1).
  destruct (erase_spec T d1 it1 _ Hwf1 Hp1 ltac:(lia))
    as (it2 & d2 & Hera & Hwf2 & Hl2 & Ht2 & Hp2).
  exists it1, d1, it2, d2. repeat split; auto.
  - rewrite Hl2, Hl1. apply insert_then_erase_list. lia.
  - unfold deque_size. lia.
Qed.

(** C7.  For an iterator [it] of the container and [n >= 0] with the
    target inside [begin(), end()]: [it + n] is the iterator that [n]
    prefix increments of [it] give, and [(it + n) - n] is [it]. *)
Theorem plus_is_repeated_increment d it (n : nat) :
  wf d -> fits_int d -> valid_iterator d it = true ->
  index_of d it + n <= deque_size d ->
  exists it',
    iter_plus d it (Z.of_nat n) = Ret it'
    /\ incr_times n d it = Ret it'
    /\ iter_minus d it' (Z.of_nat n) = Ret it.
Proof.
  intros Hwf Hfit Hv Hn. apply valid_points in Hv. unfold deque_size in Hn.
  assert (Hint : (Z.of_nat n <= INT_MAX)%Z) by (unfold fits_int in Hfit; lia).
  destruct (iter_plus_spec T d it _ n Hwf Hfit Hv Hint) as [Hin _].
  destruct (Hin Hn) as (it' & Hplus & Hp').
  destruct (incr_times_spec T d n it _ Hwf Hv Hn) as (it1 & Hinc & Hp1).
  destruct (iter_minus_spec T d it' _ n Hwf Hfit Hp' Hint ltac:(lia)) as (it2 & Hmin & Hp2).
  exists it'. split; [exact Hplus|]. split.
  - rewrite Hinc. f_equal. apply (points_inj T d it1 it' _ (proj2 Hwf) Hp1 Hp').
  - rewrite Hmin. f_equal.
    replace (index_of d it + n - n) with (index_of d it) in Hp2 by lia.
    apply (points_inj T d it2 it _ (proj2 Hwf) Hp2 Hv).
Qed.


(** C9.  A mutating operation that throws on a well-formed container
    leaves the element count, the block list and the items of every block
    as they were. *)
Theorem failing_mutator_changes_nothing d :
  wf d ->
  (forall v e d', push_back v d = (Throw e, d') -> d' = d)
  /\ (forall v e d', push_front v d = (Throw e, d') -> d' = d)
  /\ (forall e d', pop_back d = (Throw e, d') -> d' = d)
  /\ (forall e d', pop_front d = (Throw e, d') -> d' = d)
  /\ (forall pos v e d', insert pos v d = (Throw e, d') -> d' = d)
  /\ (forall pos e d', erase pos d = (Throw e, d') -> d' = d).
Proof.
  intro Hwf. repeat split.
  - intros v e d' H. pose proof (step_outcome T d (PushBack v) Hwf) as Hs.
    cbn [step] in Hs. now rewrite H in Hs.
  - intros v e d' H. pose proof (step_outcome T d (PushFront v) Hwf) as Hs.
    cbn [step] in Hs. now rewrite H in Hs.
  - intros e d' H. pose proof (step_outcome T d PopBack Hwf) as Hs.
    cbn [step] in Hs. now rewrite H in Hs.
  - intros e d' H. pose proof (step_outcome T d PopFront Hwf) as Hs.
    cbn [step] in Hs. now rewrite H in Hs.
  - intros pos v e d' H. pose proof (insert_outcome T d pos v Hwf) as Hs.
    now rewrite H in Hs.
  - intros pos e d' H. pose proof (erase_outcome T d pos Hwf) as Hs.
    now rewrite H in Hs.
Qed.

(** C10.  begin() equals end() exactly on the empty container, where
    both are the null iterator; on a container with elements begin() is the
    first item of the first block and end() is the null item position of
    the tail block. *)
Theorem begin_equals_end_iff_empty d :
  wf d ->
  (iter_eqb (deque_begin d) (deque_end d) = true <-> deque_empty d = true)
  /\ (deque_empty d = true ->
      deque_begin d = null_iterator /\ deque_end d = null_iterator)
  /\ (deque_empty d = false ->
      deque_begin d = {| item_it := Some 0; block_it := Some 0 |}
      /\ deque_end d = {| item_it := None; block_it := Some (length (blocks d) - 1) |}
      /\ 0 < length (blocks d)).
Proof.
  intros Hwf. pose proof Hwf as [Htot Hne]. unfold deque_empty, deque_begin, deque_end.
  destruct (blocks d) as [|b0 rest] eqn:Hb.
  - assert (Hz : total_size d = 0) by (apply wf_blocks_nil; auto).
    rewrite Hz. cbn. repeat split; auto; discriminate.
  - assert (Hnz : total_size d <> 0).
    { intro Hz. pose proof (wf_total_0 _ d Hwf Hz). congruence. }
    inversion Hne as [|? ? Hb0 _]; subst.
    replace (total_size d =? 0) with false by (symmetry; now apply Nat.eqb_neq).
    destruct (items b0) as [|x l] eqn:El; [contradiction|].
    cbn [dl_begin dl_get_tail]. unfold iter_eqb, dl_end. cbn [block_it item_it].
    change (node_eqb (Some 0) None) with false. rewrite andb_false_r.
    repeat split; try discriminate; auto. cbn [length]. lia.
Qed.

End Specification.

(** * Concrete containers *)

Lemma d3_reachable : run [PushBack 10; PushBack 11; PushBack 12] (deque_new nat) = Ret d3.
Proof. reflexivity. Qed.

Lemma d1_reachable : run [PushBack 7] (deque_new nat) = Ret d1.
Proof. reflexivity. Qed.

Lemma wf_d3 : wf d3.
Proof. split; [reflexivity | repeat constructor; discriminate]. Defined.

Lemma wf_d1 : wf d1.
Proof. split; [reflexivity | repeat constructor; discriminate]. Defined.

Lemma fits_d3 : fits_int d3.
Proof. unfold fits_int, INT_MAX. cbn. lia. Defined.

Lemma run_matches_reference_witness :
  (Z.of_nat (length ops7) <= INT_MAX)%Z
  /\ Forall (fun o : op nat => (Z.of_nat (op_index o) <= INT_MAX)%Z) ops7
  /\ exists d,
       run (firstn 3 ops7) (deque_new nat) = Ret d
       /\ to_list d = ref_run (firstn 3 ops7) []
       /\ deque_size d = items_count (blocks d)
       /\ deque_size d = length (ref_run (firstn 3 ops7) []).
Proof.
  assert (H1 : (Z.of_nat (length ops7) <= INT_MAX)%Z) by (unfold INT_MAX; cbn; lia).
  assert (H2 : Forall (fun o : op nat => (Z.of_nat (op_index o) <= INT_MAX)%Z) ops7)
    by (repeat constructor; unfold INT_MAX; cbn; lia).
  split; [exact H1|]. split; [exact H2|].
  exact (run_matches_reference nat ops7 3 H1 H2).
Defined.

Lemma at_matches_model_witness :
  wf d3
  /\ ((2 < deque_size d3 ->
       exists x, nth_error (to_list d3) 2 = Some x /\ deque_at d3 2 = Ret x)
      /\ (forall b blk x,
            nth_error (blocks d3) b = Some blk ->
            offset (blocks d3) b <= 2 ->
            nth_error (items blk) (2 - offset (blocks d3) b) = Some x ->
            deque_at d3 2 = Ret x)
      /\ (deque_size d3 <= 2 -> deque_at d3 2 = Throw (out_of_range ""%string))).
Proof. split; [exact wf_d3 | exact (at_matches_model nat d3 2 wf_d3)]. Defined.

Lemma ends_of_the_sequence_witness :
  wf d3
  /\ exists x l y l',
       to_list d3 = x :: l /\ to_list d3 = l' ++ [y]
       /\ deque_front d3 = Ret x /\ deque_back d3 = Ret y
       /\ (exists d', pop_front d3 = (Ret tt, d') /\ to_list d' = l
                      /\ deque_size d' = deque_size d3 - 1
                      /\ nonempty_blocks (blocks d') /\ wf d')
       /\ (exists d', pop_back d3 = (Ret tt, d') /\ to_list d' = l'
                      /\ deque_size d' = deque_size d3 - 1
                      /\ nonempty_blocks (blocks d') /\ wf d').
Proof.
  split; [exact wf_d3|].
  apply (proj2 (ends_of_the_sequence nat d3 wf_d3)). cbn. lia.
Defined.

Lemma mutators_leave_no_empty_block_witness :
  wf d1 /\ (forall d', pop_back d1 = (Ret tt, d') -> nonempty_blocks (blocks d')).
Proof.
  split; [exact wf_d1|].
  exact (proj1 (proj2 (proj2 (mutators_leave_no_empty_block nat d1 wf_d1)))).
Defined.

Lemma insert_erase_round_trip_witness :
  wf d3 /\ valid_iterator d3 (deque_end d3) = true
  /\ exists it1 d1' it2 d2,
       insert (deque_end d3) 13 d3 = (Ret it1, d1')
       /\ erase it1 d1' = (Ret it2, d2)
       /\ to_list d2 = to_list d3
       /\ deque_size d2 = deque_size d3.
Proof.
  split; [exact wf_d3|]. split; [reflexivity|].
  exact (insert_erase_round_trip nat d3 (deque_end d3) 13 wf_d3 eq_refl).
Defined.

Lemma plus_is_repeated_increment_witness :
  wf d3 /\ fits_int d3 /\ valid_iterator d3 (deque_begin d3) = true
  /\ index_of d3 (deque_begin d3) + 3 <= deque_size d3
  /\ exists it',
       iter_plus d3 (deque_begin d3) (Z.of_nat 3) = Ret it'
       /\ incr_times 3 d3 (deque_begin d3) = Ret it'
       /\ iter_minus d3 it' (Z.of_nat 3) = Ret (deque_begin d3).
Proof.
  assert (H : index_of d3 (deque_begin d3) + 3 <= deque_size d3) by (cbn; lia).
  split; [exact wf_d3|]. split; [exact fits_d3|]. split; [reflexivity|].
  split; [exact H|].
  exact (plus_is_repeated_increment nat d3 (deque_begin d3) 3 wf_d3 fits_d3 eq_refl H).
Defined.



Lemma failing_mutator_changes_nothing_witness :
  wf (deque_new nat)
  /\ pop_back (deque_new nat) = (Throw (out_of_range ""%string), deque_new nat)
  /\ (forall e d', pop_back (deque_new nat) = (Throw e, d') -> d' = deque_new nat).
Proof.
  split; [exact (wf_new nat)|]. split; [reflexivity|].
  exact (proj1 (proj2 (proj2 (failing_mutator_changes_nothing nat (deque_new nat)
                                (wf_new nat))))).
Defined.

Lemma begin_equals_end_iff_empty_witness :
  wf d3
  /\ (iter_eqb (deque_begin d3) (deque_end d3) = true <-> deque_empty d3 = true)
  /\ (deque_empty d3 = true ->
      deque_begin d3 = null_iterator /\ deque_end d3 = null_iterator)
  /\ (deque_empty d3 = false ->
      deque_begin d3 = {| item_it := Some 0; block_it := Some 0 |}
      /\ deque_end d3 = {| item_it := None; block_it := Some (length (blocks d3) - 1) |}
      /\ 0 < length (blocks d3)).
Proof. split; [exact wf_d3 | exact (begin_equals_end_iff_empty nat d3 wf_d3)]. Defined.

(** * Dereference and decrement *)

Section DerefFacts.
Variable T : Type.
Implicit Types (d : deque T) (b : nat) (blk : Block T) (bs : list (Block T)) (it : iterator).

Lemma nth_error_block bs b blk i :
  nth_error bs b = Some blk -> i < length (items blk) ->
  nth_error (concat (map (@items T) bs)) (offset bs b + i) = nth_error (items blk) i.
Proof.
  intros Hb Hi.
  destruct (blocks_split T bs b blk Hb) as (pre & rest & -> & _ & ->).
  rewrite to_list_mid.
  rewrite nth_error_app2 by lia.
  replace (length (concat (map (@items T) pre)) + i - length (concat (map (@items T) pre)))
    with i by lia.
  apply nth_error_app1; exact Hi.
Qed.

(** An iterator at an index that holds an element stands on an item. *)
Lemma points_item d it k :
  points d it k -> k < items_count (blocks d) ->
  exists b blk i,
    it = {| item_it := Some i; block_it := Some b |}
    /\ nth_error (blocks d) b = Some blk /\ i < length (items blk)
    /\ k = offset (blocks d) b + i.
Proof.
  intros Hp Hk. inversion Hp as [Hnil | b blk i Hb Hi Hor]; subst.
  - rewrite Hnil in Hk. cbn in Hk. lia.
  - assert (Hlt : i < length (items blk)).
    { destruct Hor as [H | H]; [exact H |].
      pose proof (offset_last T (blocks d) b blk Hb H). lia. }
    exists b, blk, i. rewrite (node_at_lt _ _ _ Hlt). auto.
Qed.

(** An iterator at the index [size()] has the null item position. *)
Lemma points_item_end d it k :
  points d it k -> items_count (blocks d) <= k -> item_it it = None.
Proof.
  intros Hp Hk. inversion Hp as [Hnil | b blk i Hb Hi Hor]; subst.
  - reflexivity.
  - pose proof (offset_block_le T (blocks d) b blk Hb).
    cbn [item_it]. apply node_at_ge. lia.
Qed.

Lemma iter_deref_spec d it k x :
  points d it k -> nth_error (to_list d) k = Some x -> iter_deref d it = Ret x.
Proof.
  intros Hp Hx.
  assert (Hk : k < items_count (blocks d)).
  { rewrite items_count_to_list. apply (nth_error_lt _ _ _ _ Hx). }
  destruct (points_item d it k Hp Hk) as (b & blk & i & -> & Hb & Hi & ->).
  unfold to_list in Hx. rewrite (nth_error_block _ _ _ _ Hb Hi) in Hx.
  unfold iter_deref. cbn [item_it block_it].
  rewrite (dl_arrow_nth _ _ _ _ Hb). cbn [rbind].
  unfold dl_deref. rewrite Hx. reflexivity.
Qed.

Lemma dl_get_tail_length (A : Type) (l : list A) :
  0 < length l -> dl_get_tail l = Some (length l - 1).
Proof.
  intros H. apply dl_get_tail_nonempty. intros ->. cbn in H. lia.
Qed.

Lemma item_begin_test (A : Type) (l : list A) i :
  i < length l -> node_eqb (Some i) (dl_begin l) = (i =? 0).
Proof.
  destruct l; cbn [length dl_begin node_eqb]; [lia | reflexivity].
Qed.

Lemma deque_end_nonempty d :
  0 < length (blocks d) ->
  deque_end d = {| item_it := dl_end; block_it := dl_get_tail (blocks d) |}.
Proof.
  unfold deque_end. destruct (blocks d); cbn [length]; [lia | reflexivity].
Qed.

Lemma end_test d b blk i :
  nth_error (blocks d) b = Some blk -> i <= length (items blk) ->
  iter_eqb {| item_it := node_at (items blk) i; block_it := Some b |} (deque_end d)
  = (S b =? length (blocks d)) && (i =? length (items blk)).
Proof.
  intros Hb Hi.
  pose proof (nth_error_lt _ _ _ _ Hb) as Hlt.
  rewrite (deque_end_nonempty d) by lia.
  unfold iter_eqb. cbn [block_it item_it].
  rewrite (tail_test T (blocks d) b Hlt).
  rewrite (node_eqb_node_at_end _ (items blk) i Hi).
  reflexivity.
Qed.

Lemma iter_decr_spec d it k :
  wf d -> points d it (S k) ->
  exists it', iter_decr d it = Ret it' /\ points d it' k.
Proof.
  intros [Hts Hne] Hp.
  inversion Hp as [Hnil | b blk i Hb Hi Hor]; subst.
  pose proof (nth_error_lt _ _ _ _ Hb) as Hlt.
  pose proof (nonempty_nth T _ _ _ Hne Hb) as Hpos.
  unfold iter_decr. rewrite (end_test d b blk i Hb Hi).
  destruct ((S b =? length (blocks d)) && (i =? length (items blk))) eqn:Eend.
  - apply andb_true_iff in Eend. destruct Eend as [Eb Ei].
    apply Nat.eqb_eq in Eb. apply Nat.eqb_eq in Ei. subst i.
    rewrite (dl_get_tail_length _ (blocks d)) by lia.
    replace (length (blocks d) - 1) with b by lia.
    rewrite (dl_arrow_nth _ _ _ _ Hb). cbn [rbind].
    rewrite (dl_get_tail_length _ (items blk) Hpos).
    eexists. split; [reflexivity |].
    rewrite <- (node_at_lt _ (items blk) (length (items blk) - 1)) by lia.
    replace k with (offset (blocks d) b + (length (items blk) - 1)) by lia.
    apply points_pos; [exact Hb | lia | left; lia].
  - assert (Hil : i < length (items blk)).
    { destruct Hor as [Hl | Hl]; [exact Hl |].
      apply andb_false_iff in Eend. destruct Eend as [E | E];
        apply Nat.eqb_neq in E; lia. }
    rewrite (node_at_lt _ _ _ Hil). cbn [block_it item_it].
    rewrite (begin_test T (blocks d) b Hlt).
    rewrite (dl_arrow_nth _ _ _ _ Hb). cbn [rbind].
    rewrite (item_begin_test _ (items blk) i Hil).
    change (node_eqb (Some i) dl_end) with false.
    destruct i as [| i'].
    + destruct b as [| b']; [rewrite offset_0 in H0; lia |].
      cbn [Nat.eqb rbind].
      rewrite (dl_decr_some _ (blocks d) b') by lia. cbn [rbind].
      destruct (nth_error_ex _ (blocks d) b') as [blk' Hb']; [lia |].
      rewrite (dl_arrow_nth _ _ _ _ Hb'). cbn [rbind].
      pose proof (nonempty_nth T _ _ _ Hne Hb') as Hpos'.
      rewrite (dl_get_tail_length _ (items blk') Hpos').
      eexists. split; [reflexivity |].
      rewrite <- (node_at_lt _ (items blk') (length (items blk') - 1)) by lia.
      pose proof (offset_S T _ _ _ Hb') as HS.
      replace k with (offset (blocks d) b' + (length (items blk') - 1)) by lia.
      apply points_pos; [exact Hb' | lia | left; lia].
    + cbn [Nat.eqb]. destruct (b =? 0); cbn [rbind];
        rewrite (dl_decr_some _ (items blk) i') by lia; cbn [rbind];
        (eexists; split; [reflexivity |]);
        rewrite <- (node_at_lt _ (items blk) i') by lia;
        (replace k with (offset (blocks d) b + i') by lia);
        (apply points_pos; [exact Hb | lia | left; lia]).
Qed.

Lemma iter_decr_begin d it :
  wf d -> blocks d <> [] -> points d it 0 ->
  iter_decr d it = Throw (out_of_range ""%string).
Proof.
  intros [Hts Hne] Hnb Hp.
  inversion Hp as [Hnil | b blk i Hb Hi Hor]; subst; [contradiction |].
  pose proof (nth_error_lt _ _ _ _ Hb) as Hlt.
  pose proof (nonempty_nth T _ _ _ Hne Hb) as Hpos.
  assert (Hi0 : i = 0) by lia. subst i.
  assert (Hb0 : b = 0).
  { destruct b as [| b']; [reflexivity |].
    destruct (nth_error_ex _ (blocks d) 0) as [blk0 Hb0]; [lia |].
    pose proof (offset_lt T _ 0 (S b') blk0 Hne Hb0 ltac:(lia)).
    pose proof (nonempty_nth T _ _ _ Hne Hb0). lia. }
  subst b.
  unfold iter_decr. rewrite (end_test d 0 blk 0 Hb Hi).
  replace (0 =? length (items blk)) with false by (symmetry; apply Nat.eqb_neq; lia).
  rewrite andb_false_r.
  rewrite (node_at_lt _ _ _ Hpos). cbn [block_it item_it].
  rewrite (begin_test T (blocks d) 0 Hlt).
  rewrite (dl_arrow_nth _ _ _ _ Hb). cbn [Nat.eqb rbind].
  rewrite (item_begin_test _ (items blk) 0 Hpos). reflexivity.
Qed.

End DerefFacts.

(** * Moving before the first element, and comparing iterators *)

Section BoundsFacts.
Variable T : Type.
Implicit Types (d : deque T) (b : nat) (blk : Block T) (bs : list (Block T)) (it : iterator).

Lemma minus_loop_throw d (Hne : nonempty_blocks (blocks d)) fuel : forall b blk r,
  nth_error (blocks d) b = Some blk ->
  b < fuel ->
  offset (blocks d) b + length (items blk) - 1 < r ->
  (x <~ minus_loop fuel d {| item_it := dl_get_tail (items blk); block_it := Some b |}
          (Z.of_nat r) ;; minus_finish d x) = Throw (out_of_range ""%string).
Proof.
  induction fuel as [| fuel IH]; intros b blk r Hn Hf Hr; [lia |].
  pose proof (nth_error_lt _ _ _ _ Hn) as Hlt.
  pose proof (nonempty_nth T _ _ _ Hne Hn) as Hpos.
  cbn [minus_loop].
  replace (0 <? Z.of_nat r)%Z with true by (symmetry; apply Z.ltb_lt; lia).
  cbn [block_it item_it]. rewrite (dl_arrow_nth _ _ _ _ Hn). cbn [rbind].
  unfold dl_size.
  replace (Z.of_nat r <? Z.of_nat (length (items blk)))%Z with false
    by (symmetry; apply Z.ltb_ge; lia).
  rewrite (begin_test T (blocks d) b Hlt).
  destruct b as [| b0]; [reflexivity |].
  cbn [Nat.eqb].
  rewrite (dl_decr_some _ (blocks d) b0) by lia. cbn [rbind].
  destruct (nth_error_ex _ (blocks d) b0) as [blk' Hn']; [lia |].
  rewrite (dl_arrow_nth _ _ _ _ Hn'). cbn [rbind].
  replace (Z.of_nat r - Z.of_nat (length (items blk)))%Z
    with (Z.of_nat (r - length (items blk))) by lia.
  pose proof (offset_S T _ _ _ Hn') as HS.
  pose proof (nonempty_nth T _ _ _ Hne Hn') as Hpos'.
  apply (IH b0 blk' (r - length (items blk)) Hn'); lia.
Qed.

Lemma minus_body_throw d b blk i r :
  nonempty_blocks (blocks d) ->
  (Z.of_nat (items_count (blocks d)) <= INT_MAX)%Z ->
  nth_error (blocks d) b = Some blk -> i < length (items blk) ->
  offset (blocks d) b + i < r ->
  minus_body d {| item_it := Some i; block_it := Some b |} (Z.of_nat r)
  = Throw (out_of_range ""%string).
Proof.
  intros Hne Hfit Hn Hi Hr. unfold minus_body. cbn [block_it item_it].
  pose proof (nth_error_lt _ _ _ _ Hn) as Hlt.
  pose proof (offset_block_le T _ _ _ Hn) as Hle.
  rewrite (dl_arrow_nth _ _ _ _ Hn). cbn [rbind].
  assert (Hd : std_distance (items blk) (dl_begin (items blk)) (Some i) = Ret (Z.of_nat i)).
  { rewrite dl_begin_node_at, <- (node_at_lt _ (items blk) i Hi).
    rewrite std_distance_node_at by lia. now rewrite Nat.sub_0_r. }
  rewrite Hd. cbn [rbind].
  rewrite to_int_small by (unfold INT_MAX in *; lia).
  replace (Z.of_nat r <=? Z.of_nat i)%Z with false by (symmetry; apply Z.leb_gt; lia).
  rewrite (begin_test T (blocks d) b Hlt).
  destruct b as [| b0]; [reflexivity |].
  cbn [Nat.eqb].
  rewrite (dl_decr_some _ (blocks d) b0) by lia. cbn [rbind].
  destruct (nth_error_ex _ (blocks d) b0) as [blk' Hn']; [lia |].
  rewrite (dl_arrow_nth _ _ _ _ Hn'). cbn [rbind].
  replace (Z.of_nat r - Z.of_nat i - 1)%Z with (Z.of_nat (r - i - 1)) by lia.
  pose proof (offset_S T _ _ _ Hn') as HS.
  pose proof (nonempty_nth T _ _ _ Hne Hn') as Hpos'.
  apply (minus_loop_throw d Hne (S (dl_size (blocks d))) b0 blk' (r - i - 1) Hn');
    unfold dl_size; lia.
Qed.

Lemma iter_minus_throw d it k n :
  wf d -> fits_int d -> blocks d <> [] -> points d it k -> k < n ->
  iter_minus d it (Z.of_nat n) = Throw (out_of_range ""%string).
Proof.
  intros [Htot Hne] Hfit Hnb Hp Hk. unfold fits_int in Hfit. rewrite Htot in Hfit.
  unfold iter_minus.
  replace (Z.of_nat n <? 0)%Z with false by (symmetry; apply Z.ltb_ge; lia).
  rewrite iter_minus_nonneg_unfold.
  replace (Z.of_nat n =? 0)%Z with false by (symmetry; apply Z.eqb_neq; lia).
  destruct Hp as [Hb | b blk i Hnth Hi Hc]; [contradiction |].
  pose proof (nth_error_lt _ _ _ _ Hnth) as Hlt.
  pose proof (nonempty_nth T _ _ _ Hne Hnth) as Hpos.
  rewrite (end_test T d b blk i Hnth Hi).
  destruct ((S b =? length (blocks d)) && (i =? length (items blk))) eqn:Eend.
  - apply andb_true_iff in Eend. destruct Eend as [Eb Ei].
    apply Nat.eqb_eq in Eb. apply Nat.eqb_eq in Ei. subst i.
    rewrite (dl_get_tail_length _ (blocks d)) by lia.
    replace (length (blocks d) - 1) with b by lia.
    rewrite (dl_arrow_nth _ _ _ _ Hnth). cbn [rbind fst snd].
    rewrite (dl_get_tail_length _ (items blk) Hpos).
    replace (Z.of_nat n - 1)%Z with (Z.of_nat (n - 1)) by lia.
    apply (minus_body_throw d b blk (length (items blk) - 1) (n - 1) Hne Hfit Hnth); lia.
  - assert (Hil : i < length (items blk)).
    { destruct Hc as [Hl | Hl]; [exact Hl |].
      apply andb_false_iff in Eend. destruct Eend as [E | E];
        apply Nat.eqb_neq in E; lia. }
    rewrite (node_at_lt _ _ _ Hil). cbn [rbind fst snd].
    apply (minus_body_throw d b blk i n Hne Hfit Hnth Hil Hk).
Qed.

Lemma iter_eqb_eq (a c : iterator) : iter_eqb a c = true <-> a = c.
Proof.
  unfold iter_eqb. rewrite andb_true_iff, !node_eqb_eq.
  destruct a as [ia ba], c as [ic bc]. simpl. split.
  - intros [-> ->]. reflexivity.
  - intros H. injection H as -> ->. auto.
Qed.

Lemma iter_neqb_negb (a c : iterator) : iter_neqb a c = negb (iter_eqb a c).
Proof.
  unfold iter_neqb, iter_eqb. now rewrite negb_andb.
Qed.

Lemma iter_eqb_index d a c i j :
  nonempty_blocks (blocks d) -> points d a i -> points d c j ->
  iter_eqb a c = (i =? j).
Proof.
  intros Hne Ha Hc.
  destruct (Nat.eqb_spec i j) as [-> | Hij].
  - apply iter_eqb_eq. apply (points_inj T d a c j Hne Ha Hc).
  - destruct (iter_eqb a c) eqn:E; [| reflexivity].
    apply iter_eqb_eq in E. subst c.
    elim Hij. apply (points_fun T d a i j Ha Hc).
Qed.

End BoundsFacts.

(** * The capacity and the block sizes that [Balance] leaves *)

Section CapacityFacts.
Variable T : Type.
Implicit Types (d : deque T) (b : Block T) (bs cur out : list (Block T)).

Lemma rebalance_pass_nil bsz cur out :
  rebalance_pass bsz cur out -> out = [] -> cur = [].
Proof.
  induction 1; intros E; try discriminate E. reflexivity.
Qed.

(** A call of [Balance] that leaves blocks leaves the capacity
    [sqrt(total_size) + 1]. *)
Lemma Balance_block_size d d' :
  Balance d = (Ret tt, d') -> blocks d' <> [] ->
  block_size d' = Nat.sqrt (total_size d') + 1.
Proof.
  intros Hrun Hnb.
  destruct (Balance_run T d) as (out & Hb & Hout).
  rewrite Hb in Hrun. injection Hrun as <-.
  cbn [blocks total_size block_size] in *.
  unfold balanced_block_size. unfold rescans in Hout.
  destruct (blocks d) as [| b0 bs0] eqn:E.
  - cbn in Hout. subst out. contradiction.
  - reflexivity.
Qed.

Lemma bind_inv (S A B : Type) (m : M S A) (k : A -> M S B) s r s' :
  bind m k s = (Ret r, s') -> exists a s1, m s = (Ret a, s1) /\ k a s1 = (Ret r, s').
Proof.
  unfold bind. destruct (m s) as [[a | e |] s1]; intros H; try discriminate H.
  exists a, s1. auto.
Qed.

Lemma half_bound (n M : nat) : n <= M -> n / 2 <= M / 2 /\ n - n / 2 <= M.
Proof.
  intros H. split.
  - apply Nat.Div0.div_le_mono. exact H.
  - lia.
Qed.

Lemma rebalance_pass_bound bsz M cur out :
  rebalance_pass bsz cur out ->
  Forall (fun b => length (items b) <= M) cur ->
  Forall (fun b => length (items b) <= Nat.max (2 * bsz) (M / 2)) out.
Proof.
  induction 1 as [| b rest out Hbig Hpass IH | b next rest out Hle Hsmall Hsum Hpass IH
                  | b rest out Hle Hsmall Hnext Hpass IH | b rest out Hle Hge Hpass IH];
    intros Hall.
  - constructor.
  - inversion Hall as [| ? ? Hb Hrest]; subst.
    destruct (half_bound (length (items b)) M Hb) as [H1 H2].
    constructor.
    + cbn [items]. rewrite length_firstn. lia.
    + apply IH. constructor; [| exact Hrest].
      cbn [items]. rewrite length_skipn. exact H2.
  - inversion Hall as [| ? ? Hb Hrest]; subst.
    inversion Hrest as [| ? ? Hn Hrest']; subst.
    constructor; [| apply IH; exact Hrest'].
    cbn [items]. rewrite length_app. lia.
  - inversion Hall as [| ? ? Hb Hrest]; subst.
    constructor; [lia | apply IH; exact Hrest].
  - inversion Hall as [| ? ? Hb Hrest]; subst.
    constructor; [lia | apply IH; exact Hrest].
Qed.

End CapacityFacts.

(** * Further properties of the iterators *)

Section IteratorProperties.
Variable T : Type.
Implicit Types (d : deque T) (it pos : iterator).

Lemma nonempty_of_size d : wf d -> deque_empty d = false -> blocks d <> [].
Proof.
  intros Hwf He Hnil. pose proof (wf_blocks_nil T d Hwf Hnil) as H0.
  unfold deque_empty in He. rewrite H0 in He. discriminate He.
Qed.

Lemma deref_at_end d it k :
  points d it k -> items_count (blocks d) <= k ->
  iter_deref d it = Throw (out_of_range "Iterator out of range"%string).
Proof.
  intros Hp Hk. unfold iter_deref.
  now rewrite (points_item_end T d it k Hp Hk).
Qed.

Lemma deref_any d it k :
  points d it k ->
  iter_deref d it = match nth_error (to_list d) k with
                    | Some x => Ret x
                    | None => Throw (out_of_range "Iterator out of range"%string)
                    end.
Proof.
  intros Hp. destruct (nth_error (to_list d) k) as [x |] eqn:E.
  - apply (iter_deref_spec T d it k x Hp E).
  - apply nth_error_None in E. unfold to_list in E.
    rewrite <- items_count_to_list in E.
    apply (deref_at_end d it k Hp E).
Qed.

Lemma deque_at_nth d k :
  deque_at d k = if total_size d <=? k then Throw (out_of_range ""%string)
                 else match nth_error (to_list d) k with
                      | Some x => Ret x
                      | None => Throw (out_of_range ""%string)
                      end.
Proof.
  unfold deque_at. destruct (total_size d <=? k); [reflexivity |].
  rewrite (at_loop_spec T (blocks d) 0 k) by lia.
  now rewrite Nat.sub_0_r.
Qed.

(** X1.  [*it] of an iterator that stands on an element is that element
    of the sequence, the one [at] returns for the index of the iterator. *)
Theorem deref_reads_element d it :
  wf d -> valid_iterator d it = true -> index_of d it < deque_size d ->
  exists x,
    nth_error (to_list d) (index_of d it) = Some x
    /\ iter_deref d it = Ret x
    /\ deque_at d (index_of d it) = Ret x.
Proof.
  intros Hwf Hv Hk. apply valid_points in Hv. unfold deque_size in Hk.
  pose proof (wf_length T d Hwf) as Hlen.
  destruct (nth_error_ex _ (to_list d) (index_of d it)) as [x Hx]; [lia |].
  exists x. split; [exact Hx |]. split.
  - apply (iter_deref_spec T d it _ x Hv Hx).
  - rewrite deque_at_nth, Hx.
    now replace (total_size d <=? index_of d it) with false
      by (symmetry; apply Nat.leb_gt; lia).
Qed.

(** X2.  A traversal: [k] prefix increments from [begin()] reach the
    iterator of index [k]; it differs from [end()] exactly while
    [k < size()], [*] reads the [k]-th element there, and on [end()]
    it throws. *)
Theorem traversal_visits_in_order d k :
  wf d -> k <= deque_size d ->
  exists it,
    incr_times k d (deque_begin d) = Ret it
    /\ iter_neqb it (deque_end d) = negb (k =? deque_size d)
    /\ iter_deref d it
       = match nth_error (to_list d) k with
         | Some x => Ret x
         | None => Throw (out_of_range "Iterator out of range"%string)
         end.
Proof.
  intros Hwf Hk. unfold deque_size in *.
  destruct Hwf as [Htot Hne]. pose proof (conj Htot Hne) as Hwf.
  destruct (incr_times_spec T d k (deque_begin d) 0 Hwf (points_begin T d Hne) Hk)
    as (it & Hrun & Hp).
  cbn [Nat.add] in Hp.
  exists it. split; [exact Hrun |]. split.
  - rewrite iter_neqb_negb.
    rewrite (iter_eqb_index T d it (deque_end d) k _ Hne Hp (points_end T d)).
    now rewrite Htot.
  - apply (deref_any d it k Hp).
Qed.

(** X3.  [--it] of an iterator behind the first element is the iterator
    one position before, and [++] brings it back. *)
Theorem decrement_moves_back d it :
  wf d -> valid_iterator d it = true -> 0 < index_of d it ->
  exists it',
    iter_decr d it = Ret it'
    /\ valid_iterator d it' = true
    /\ index_of d it' = index_of d it - 1
    /\ iter_incr d it' = Ret it.
Proof.
  intros Hwf Hv Hk. apply valid_points in Hv.
  pose proof (points_le T d it _ Hv) as Hle.
  destruct (index_of d it) as [| k] eqn:Ek; [lia |].
  destruct (iter_decr_spec T d it k Hwf Hv) as (it' & Hrun & Hp').
  destruct (points_valid T d it' k Hp') as [Hv' Hi'].
  assert (Hlt : k < total_size d) by (rewrite (proj1 Hwf); lia).
  destruct (iter_incr_spec T d it' k Hwf Hp' Hlt) as (it2 & Hinc & Hp2).
  exists it'. repeat split; auto; [lia |].
  rewrite Hinc. f_equal. apply (points_inj T d it2 it _ (proj2 Hwf) Hp2 Hv).
Qed.

(** X4.  [++it] followed by [--] is [it], for an iterator that stands
    on an element. *)
Theorem increment_then_decrement d it :
  wf d -> valid_iterator d it = true -> index_of d it < deque_size d ->
  exists it', iter_incr d it = Ret it' /\ iter_decr d it' = Ret it.
Proof.
  intros Hwf Hv Hk. apply valid_points in Hv. unfold deque_size in Hk.
  destruct (iter_incr_spec T d it _ Hwf Hv Hk) as (it' & Hinc & Hp').
  destruct (iter_decr_spec T d it' _ Hwf Hp') as (it2 & Hdec & Hp2).
  exists it'. split; [exact Hinc |].
  rewrite Hdec. f_equal. apply (points_inj T d it2 it _ (proj2 Hwf) Hp2 Hv).
Qed.

(** X5.  [--begin()] throws on a container that holds an element. *)
Theorem decrement_begin_throws d :
  wf d -> deque_empty d = false ->
  iter_decr d (deque_begin d) = Throw (out_of_range ""%string).
Proof.
  intros Hwf He.
  apply (iter_decr_begin T d (deque_begin d) Hwf (nonempty_of_size d Hwf He)).
  apply points_begin. exact (proj2 Hwf).
Qed.

End IteratorProperties.

(** * The bounds of the iterator arithmetic, and the iterators that
      [insert] and [erase] return *)

Section ArithmeticProperties.
Variable T : Type.
Implicit Types (d : deque T) (it pos : iterator).

Lemma iter_incr_end d : iter_incr d (deque_end d) = Throw (out_of_range ""%string).
Proof.
  unfold iter_incr, deque_end.
  destruct (blocks d) as [| b0 bs0]; [reflexivity |].
  cbn [block_it item_it].
  change (node_eqb (dl_get_tail (b0 :: bs0)) dl_end) with false.
  rewrite node_eqb_refl. reflexivity.
Qed.

Lemma nth_error_inserted (A : Type) (l : list A) k v :
  k <= length l -> nth_error (firstn k l ++ v :: skipn k l) k = Some v.
Proof.
  intros Hk. rewrite nth_error_app2 by (rewrite length_firstn; lia).
  rewrite length_firstn. replace (k - Nat.min k (length l)) with 0 by lia.
  reflexivity.
Qed.

Lemma nth_error_erased (A : Type) (l : list A) k :
  k <= length l ->
  nth_error (firstn k l ++ skipn (S k) l) k = nth_error l (S k).
Proof.
  intros Hk. rewrite nth_error_app2 by (rewrite length_firstn; lia).
  rewrite length_firstn. replace (k - Nat.min k (length l)) with 0 by lia.
  rewrite nth_error_skipn. now rewrite Nat.add_0_r.
Qed.

(** X6.  [it + n] throws when it would pass [end()], and so does
    [++end()]. *)
Theorem plus_past_end_throws d it (n : nat) :
  wf d -> fits_int d -> valid_iterator d it = true ->
  (Z.of_nat n <= INT_MAX)%Z -> deque_size d < index_of d it + n ->
  iter_plus d it (Z.of_nat n) = Throw (out_of_range ""%string)
  /\ iter_incr d (deque_end d) = Throw (out_of_range ""%string).
Proof.
  intros Hwf Hfit Hv Hn Hk. apply valid_points in Hv. unfold deque_size in Hk.
  split; [| apply iter_incr_end].
  destruct (iter_plus_spec T d it _ n Hwf Hfit Hv Hn) as [_ Hout].
  exact (Hout Hk).
Qed.

(** X7.  [it - n] for [0 <= n] up to the index of [it] is the iterator
    [n] positions before, and [+ n] brings it back. *)
Theorem minus_moves_back d it (n : nat) :
  wf d -> fits_int d -> valid_iterator d it = true -> n <= index_of d it ->
  exists it',
    iter_minus d it (Z.of_nat n) = Ret it'
    /\ valid_iterator d it' = true
    /\ index_of d it' = index_of d it - n
    /\ iter_plus d it' (Z.of_nat n) = Ret it.
Proof.
  intros Hwf Hfit Hv Hn. apply valid_points in Hv.
  pose proof (points_le T d it _ Hv) as Hle. rewrite <- (proj1 Hwf) in Hle.
  assert (Hint : (Z.of_nat n <= INT_MAX)%Z) by (unfold fits_int in Hfit; lia).
  destruct (iter_minus_spec T d it _ n Hwf Hfit Hv Hint Hn) as (it' & Hmin & Hp').
  destruct (points_valid T d it' _ Hp') as [Hv' Hi'].
  destruct (iter_plus_spec T d it' _ n Hwf Hfit Hp' Hint) as [Hin _].
  destruct (Hin ltac:(lia)) as (it2 & Hplus & Hp2).
  exists it'. repeat split; auto.
  rewrite Hplus. f_equal.
  replace (index_of d it - n + n) with (index_of d it) in Hp2 by lia.
  apply (points_inj T d it2 it _ (proj2 Hwf) Hp2 Hv).
Qed.

(** X8.  [it - n] throws when it would pass [begin()], on a container
    that holds an element. *)
Theorem minus_before_begin_throws d it (n : nat) :
  wf d -> fits_int d -> deque_empty d = false -> valid_iterator d it = true ->
  (Z.of_nat n <= INT_MAX)%Z -> index_of d it < n ->
  iter_minus d it (Z.of_nat n) = Throw (out_of_range ""%string).
Proof.
  intros Hwf Hfit He Hv _ Hk. apply valid_points in Hv.
  apply (iter_minus_throw T d it _ n Hwf Hfit (nonempty_of_size T d Hwf He) Hv Hk).
Qed.

(** X9.  Two iterators of a container are equal for [==] exactly when
    they have the same index, and [!=] is the negation. *)
Theorem equality_is_same_index d (a c : iterator) :
  wf d -> valid_iterator d a = true -> valid_iterator d c = true ->
  iter_eqb a c = (index_of d a =? index_of d c)
  /\ iter_neqb a c = negb (index_of d a =? index_of d c).
Proof.
  intros Hwf Ha Hc. apply valid_points in Ha. apply valid_points in Hc.
  rewrite iter_neqb_negb.
  rewrite (iter_eqb_index T d a c _ _ (proj2 Hwf) Ha Hc). auto.
Qed.

(** X10.  On a container that holds an element, [it - begin()] is the
    index of [it], so that [end() - begin()] is [size()], and
    [begin() - it] is its negation as a [size_t]. *)
Theorem distance_from_begin d it :
  wf d -> deque_empty d = false -> valid_iterator d it = true ->
  iter_diff d it (deque_begin d) = Ret (Z.of_nat (index_of d it))
  /\ iter_diff d (deque_end d) (deque_begin d) = Ret (Z.of_nat (deque_size d))
  /\ iter_diff d (deque_begin d) it = Ret (to_size_t (- Z.of_nat (index_of d it))).
Proof.
  intros Hwf He Hv. apply valid_points in Hv.
  pose proof (nonempty_of_size T d Hwf He) as Hnb.
  pose proof (points_begin T d (proj2 Hwf)) as Hb.
  pose proof (points_end T d) as Hend.
  split; [| split].
  - rewrite (iter_diff_spec T d it _ (deque_begin d) 0 Hwf Hnb Hv Hb).
    cbn [Nat.leb]. now rewrite Nat.sub_0_r.
  - rewrite (iter_diff_spec T d (deque_end d) _ (deque_begin d) 0 Hwf Hnb Hend Hb).
    cbn [Nat.leb]. rewrite Nat.sub_0_r. unfold deque_size. now rewrite (proj1 Hwf).
  - rewrite (iter_diff_spec T d (deque_begin d) 0 it _ Hwf Hnb Hb Hv).
    destruct (index_of d it) as [| k]; [reflexivity |].
    cbn [Nat.leb]. now rewrite Nat.sub_0_r.
Qed.

(** X11.  [insert] returns the iterator of the inserted value: it has
    the index [pos] had, [*] reads the value there, and so does [at]. *)
Theorem insert_returns_inserted d pos v :
  wf d -> valid_iterator d pos = true ->
  exists it' d',
    insert pos v d = (Ret it', d')
    /\ valid_iterator d' it' = true
    /\ index_of d' it' = index_of d pos
    /\ iter_deref d' it' = Ret v
    /\ deque_at d' (index_of d pos) = Ret v.
Proof.
  intros Hwf Hv. apply valid_points in Hv.
  pose proof (points_le T d pos _ Hv) as Hle.
  pose proof (wf_length T d Hwf) as Hlen. rewrite <- (proj1 Hwf) in Hle.
  destruct (insert_spec T d pos _ v Hwf Hv) as (it' & d' & Hins & Hwf' & Hl & Ht & Hp').
  destruct (points_valid T d' it' _ Hp') as [Hv' Hi'].
  assert (Hx : nth_error (to_list d') (index_of d pos) = Some v)
    by (rewrite Hl; apply nth_error_inserted; lia).
  exists it', d'. repeat split; auto.
  - apply (iter_deref_spec T d' it' _ v Hp' Hx).
  - rewrite (deque_at_nth T), Hx.
    now replace (total_size d' <=? index_of d pos) with false
      by (symmetry; apply Nat.leb_gt; lia).
Qed.

(** X12.  [erase] returns the iterator of the element that followed the
    erased one: it has the index [pos] had, it is [end()] exactly when
    the last element was erased, and [*] reads the follower. *)
Theorem erase_returns_next d pos :
  wf d -> valid_iterator d pos = true -> index_of d pos < deque_size d ->
  exists it' d',
    erase pos d = (Ret it', d')
    /\ valid_iterator d' it' = true
    /\ index_of d' it' = index_of d pos
    /\ iter_eqb it' (deque_end d') = (S (index_of d pos) =? deque_size d)
    /\ iter_deref d' it'
       = match nth_error (to_list d) (S (index_of d pos)) with
         | Some x => Ret x
         | None => Throw (out_of_range "Iterator out of range"%string)
         end.
Proof.
  intros Hwf Hv Hk. apply valid_points in Hv. unfold deque_size in *.
  pose proof (wf_length T d Hwf) as Hlen.
  destruct (erase_spec T d pos _ Hwf Hv Hk) as (it' & d' & Hera & Hwf' & Hl & Ht & Hp').
  destruct (points_valid T d' it' _ Hp') as [Hv' Hi'].
  exists it', d'. repeat split; auto.
  - rewrite (iter_eqb_index T d' it' (deque_end d') _ _ (proj2 Hwf') Hp' (points_end T d')).
    rewrite <- (proj1 Hwf'), Ht.
    destruct (Nat.eqb_spec (S (index_of d pos)) (total_size d)) as [E | E].
    + apply Nat.eqb_eq. lia.
    + apply Nat.eqb_neq. lia.
  - rewrite (deref_any T d' it' _ Hp'), Hl.
    rewrite nth_error_erased by lia. reflexivity.
Qed.

(** X13.  [erase] at [end()], or at the null iterator of the container
    without elements, throws and changes nothing. *)
Theorem erase_at_end_throws d pos :
  wf d -> valid_iterator d pos = true -> index_of d pos = deque_size d ->
  exists e, erase pos d = (Throw e, d).
Proof.
  intros Hwf Hv Hk. apply valid_points in Hv. unfold deque_size in Hk.
  apply (erase_end T d pos _ Hwf Hv). lia.
Qed.

End ArithmeticProperties.

(** * The two ends, the capacity, and the container without blocks *)

Section EndProperties.
Variable T : Type.
Implicit Types (d : deque T) (it pos : iterator).

Lemma back_of_snoc (l : list T) (v : T) (e : exn) :
  match l ++ [v] with
  | [] => Throw e
  | x :: l' => Ret (last l' x)
  end = Ret v.
Proof.
  destruct l as [| a l0]; [reflexivity |].
  cbn [app]. f_equal. apply last_last.
Qed.

Lemma positive_size_blocks d : wf d -> 0 < total_size d -> blocks d <> [].
Proof.
  intros Hwf Hpos Hnil. pose proof (wf_blocks_nil T d Hwf Hnil). lia.
Qed.

(** X14.  After [push_back(v)], [back()] is [v] and so is [at] at the
    old [size()]; a [pop_back()] then gives back the sequence and the
    size from before. *)
Theorem push_back_then_pop_back d v :
  wf d ->
  exists d1 d2,
    push_back v d = (Ret tt, d1)
    /\ deque_back d1 = Ret v
    /\ deque_at d1 (deque_size d) = Ret v
    /\ pop_back d1 = (Ret tt, d2)
    /\ to_list d2 = to_list d
    /\ deque_size d2 = deque_size d.
Proof.
  intros Hwf. unfold deque_size.
  pose proof (wf_length T d Hwf) as Hlen.
  destruct (push_back_spec T d v Hwf) as (d1 & Hpush & Hwf1 & Hl1 & Ht1).
  destruct (pop_back_spec T d1 Hwf1) as [_ Hpop].
  destruct (Hpop ltac:(lia)) as (d2 & Hrun & Hwf2 & Hl2 & Ht2).
  exists d1, d2. repeat split; auto.
  - rewrite (deque_back_spec T d1 Hwf1), Hl1. apply back_of_snoc.
  - rewrite (deque_at_nth T), Hl1.
    replace (total_size d1 <=? total_size d) with false
      by (symmetry; apply Nat.leb_gt; lia).
    rewrite nth_error_app2 by lia.
    now replace (total_size d - length (to_list d)) with 0 by lia.
  - rewrite Hl2, Hl1. apply removelast_last.
  - lia.
Qed.

(** X15.  After [push_front(v)], [front()] is [v] and so is [at(0)]; a
    [pop_front()] then gives back the sequence and the size from before. *)
Theorem push_front_then_pop_front d v :
  wf d ->
  exists d1 d2,
    push_front v d = (Ret tt, d1)
    /\ deque_front d1 = Ret v
    /\ deque_at d1 0 = Ret v
    /\ pop_front d1 = (Ret tt, d2)
    /\ to_list d2 = to_list d
    /\ deque_size d2 = deque_size d.
Proof.
  intros Hwf. unfold deque_size.
  destruct (push_front_spec T d v Hwf) as (d1 & Hpush & Hwf1 & Hl1 & Ht1).
  destruct (pop_front_spec T d1 Hwf1) as [_ Hpop].
  destruct (Hpop ltac:(lia)) as (d2 & Hrun & Hwf2 & Hl2 & Ht2).
  exists d1, d2. repeat split; auto.
  - now rewrite (deque_front_spec T d1 Hwf1), Hl1.
  - rewrite (deque_at_nth T), Hl1.
    now replace (total_size d1 <=? 0) with false
      by (symmetry; apply Nat.leb_gt; lia).
  - now rewrite Hl2, Hl1.
  - lia.
Qed.

Lemma Balance_fixed (out : list (Block T)) (n c : nat) :
  out = [] \/ c = Nat.sqrt n + 1 ->
  Balance {| blocks := out; total_size := n; block_size := c |}
  = (Ret tt, {| blocks := out; total_size := n; block_size := c |}).
Proof.
  intros H. unfold Balance. mrun.
  destruct out as [| b0 bs0]; [reflexivity |].
  destruct H as [H | H]; [discriminate H |].
  change (dl_empty (b0 :: bs0)) with false. cbn iota.
  rewrite H, Nat.eqb_refl. reflexivity.
Qed.

(** X16.  [Balance] is idempotent: a second call right after the first
    finds the capacity it looks for and changes nothing. *)
Theorem Balance_idempotent d :
  exists d', Balance d = (Ret tt, d') /\ Balance d' = (Ret tt, d').
Proof.
  destruct (Balance_run T d) as (out & Hb & Hout).
  eexists. split; [exact Hb |].
  apply Balance_fixed.
  unfold rescans in Hout. unfold balanced_block_size.
  destruct (blocks d) as [| b0 bs0].
  - left. exact Hout.
  - right. reflexivity.
Qed.

(** X17.  [push_back] and [push_front], and a [pop_back] or [pop_front]
    that leaves an element, end with the capacity
    [floor(sqrt(size())) + 1] of the new size. *)
Theorem capacity_follows_size d v :
  wf d ->
  (exists d', push_back v d = (Ret tt, d')
              /\ block_size d' = Nat.sqrt (deque_size d') + 1)
  /\ (exists d', push_front v d = (Ret tt, d')
                 /\ block_size d' = Nat.sqrt (deque_size d') + 1)
  /\ (1 < deque_size d ->
      exists d', pop_back d = (Ret tt, d')
                 /\ block_size d' = Nat.sqrt (deque_size d') + 1)
  /\ (1 < deque_size d ->
      exists d', pop_front d = (Ret tt, d')
                 /\ block_size d' = Nat.sqrt (deque_size d') + 1).
Proof.
  intros Hwf. unfold deque_size. repeat split.
  - destruct (push_back_spec T d v Hwf) as (d' & Hrun & Hwf' & _ & Ht).
    exists d'. split; [exact Hrun |].
    unfold push_back in Hrun.
    do 7 (apply bind_inv in Hrun; destruct Hrun as (? & ? & _ & Hrun)).
    apply (Balance_block_size T _ d' Hrun).
    apply (positive_size_blocks d' Hwf'). lia.
  - destruct (push_front_spec T d v Hwf) as (d' & Hrun & Hwf' & _ & Ht).
    exists d'. split; [exact Hrun |].
    unfold push_front in Hrun.
    do 7 (apply bind_inv in Hrun; destruct Hrun as (? & ? & _ & Hrun)).
    apply (Balance_block_size T _ d' Hrun).
    apply (positive_size_blocks d' Hwf'). lia.
  - intros Hsz. destruct (pop_back_spec T d Hwf) as [_ Hpop].
    destruct (Hpop ltac:(lia)) as (d' & Hrun & Hwf' & _ & Ht).
    exists d'. split; [exact Hrun |].
    unfold pop_back in Hrun.
    apply bind_inv in Hrun; destruct Hrun as (d0 & s0 & _ & Hrun).
    destruct (deque_empty d0); [discriminate Hrun |].
    do 7 (apply bind_inv in Hrun; destruct Hrun as (? & ? & _ & Hrun)).
    apply (Balance_block_size T _ d' Hrun).
    apply (positive_size_blocks d' Hwf'). lia.
  - intros Hsz. destruct (pop_front_spec T d Hwf) as [_ Hpop].
    destruct (Hpop ltac:(lia)) as (d' & Hrun & Hwf' & _ & Ht).
    exists d'. split; [exact Hrun |].
    unfold pop_front in Hrun.
    apply bind_inv in Hrun; destruct Hrun as (d0 & s0 & _ & Hrun).
    destruct (deque_empty d0); [discriminate Hrun |].
    do 7 (apply bind_inv in Hrun; destruct Hrun as (? & ? & _ & Hrun)).
    apply (Balance_block_size T _ d' Hrun).
    apply (positive_size_blocks d' Hwf'). lia.
Qed.

(** X18.  A call of [Balance] that scans the blocks halves the ones that
    are too large: when no block has more than [M] items before the call,
    none has more than the larger of [2 * block_size] and [M / 2] after
    it, for the capacity [block_size] the call stores. *)
Theorem Balance_halves_oversized d M :
  rescans d = true ->
  Forall (fun b => length (items b) <= M) (blocks d) ->
  exists d',
    Balance d = (Ret tt, d')
    /\ block_size d' = Nat.sqrt (total_size d) + 1
    /\ Forall (fun b => length (items b) <= Nat.max (2 * block_size d') (M / 2))
              (blocks d').
Proof.
  intros Hres Hall.
  destruct (Balance_run T d) as (out & Hb & Hout).
  rewrite Hres in Hout.
  eexists. split; [exact Hb |].
  cbn [blocks block_size].
  assert (Hc : balanced_block_size d = Nat.sqrt (total_size d) + 1).
  { unfold balanced_block_size. unfold rescans in Hres.
    destruct (dl_empty (blocks d)); [discriminate Hres | reflexivity]. }
  rewrite Hc. split; [reflexivity |].
  apply (rebalance_pass_bound T _ M (blocks d) out Hout Hall).
Qed.

(** X19.  On a container without blocks, moving forward from the null
    iterator that [begin()] and [end()] return throws, but moving back
    reads the items of the tail block through a null pointer. *)
Theorem stepping_back_without_blocks d (n : Z) :
  blocks d = [] -> (0 < n <= INT_MAX)%Z ->
  iter_incr d (deque_begin d) = Throw (out_of_range ""%string)
  /\ iter_plus d (deque_begin d) n = Throw (out_of_range ""%string)
  /\ iter_decr d (deque_end d) = Undefined
  /\ iter_minus d (deque_end d) n = Undefined.
Proof.
  intros Hnil Hn.
  assert (Hlt : (n <? 0)%Z = false) by (apply Z.ltb_ge; lia).
  assert (Hz : (n =? 0)%Z = false) by (apply Z.eqb_neq; lia).
  unfold iter_incr, iter_plus, iter_plus_nonneg, iter_decr, iter_minus,
    iter_minus_nonneg, deque_begin, deque_end.
  rewrite Hnil, Hlt, Hz. repeat split.
Qed.

End EndProperties.

(** * [Split], [Merge], and a list that inserts and erases a node *)

Section BlockProperties.
Variable T : Type.
Implicit Types (d : deque T) (b next : Block T) (pre rest : list (Block T)).

Lemma Split_small d pre b rest :
  blocks d = pre ++ b :: rest ->
  length (items b) <= block_size d ->
  Split (Some (length pre)) d = (Ret tt, d).
Proof.
  intros Hbl Hle. unfold Split. mrun.
  rewrite Hbl, dl_arrow_mid. cbn iota beta. unfold dl_size.
  replace (length (items b) <=? block_size d) with true
    by (symmetry; apply Nat.leb_le; exact Hle).
  unfold ret. reflexivity.
Qed.

(** X20.  [Split] at a block leaves a block of at most [block_size]
    items alone, and cuts a larger one after the first half of its items
    into two adjacent blocks; the sequence is the same. *)
Theorem Split_halves_block d pre b rest :
  blocks d = pre ++ b :: rest ->
  exists d',
    Split (Some (length pre)) d = (Ret tt, d')
    /\ blocks d'
       = (if length (items b) <=? block_size d then blocks d
          else pre ++ {| items := firstn (length (items b) / 2) (items b) |}
                   :: {| items := skipn (length (items b) / 2) (items b) |} :: rest)
    /\ to_list d' = to_list d
    /\ total_size d' = total_size d
    /\ block_size d' = block_size d.
Proof.
  intros Hbl.
  destruct (Nat.leb_spec (length (items b)) (block_size d)) as [Hle | Hgt].
  - exists d. split; [apply (Split_small d pre b rest Hbl Hle) | auto].
  - eexists. split; [apply (Split_spec T d pre b rest Hbl Hgt) |].
    unfold with_blocks, to_list. cbn [blocks total_size block_size].
    repeat split.
    rewrite Hbl, !to_list_mid. cbn [map concat items].
    f_equal. now rewrite app_assoc, firstn_skipn.
Qed.

(** X21.  [Merge] at a block that has a successor appends the items of
    the successor and removes it when the two have at most [block_size]
    items together, and changes nothing otherwise; at the last block it
    changes nothing.  The sequence is the same. *)
Theorem Merge_joins_blocks d pre b rest :
  blocks d = pre ++ b :: rest ->
  exists d',
    Merge (Some (length pre)) d = (Ret tt, d')
    /\ blocks d'
       = match rest with
         | [] => blocks d
         | next :: rest' =>
             if length (items b) + length (items next) <=? block_size d
             then pre ++ {| items := items b ++ items next |} :: rest'
             else blocks d
         end
    /\ to_list d' = to_list d
    /\ total_size d' = total_size d
    /\ block_size d' = block_size d.
Proof.
  intros Hbl. destruct rest as [| next rest'].
  - exists d. split; [apply (Merge_last T d pre b Hbl) | auto].
  - eexists. split; [apply (Merge_spec T d pre b next rest' Hbl) |].
    destruct (length (items b) + length (items next) <=? block_size d); [| auto].
    unfold with_blocks, to_list. cbn [blocks total_size block_size].
    repeat split.
    rewrite Hbl, !to_list_mid. cbn [map concat items].
    now rewrite <- app_assoc.
Qed.

End BlockProperties.

Section ListProperties.
Variable A : Type.
Implicit Types l : list A.

(** X22.  [double_list::insert] before a node of the list, or at
    [end()], returns the node of the new value; [erase] at that node
    gives back the list and returns the position of the insertion. *)
Theorem dl_insert_then_erase l (i : nat) (v : A) :
  i <= length l ->
  exists l' q,
    dl_insert l (node_at l i) v = Ret (l', q)
    /\ l' = firstn i l ++ v :: skipn i l
    /\ dl_deref l' q = Ret v
    /\ dl_erase l' q = Ret (l, node_at l i).
Proof.
  intros Hi.
  assert (Hlen : length (firstn i l) = i) by (rewrite length_firstn; lia).
  assert (Hq : exists q, dl_insert l (node_at l i) v
                         = Ret (firstn i l ++ v :: skipn i l, q) /\ q = Some i).
  { unfold node_at, dl_insert.
    destruct (Nat.ltb_spec i (length l)) as [Hlt | Hge].
    - replace (i <? length l) with true by (symmetry; apply Nat.ltb_lt; exact Hlt).
      eexists. split; reflexivity.
    - assert (i = length l) by lia. subst i.
      rewrite firstn_all, skipn_all. unfold insert_tail.
      eexists. split; reflexivity. }
  destruct Hq as (q & Hins & ->).
  exists (firstn i l ++ v :: skipn i l), (Some i).
  split; [exact Hins |]. split; [reflexivity |].
  split.
  - pose proof (dl_deref_mid A (firstn i l) (skipn i l) v) as H.
    rewrite Hlen in H. exact H.
  - pose proof (dl_erase_mid A (firstn i l) (skipn i l) v) as H.
    rewrite Hlen, firstn_skipn in H. exact H.
Qed.

End ListProperties.

(** * The further properties on the concrete containers *)

Lemma deref_reads_element_witness :
  wf d3 /\ valid_iterator d3 it12 = true /\ index_of d3 it12 < deque_size d3
  /\ exists x,
       nth_error (to_list d3) (index_of d3 it12) = Some x
       /\ iter_deref d3 it12 = Ret x
       /\ deque_at d3 (index_of d3 it12) = Ret x.
Proof.
  assert (H : index_of d3 it12 < deque_size d3) by (cbn; lia).
  split; [exact wf_d3 |]. split; [reflexivity |]. split; [exact H |].
  exact (deref_reads_element nat d3 it12 wf_d3 eq_refl H).
Defined.

Lemma traversal_visits_in_order_witness :
  wf d3 /\ 2 <= deque_size d3
  /\ exists it,
       incr_times 2 d3 (deque_begin d3) = Ret it
       /\ iter_neqb it (deque_end d3) = negb (2 =? deque_size d3)
       /\ iter_deref d3 it
          = match nth_error (to_list d3) 2 with
            | Some x => Ret x
            | None => Throw (out_of_range "Iterator out of range"%string)
            end.
Proof.
  assert (H : 2 <= deque_size d3) by (cbn; lia).
  split; [exact wf_d3 |]. split; [exact H |].
  exact (traversal_visits_in_order nat d3 2 wf_d3 H).
Defined.

Lemma decrement_moves_back_witness :
  wf d3 /\ valid_iterator d3 (deque_end d3) = true /\ 0 < index_of d3 (deque_end d3)
  /\ exists it',
       iter_decr d3 (deque_end d3) = Ret it'
       /\ valid_iterator d3 it' = true
       /\ index_of d3 it' = index_of d3 (deque_end d3) - 1
       /\ iter_incr d3 it' = Ret (deque_end d3).
Proof.
  assert (H : 0 < index_of d3 (deque_end d3)) by (cbn; lia).
  split; [exact wf_d3 |]. split; [reflexivity |]. split; [exact H |].
  exact (decrement_moves_back nat d3 (deque_end d3) wf_d3 eq_refl H).
Defined.

Lemma increment_then_decrement_witness :
  wf d3 /\ valid_iterator d3 (deque_begin d3) = true
  /\ index_of d3 (deque_begin d3) < deque_size d3
  /\ exists it',
       iter_incr d3 (deque_begin d3) = Ret it'
       /\ iter_decr d3 it' = Ret (deque_begin d3).
Proof.
  assert (H : index_of d3 (deque_begin d3) < deque_size d3) by (cbn; lia).
  split; [exact wf_d3 |]. split; [reflexivity |]. split; [exact H |].
  exact (increment_then_decrement nat d3 (deque_begin d3) wf_d3 eq_refl H).
Defined.

Lemma decrement_begin_throws_witness :
  wf d3 /\ deque_empty d3 = false
  /\ iter_decr d3 (deque_begin d3) = Throw (out_of_range ""%string).
Proof.
  split; [exact wf_d3 |]. split; [reflexivity |].
  exact (decrement_begin_throws nat d3 wf_d3 eq_refl).
Defined.

Lemma plus_past_end_throws_witness :
  wf d3 /\ fits_int d3 /\ valid_iterator d3 (deque_begin d3) = true
  /\ (Z.of_nat 5 <= INT_MAX)%Z /\ deque_size d3 < index_of d3 (deque_begin d3) + 5
  /\ iter_plus d3 (deque_begin d3) (Z.of_nat 5) = Throw (out_of_range ""%string)
  /\ iter_incr d3 (deque_end d3) = Throw (out_of_range ""%string).
Proof.
  assert (H1 : (Z.of_nat 5 <= INT_MAX)%Z) by (unfold INT_MAX; cbn; lia).
  assert (H2 : deque_size d3 < index_of d3 (deque_begin d3) + 5) by (cbn; lia).
  split; [exact wf_d3 |]. split; [exact fits_d3 |]. split; [reflexivity |].
  split; [exact H1 |]. split; [exact H2 |].
  exact (plus_past_end_throws nat d3 (deque_begin d3) 5 wf_d3 fits_d3 eq_refl H1 H2).
Defined.

Lemma minus_moves_back_witness :
  wf d3 /\ fits_int d3 /\ valid_iterator d3 (deque_end d3) = true
  /\ 2 <= index_of d3 (deque_end d3)
  /\ exists it',
       iter_minus d3 (deque_end d3) (Z.of_nat 2) = Ret it'
       /\ valid_iterator d3 it' = true
       /\ index_of d3 it' = index_of d3 (deque_end d3) - 2
       /\ iter_plus d3 it' (Z.of_nat 2) = Ret (deque_end d3).
Proof.
  assert (H : 2 <= index_of d3 (deque_end d3)) by (cbn; lia).
  split; [exact wf_d3 |]. split; [exact fits_d3 |]. split; [reflexivity |].
  split; [exact H |].
  exact (minus_moves_back nat d3 (deque_end d3) 2 wf_d3 fits_d3 eq_refl H).
Defined.

Lemma minus_before_begin_throws_witness :
  wf d3 /\ fits_int d3 /\ deque_empty d3 = false
  /\ valid_iterator d3 it12 = true
  /\ (Z.of_nat 3 <= INT_MAX)%Z /\ index_of d3 it12 < 3
  /\ iter_minus d3 it12 (Z.of_nat 3) = Throw (out_of_range ""%string).
Proof.
  assert (H1 : (Z.of_nat 3 <= INT_MAX)%Z) by (unfold INT_MAX; cbn; lia).
  assert (H2 : index_of d3 it12 < 3) by (cbn; lia).
  split; [exact wf_d3 |]. split; [exact fits_d3 |]. split; [reflexivity |].
  split; [reflexivity |]. split; [exact H1 |]. split; [exact H2 |].
  exact (minus_before_begin_throws nat d3 it12 3 wf_d3 fits_d3 eq_refl eq_refl H1 H2).
Defined.

Lemma equality_is_same_index_witness :
  wf d3 /\ valid_iterator d3 it12 = true /\ valid_iterator d3 (deque_end d3) = true
  /\ iter_eqb it12 (deque_end d3)
     = (index_of d3 it12 =? index_of d3 (deque_end d3))
  /\ iter_neqb it12 (deque_end d3)
     = negb (index_of d3 it12 =? index_of d3 (deque_end d3)).
Proof.
  split; [exact wf_d3 |]. split; [reflexivity |]. split; [reflexivity |].
  exact (equality_is_same_index nat d3 it12 (deque_end d3) wf_d3 eq_refl eq_refl).
Defined.

Lemma distance_from_begin_witness :
  wf d3 /\ deque_empty d3 = false /\ valid_iterator d3 it12 = true
  /\ iter_diff d3 it12 (deque_begin d3) = Ret (Z.of_nat (index_of d3 it12))
  /\ iter_diff d3 (deque_end d3) (deque_begin d3) = Ret (Z.of_nat (deque_size d3))
  /\ iter_diff d3 (deque_begin d3) it12
     = Ret (to_size_t (- Z.of_nat (index_of d3 it12))).
Proof.
  split; [exact wf_d3 |]. split; [reflexivity |]. split; [reflexivity |].
  exact (distance_from_begin nat d3 it12 wf_d3 eq_refl eq_refl).
Defined.

Lemma insert_returns_inserted_witness :
  wf d3 /\ valid_iterator d3 it12 = true
  /\ exists it' d',
       insert it12 9 d3 = (Ret it', d')
       /\ valid_iterator d' it' = true
       /\ index_of d' it' = index_of d3 it12
       /\ iter_deref d' it' = Ret 9
       /\ deque_at d' (index_of d3 it12) = Ret 9.
Proof.
  split; [exact wf_d3 |]. split; [reflexivity |].
  exact (insert_returns_inserted nat d3 it12 9 wf_d3 eq_refl).
Defined.

Lemma erase_returns_next_witness :
  wf d3 /\ valid_iterator d3 (deque_begin d3) = true
  /\ index_of d3 (deque_begin d3) < deque_size d3
  /\ exists it' d',
       erase (deque_begin d3) d3 = (Ret it', d')
       /\ valid_iterator d' it' = true
       /\ index_of d' it' = index_of d3 (deque_begin d3)
       /\ iter_eqb it' (deque_end d')
          = (S (index_of d3 (deque_begin d3)) =? deque_size d3)
       /\ iter_deref d' it'
          = match nth_error (to_list d3) (S (index_of d3 (deque_begin d3))) with
            | Some x => Ret x
            | None => Throw (out_of_range "Iterator out of range"%string)
            end.
Proof.
  assert (H : index_of d3 (deque_begin d3) < deque_size d3) by (cbn; lia).
  split; [exact wf_d3 |]. split; [reflexivity |]. split; [exact H |].
  exact (erase_returns_next nat d3 (deque_begin d3) wf_d3 eq_refl H).
Defined.

Lemma erase_at_end_throws_witness :
  wf d3 /\ valid_iterator d3 (deque_end d3) = true
  /\ index_of d3 (deque_end d3) = deque_size d3
  /\ exists e, erase (deque_end d3) d3 = (Throw e, d3).
Proof.
  split; [exact wf_d3 |]. split; [reflexivity |]. split; [reflexivity |].
  exact (erase_at_end_throws nat d3 (deque_end d3) wf_d3 eq_refl eq_refl).
Defined.

Lemma push_back_then_pop_back_witness :
  wf d3
  /\ exists d1 d2,
       push_back 13 d3 = (Ret tt, d1)
       /\ deque_back d1 = Ret 13
       /\ deque_at d1 (deque_size d3) = Ret 13
       /\ pop_back d1 = (Ret tt, d2)
       /\ to_list d2 = to_list d3
       /\ deque_size d2 = deque_size d3.
Proof. split; [exact wf_d3 | exact (push_back_then_pop_back nat d3 13 wf_d3)]. Defined.

Lemma push_front_then_pop_front_witness :
  wf d3
  /\ exists d1 d2,
       push_front 9 d3 = (Ret tt, d1)
       /\ deque_front d1 = Ret 9
       /\ deque_at d1 0 = Ret 9
       /\ pop_front d1 = (Ret tt, d2)
       /\ to_list d2 = to_list d3
       /\ deque_size d2 = deque_size d3.
Proof. split; [exact wf_d3 | exact (push_front_then_pop_front nat d3 9 wf_d3)]. Defined.

Lemma capacity_follows_size_witness :
  wf d3
  /\ exists d', push_back 13 d3 = (Ret tt, d')
                /\ block_size d' = Nat.sqrt (deque_size d') + 1.
Proof.
  split; [exact wf_d3 |].
  exact (proj1 (capacity_follows_size nat d3 13 wf_d3)).
Defined.

Lemma Balance_halves_oversized_witness :
  rescans d9 = true
  /\ Forall (fun b => length (items b) <= 9) (blocks d9)
  /\ exists d',
       Balance d9 = (Ret tt, d')
       /\ block_size d' = Nat.sqrt (total_size d9) + 1
       /\ Forall (fun b => length (items b) <= Nat.max (2 * block_size d') (9 / 2))
                 (blocks d').
Proof.
  assert (H : Forall (fun b : Block nat => length (items b) <= 9) (blocks d9))
    by (repeat constructor).
  split; [reflexivity |]. split; [exact H |].
  exact (Balance_halves_oversized nat d9 9 eq_refl H).
Defined.

Lemma stepping_back_without_blocks_witness :
  blocks (deque_new nat) = [] /\ (0 < 1 <= INT_MAX)%Z
  /\ iter_incr (deque_new nat) (deque_begin (deque_new nat))
     = Throw (out_of_range ""%string)
  /\ iter_plus (deque_new nat) (deque_begin (deque_new nat)) 1
     = Throw (out_of_range ""%string)
  /\ iter_decr (deque_new nat) (deque_end (deque_new nat)) = Undefined
  /\ iter_minus (deque_new nat) (deque_end (deque_new nat)) 1 = Undefined.
Proof.
  assert (H : (0 < 1 <= INT_MAX)%Z) by (unfold INT_MAX; lia).
  split; [reflexivity |]. split; [exact H |].
  exact (stepping_back_without_blocks nat (deque_new nat) 1 eq_refl H).
Defined.

Lemma Split_halves_block_witness :
  blocks d9 = [] ++ {| items := [1; 2; 3; 4; 5; 6; 7; 8; 9] |} :: []
  /\ exists d',
       Split (Some 0) d9 = (Ret tt, d')
       /\ blocks d' = [{| items := [1; 2; 3; 4] |}; {| items := [5; 6; 7; 8; 9] |}]
       /\ to_list d' = to_list d9
       /\ total_size d' = total_size d9
       /\ block_size d' = block_size d9.
Proof.
  split; [reflexivity |].
  exact (Split_halves_block nat d9 [] {| items := [1; 2; 3; 4; 5; 6; 7; 8; 9] |} []
           eq_refl).
Defined.

Lemma Merge_joins_blocks_witness :
  blocks d3 = [] ++ {| items := [10; 11] |} :: [{| items := [12] |}]
  /\ exists d',
       Merge (Some 0) d3 = (Ret tt, d')
       /\ blocks d' = blocks d3
       /\ to_list d' = to_list d3
       /\ total_size d' = total_size d3
       /\ block_size d' = block_size d3.
Proof.
  split; [reflexivity |].
  exact (Merge_joins_blocks nat d3 [] {| items := [10; 11] |} [{| items := [12] |}]
           eq_refl).
Defined.

Lemma dl_insert_then_erase_witness :
  1 <= length [1; 2; 3]
  /\ exists l' q,
       dl_insert [1; 2; 3] (node_at [1; 2; 3] 1) 7 = Ret (l', q)
       /\ l' = firstn 1 [1; 2; 3] ++ 7 :: skipn 1 [1; 2; 3]
       /\ dl_deref l' q = Ret 7
       /\ dl_erase l' q = Ret ([1; 2; 3], node_at [1; 2; 3] 1).
Proof.
  assert (H : 1 <= length [1; 2; 3]) by (cbn; lia).
  split; [exact H |].
  exact (dl_insert_then_erase nat [1; 2; 3] 1 7 H).
Defined.
